(** * Sequential semantics of the concurrent sets of MIPT.Code

    Two set implementations are embedded here, each as a state record and
    state-passing functions that follow the C++ member functions line by
    line:

    - [OptimisticLinkedSet] (the header that includes arena_allocator.h):
      a sorted singly linked list of arena-allocated nodes between a MIN
      and a MAX sentinel;
    - [StripedHashSet] (StripedHashSet.h, both the mutex and the
      read-write-lock variant): a vector of buckets guarded by stripe
      locks, with a global [Rehash].

    The embedding is sequential: one operation runs to completion before
    the next one starts, which is the setting of every statement about
    quiescent states.  Locks are still part of the state, so a path that
    forgot to release one would make the next acquisition spin.

    [ReadWriteLock], [BlockingQueue] and [ThreadPool] (BlockingQueue.h and
    ThreadPool.h) are followed through the steps of their threads as well:
    a schedule lists the steps in the order in which they take effect, and
    a step that would have to wait is not taken. *)

From Stdlib Require Import ZArith QArith Qround Lia.
From stdpp Require Import base tactics option list sorting.

Open Scope Z_scope.

#[local] Unset Default Proof Using.

(** ** Outcomes of a call

    A call either returns, or runs into undefined behaviour (a null
    dereference, an integer modulo zero, an out-of-range conversion), or
    is still looping when the fuel of the model is used up. *)

Inductive outcome (A : Type) : Type :=
  | Done (a : A)
  | Undefined
  | Spins.

Arguments Done {A} a.
Arguments Undefined {A}.
Arguments Spins {A}.

#[global] Instance outcome_ret : MRet outcome := fun A a => Done a.

#[global] Instance outcome_bind : MBind outcome := fun A B k m =>
  match m with
  | Done a => k a
  | Undefined => Undefined
  | Spins => Spins
  end.

(** [std::size_t] is a 64-bit unsigned integer; arithmetic on it wraps. *)

Definition size_t_max : Z := 2 ^ 64 - 1.

Definition wrap (z : Z) : Z := z mod 2 ^ 64.

(** [std::atomic<size_t>::fetch_add(1)] and [fetch_sub(1)], new value. *)

Definition fetch_add (n : Z) : Z := wrap (n + 1).

Definition fetch_sub (n : Z) : Z := wrap (n - 1).

(** ** ElementTraits

    [ElementTraits<T>::Min()] and [Max()] are [std::numeric_limits<T>::min()]
    and [max()]: the least and the greatest value of the integer type [T].
    Elements are modelled as integers between the two. *)

Class ElementTraits : Type := { Min : Z; Max : Z }.

Definition representable `{ElementTraits} (v : Z) : Prop := Min <= v <= Max.

(** [T = int] *)

Definition int_traits : ElementTraits := {| Min := - 2 ^ 31; Max := 2 ^ 31 - 1 |}.

(** ** The contract of [ConcurrentSet<T>]

    Both headers export their class as [ConcurrentSet<T>], with the member
    functions [Insert], [Remove], [Contains] and [Size]. *)

Inductive operation : Type :=
  | OpInsert (v : Z)
  | OpRemove (v : Z)
  | OpContains (v : Z)
  | OpSize.

Inductive answer : Type :=
  | Bool (b : bool)
  | Count (n : Z).

(** Successful insertions minus successful removals in a trace. *)

Fixpoint net_successes (ops : list operation) (rs : list answer) : Z :=
  match ops, rs with
  | OpInsert _ :: ops', Bool true :: rs' => net_successes ops' rs' + 1
  | OpRemove _ :: ops', Bool true :: rs' => net_successes ops' rs' - 1
  | _ :: ops', _ :: rs' => net_successes ops' rs'
  | _, _ => 0
  end.

(** ** OptimisticLinkedSet *)

Module Linked.

(** A [Node*] is [nullptr] or the index of a node in the arena. *)

Definition ptr : Type := option nat.

(** [SpinLock] holds one atomic flag, [idle]. *)

Record Node : Type := mkNode {
  element_ : Z;
  next_ : ptr;
  lock_ : bool;
  marked_ : bool
}.

(** [Node(element, next)]: the lock starts idle, the node unmarked. *)

Definition Node_new (element : Z) (next : ptr) : Node :=
  {| element_ := element; next_ := next; lock_ := true; marked_ := false |}.

Record Edge : Type := mkEdge { pred_ : ptr; curr_ : ptr }.

(** The arena is the list of the nodes allocated so far. *)

Abbreviation Arena := (list Node).

Record OptimisticLinkedSet : Type := mkSet {
  allocator_ : Arena;
  head_ : ptr;
  elements_ : Z
}.

Definition deref (a : Arena) (p : ptr) : outcome Node :=
  match p with
  | None => Undefined
  | Some i => match a !! i with Some nd => Done nd | None => Undefined end
  end.

(** Write through a pointer that was dereferenced before. *)

Definition store (a : Arena) (p : ptr) (nd : Node) : Arena :=
  match p with
  | None => a
  | Some i => <[i := nd]> a
  end.

(** Modelled from the spec: [ArenaAllocator::New<Node>], declared in
    arena_allocator.h, which is not among the sources.  The arena offers
    one operation, allocation with constructor arguments; the reference it
    returns stays valid as long as the arena lives, nothing is ever freed,
    and allocation does not fail. *)

Definition New (a : Arena) (element : Z) (next : ptr) : Arena * ptr :=
  (a ++ [Node_new element next], Some (length a)).

Definition set_next (nd : Node) (p : ptr) : Node :=
  {| element_ := element_ nd; next_ := p; lock_ := lock_ nd; marked_ := marked_ nd |}.

Definition set_idle (nd : Node) (b : bool) : Node :=
  {| element_ := element_ nd; next_ := next_ nd; lock_ := b; marked_ := marked_ nd |}.

(** [SpinLock::Lock]: [while (!idle.exchange(false)) {}].  With no other
    thread around, a lock that is not idle is never released. *)

Definition SpinLock_Lock (a : Arena) (p : ptr) : outcome Arena :=
  nd ← deref a p;
  if lock_ nd then Done (store a p (set_idle nd false)) else Spins.

(** [SpinLock::Unlock]: [idle.exchange(true)]. *)

Definition SpinLock_Unlock (a : Arena) (p : ptr) : outcome Arena :=
  nd ← deref a p;
  Done (store a p (set_idle nd true)).

Definition Edge_Lock (a : Arena) (e : Edge) : outcome Arena :=
  a1 ← SpinLock_Lock a (pred_ e);
  SpinLock_Lock a1 (curr_ e).

Definition Edge_Unlock (a : Arena) (e : Edge) : outcome Arena :=
  a1 ← SpinLock_Unlock a (curr_ e);
  SpinLock_Unlock a1 (pred_ e).

(** [CreateEmptyList] and the constructor. *)

Definition CreateEmptyList `{ElementTraits} (s : OptimisticLinkedSet)
    : outcome OptimisticLinkedSet :=
  let '(a1, head) := New (allocator_ s) Min None in
  let '(a2, tail) := New a1 Max None in
  h ← deref a2 head;
  Done {| allocator_ := store a2 head (set_next h tail);
          head_ := head;
          elements_ := elements_ s |}.

Definition OptimisticLinkedSet_new `{ElementTraits} (allocator : Arena)
    : outcome OptimisticLinkedSet :=
  CreateEmptyList {| allocator_ := allocator; head_ := None; elements_ := 0 |}.

(** The loop of [Locate]: [while (curr->element_ < element)]. *)

Fixpoint Locate_loop (fuel : nat) (a : Arena) (element : Z) (pred curr : ptr)
    : outcome Edge :=
  match fuel with
  | O => Spins
  | S fuel' =>
      c ← deref a curr;
      if element_ c <? element
      then Locate_loop fuel' a element curr (next_ c)
      else Done {| pred_ := pred; curr_ := curr |}
  end.

Definition Locate (fuel : nat) (s : OptimisticLinkedSet) (element : Z)
    : outcome Edge :=
  h ← deref (allocator_ s) (head_ s);
  Locate_loop fuel (allocator_ s) element (head_ s) (next_ h).

(** [Validate]; [&&] evaluates its right operand only when needed. *)

Definition Validate (a : Arena) (edge : Edge) : outcome bool :=
  p ← deref a (pred_ edge);
  if marked_ p then Done false else
  c ← deref a (curr_ edge);
  if marked_ c then Done false else
  p' ← deref a (pred_ edge);
  Done (bool_decide (next_ p' = curr_ edge)).

Definition with_arena (s : OptimisticLinkedSet) (a : Arena) : OptimisticLinkedSet :=
  {| allocator_ := a; head_ := head_ s; elements_ := elements_ s |}.

(** [Insert]: each round of [while (true)] uses one unit of fuel. *)

Fixpoint Insert (fuel : nat) (s : OptimisticLinkedSet) (element : Z)
    : outcome (bool * OptimisticLinkedSet) :=
  match fuel with
  | O => Spins
  | S fuel' =>
      search_result ← Locate fuel s element;
      a1 ← Edge_Lock (allocator_ s) search_result;
      ok ← Validate a1 search_result;
      if negb ok then
        a2 ← Edge_Unlock a1 search_result;
        Insert fuel' (with_arena s a2) element
      else
        c ← deref a1 (curr_ search_result);
        if element_ c =? element then
          a2 ← Edge_Unlock a1 search_result;
          Done (false, with_arena s a2)
        else
          let n := fetch_add (elements_ s) in
          let '(a2, new_node) := New a1 element (curr_ search_result) in
          p ← deref a2 (pred_ search_result);
          let a3 := store a2 (pred_ search_result) (set_next p new_node) in
          a4 ← Edge_Unlock a3 search_result;
          Done (true, {| allocator_ := a4; head_ := head_ s; elements_ := n |})
  end.

Fixpoint Remove (fuel : nat) (s : OptimisticLinkedSet) (element : Z)
    : outcome (bool * OptimisticLinkedSet) :=
  match fuel with
  | O => Spins
  | S fuel' =>
      search_result ← Locate fuel s element;
      a1 ← Edge_Lock (allocator_ s) search_result;
      ok ← Validate a1 search_result;
      if negb ok then
        a2 ← Edge_Unlock a1 search_result;
        Remove fuel' (with_arena s a2) element
      else
        c ← deref a1 (curr_ search_result);
        if negb (element_ c =? element) then
          a2 ← Edge_Unlock a1 search_result;
          Done (false, with_arena s a2)
        else
          let n := fetch_sub (elements_ s) in
          c' ← deref a1 (curr_ search_result);
          p ← deref a1 (pred_ search_result);
          let a2 := store a1 (pred_ search_result) (set_next p (next_ c')) in
          a3 ← Edge_Unlock a2 search_result;
          Done (true, {| allocator_ := a3; head_ := head_ s; elements_ := n |})
  end.

Definition Contains (fuel : nat) (s : OptimisticLinkedSet) (element : Z)
    : outcome bool :=
  search_result ← Locate fuel s element;
  candidate ← deref (allocator_ s) (curr_ search_result);
  Done (negb (marked_ candidate) && (element_ candidate =? element)).

Definition Size (s : OptimisticLinkedSet) : Z := elements_ s.

(** A full traversal from [head_]: the element values met on the way to
    [nullptr]. *)

Fixpoint values_from (fuel : nat) (a : Arena) (p : ptr) : outcome (list Z) :=
  match p with
  | None => Done []
  | Some _ =>
      match fuel with
      | O => Spins
      | S fuel' =>
          nd ← deref a p;
          vs ← values_from fuel' a (next_ nd);
          Done (element_ nd :: vs)
      end
  end.

Definition values (fuel : nat) (s : OptimisticLinkedSet) : outcome (list Z) :=
  values_from fuel (allocator_ s) (head_ s).

Fixpoint strictly_increasing (vs : list Z) : bool :=
  match vs with
  | [] => true
  | v :: rest =>
      match rest with
      | [] => true
      | w :: _ => (v <? w) && strictly_increasing rest
      end
  end.

(** A sequence of calls, one after the other, with their answers. *)

Definition step (fuel : nat) (s : OptimisticLinkedSet) (o : operation)
    : outcome (answer * OptimisticLinkedSet) :=
  match o with
  | OpInsert v => '(b, s') ← Insert fuel s v; Done (Bool b, s')
  | OpRemove v => '(b, s') ← Remove fuel s v; Done (Bool b, s')
  | OpContains v => b ← Contains fuel s v; Done (Bool b, s)
  | OpSize => Done (Count (Size s), s)
  end.

Fixpoint run (fuel : nat) (s : OptimisticLinkedSet) (ops : list operation)
    : outcome (list answer * OptimisticLinkedSet) :=
  match ops with
  | [] => Done ([], s)
  | o :: rest =>
      '(r, s') ← step fuel s o;
      '(rs, s'') ← run fuel s' rest;
      Done (r :: rs, s'')
  end.

(** The empty set of [int], as the constructor leaves it. *)

Definition empty_int_set : OptimisticLinkedSet :=
  {| allocator_ := [ {| element_ := - 2 ^ 31; next_ := Some 1%nat;
                        lock_ := true; marked_ := false |};
                     {| element_ := 2 ^ 31 - 1; next_ := None;
                        lock_ := true; marked_ := false |} ];
     head_ := Some 0%nat;
     elements_ := 0 |}.

(** *** States and their description

    [lseg a p l q]: following [next_] from [p] visits the nodes at the
    indices of [l], which hold the values of [l], all with an idle lock and
    unmarked, and arrives at [q]. *)

Fixpoint lseg (a : Arena) (p : ptr) (l : list (nat * Z)) (q : ptr) : Prop :=
  match l with
  | [] => p = q
  | (i, v) :: l' =>
      p = Some i /\
      exists nd, a !! i = Some nd /\ element_ nd = v /\
                 lock_ nd = true /\ marked_ nd = false /\
                 lseg a (next_ nd) l' q
  end.

(** [Rep s vs]: the chain of [s] is the MIN sentinel, nodes holding the
    values [vs] in strictly increasing order, all below [Max], and the MAX
    sentinel, whose successor is [nullptr]. *)

Definition Rep `{ElementTraits} (s : OptimisticLinkedSet) (vs : list Z) : Prop :=
  exists (h : nat) (l : list (nat * Z)),
    head_ s = Some h /\
    lseg (allocator_ s) (Some h) ((h, Min) :: l) None /\
    NoDup (h :: l.*1) /\
    l.*2 = vs ++ [Max] /\
    StronglySorted Z.lt (vs ++ [Max]) /\
    Forall (fun v => Min <= v) vs.

(** An operation on values of the element type that is not
    [Remove(Max)], the call that unlinks the tail sentinel. *)

Definition keeps_tail `{ElementTraits} (o : operation) : Prop :=
  match o with
  | OpInsert v | OpContains v => representable v
  | OpRemove v => Min <= v < Max
  | OpSize => True
  end.

(** No node of the arena, linked or not, has its [marked_] flag set. *)

Definition unmarked (a : Arena) : Prop :=
  forall (i : nat) (nd : Node), a !! i = Some nd -> marked_ nd = false.

(** The states a set goes through.  The constructor is handed an arena,
    empty or already holding the nodes of other sets, none of them marked;
    every call that returns leads from a reachable state to a reachable
    state. *)

Inductive reachable `{ElementTraits} : OptimisticLinkedSet -> Prop :=
  | reachable_new a s :
      unmarked a -> OptimisticLinkedSet_new a = Done s -> reachable s
  | reachable_Insert s fuel v b s' :
      reachable s -> representable v -> Insert fuel s v = Done (b, s') ->
      reachable s'
  | reachable_Remove s fuel v b s' :
      reachable s -> representable v -> Remove fuel s v = Done (b, s') ->
      reachable s'.

End Linked.

(** ** StripedHashSet *)

Module Striped.

(** *** Stripe locks

    The two headers differ only in the lock that guards a stripe:
    [std::mutex] ([lock]/[unlock] on every path) or [ReadWriteLock]
    ([WriteLock]/[WriteUnlock] in [Insert], [Remove] and [Rehash],
    [ReadLock]/[ReadUnlock] in [Contains]). *)

Class StripeLock (L : Type) : Type := {
  unlocked : L;
  WriteLock : L -> outcome L;
  WriteUnlock : L -> outcome L;
  ReadLock : L -> outcome L;
  ReadUnlock : L -> outcome L
}.

(** What the set needs of a lock when no other thread holds it. *)

Class StripeLockLaws (L : Type) `{StripeLock L} : Prop := {
  write_lock_unlock :
    exists held : L, WriteLock unlocked = Done held /\ WriteUnlock held = Done unlocked;
  read_lock_unlock :
    exists held : L, ReadLock unlocked = Done held /\ ReadUnlock held = Done unlocked
}.

(** [std::mutex]: [true] when held.  Locking a held mutex blocks for ever,
    unlocking a free one is undefined. *)

Definition mutex_lock (held : bool) : outcome bool :=
  if held then Spins else Done true.

Definition mutex_unlock (held : bool) : outcome bool :=
  if held then Done false else Undefined.

#[global] Instance mutex_StripeLock : StripeLock bool := {|
  unlocked := false;
  WriteLock := mutex_lock;
  WriteUnlock := mutex_unlock;
  ReadLock := mutex_lock;
  ReadUnlock := mutex_unlock
|}.

(** [ReadWriteLock] of the second header. *)

Record ReadWriteLock : Type := mkRW {
  writers_ : Z;
  readers_ : Z;
  write_state : bool
}.

Definition ReadWriteLock_new : ReadWriteLock :=
  {| writers_ := 0; readers_ := 0; write_state := false |}.

Definition RW_ReadLock (l : ReadWriteLock) : outcome ReadWriteLock :=
  if negb (writers_ l =? 0) then Spins else
  Done {| writers_ := writers_ l; readers_ := fetch_add (readers_ l);
          write_state := write_state l |}.

Definition RW_ReadUnlock (l : ReadWriteLock) : outcome ReadWriteLock :=
  Done {| writers_ := writers_ l; readers_ := fetch_sub (readers_ l);
          write_state := write_state l |}.

Definition RW_WriteLock (l : ReadWriteLock) : outcome ReadWriteLock :=
  let w := fetch_add (writers_ l) in
  if (readers_ l =? 0) && negb (write_state l)
  then Done {| writers_ := w; readers_ := readers_ l; write_state := true |}
  else Spins.

Definition RW_WriteUnlock (l : ReadWriteLock) : outcome ReadWriteLock :=
  Done {| writers_ := fetch_sub (writers_ l); readers_ := readers_ l;
          write_state := false |}.

#[global] Instance rw_StripeLock : StripeLock ReadWriteLock := {|
  unlocked := ReadWriteLock_new;
  WriteLock := RW_WriteLock;
  WriteUnlock := RW_WriteUnlock;
  ReadLock := RW_ReadLock;
  ReadUnlock := RW_ReadUnlock
|}.

(** *** The set *)

Record StripedHashSet (L : Type) : Type := mkSet {
  growth_factor_ : Z;
  max_load_factor_ : Z;
  num_elements_ : Z;
  num_stripes_ : Z;
  locks_ : list L;
  hash_table_ : list (list Z)
}.

Arguments mkSet {L}.
Arguments growth_factor_ {L}.
Arguments max_load_factor_ {L}.
Arguments num_elements_ {L}.
Arguments num_stripes_ {L}.
Arguments locks_ {L}.
Arguments hash_table_ {L}.

(** [double] to [std::size_t]: the fraction is dropped; a value that does
    not fit is undefined behaviour. *)

Definition double_to_size_t (q : Q) : outcome Z :=
  let t := Z.quot (Qnum q) (Z.pos (Qden q)) in
  if (0 <=? t) && (t <=? size_t_max) then Done t else Undefined.

(** [v[i]] of a [std::vector]. *)

Definition at_index {A : Type} (v : list A) (i : Z) : outcome A :=
  match v !! Z.to_nat i with
  | Some x => Done x
  | None => Undefined
  end.

Definition vector_size {A : Type} (v : list A) : Z := Z.of_nat (length v).

(** [std::find(b.begin(), b.end(), element) != b.end()] *)

Definition found (bucket : list Z) (element : Z) : bool :=
  bool_decide (element ∈ bucket).

(** [std::forward_list::remove]: every element equal to the value goes. *)

Definition forward_list_remove (bucket : list Z) (element : Z) : list Z :=
  filter (fun x => x <> element) bucket.

Section Set_ops.

Context {L : Type} `{StripeLock L}.

(** [Hash hash]: a pure function to [std::size_t]. *)
Variable hash : Z -> Z.

Definition StripedHashSet_new (concurrency_level growth_factor : Z) (load_factor : Q)
    : outcome (StripedHashSet L) :=
  m ← double_to_size_t load_factor;
  Done {| growth_factor_ := growth_factor;
          max_load_factor_ := m;
          num_elements_ := 0;
          num_stripes_ := concurrency_level;
          locks_ := replicate (Z.to_nat concurrency_level) unlocked;
          hash_table_ := replicate (Z.to_nat concurrency_level) [] |}.

(** [static_cast<double>(num_elements_) / hash_table_.size()], returned as
    [std::size_t].  Counts below [2^53] are exact doubles and the rounded
    quotient of two of them never reaches the next integer, so the
    conversion yields the integer quotient. *)

Definition GetLoadFactor (s : StripedHashSet L) : outcome Z :=
  if vector_size (hash_table_ s) =? 0 then Undefined
  else Done (num_elements_ s / vector_size (hash_table_ s)).

Definition GetBucketIndex (s : StripedHashSet L) (element_hash_value : Z) : outcome Z :=
  if vector_size (hash_table_ s) =? 0 then Undefined
  else Done (element_hash_value mod vector_size (hash_table_ s)).

Definition GetStripeIndex (s : StripedHashSet L) (element_hash_value : Z) : outcome Z :=
  if num_stripes_ s =? 0 then Undefined
  else Done (element_hash_value mod num_stripes_ s).

(** [locks_[i].f()] *)

Definition on_lock (f : L -> outcome L) (locks : list L) (i : Z) : outcome (list L) :=
  l ← at_index locks i;
  l' ← f l;
  Done (<[Z.to_nat i := l']> locks).

(** [for (i = from; i < from + n; i++) locks_[i].f()] *)

Fixpoint on_all_locks (f : L -> outcome L) (n : nat) (from : Z) (locks : list L)
    : outcome (list L) :=
  match n with
  | O => Done locks
  | S n' =>
      locks' ← on_lock f locks from;
      on_all_locks f n' (from + 1) locks'
  end.

Definition with_locks (s : StripedHashSet L) (locks : list L) : StripedHashSet L :=
  {| growth_factor_ := growth_factor_ s;
     max_load_factor_ := max_load_factor_ s;
     num_elements_ := num_elements_ s;
     num_stripes_ := num_stripes_ s;
     locks_ := locks;
     hash_table_ := hash_table_ s |}.

(** The body of the inner loop of [Rehash]. *)

Definition rehash_item (new_size : Z) (temp : list (list Z)) (item : Z)
    : outcome (list (list Z)) :=
  if new_size =? 0 then Undefined else
  let bucket_index := hash item mod new_size in
  b ← at_index temp bucket_index;
  Done (<[Z.to_nat bucket_index := item :: b]> temp).

Fixpoint rehash_bucket (new_size : Z) (temp : list (list Z)) (bucket : list Z)
    : outcome (list (list Z)) :=
  match bucket with
  | [] => Done temp
  | item :: rest =>
      temp' ← rehash_item new_size temp item;
      rehash_bucket new_size temp' rest
  end.

Fixpoint rehash_table (new_size : Z) (temp : list (list Z)) (table : list (list Z))
    : outcome (list (list Z)) :=
  match table with
  | [] => Done temp
  | bucket :: rest =>
      temp' ← rehash_bucket new_size temp bucket;
      rehash_table new_size temp' rest
  end.

Definition Rehash (s : StripedHashSet L) : outcome (StripedHashSet L) :=
  let n := Z.to_nat (num_stripes_ s) in
  l1 ← on_all_locks WriteLock n 0 (locks_ s);
  lf ← GetLoadFactor s;
  if lf <=? max_load_factor_ s then
    l2 ← on_all_locks WriteUnlock n 0 l1;
    Done (with_locks s l2)
  else
    let new_size := wrap (vector_size (hash_table_ s) * growth_factor_ s) in
    let temp := replicate (Z.to_nat new_size) [] in
    temp' ← rehash_table new_size temp (hash_table_ s);
    l2 ← on_all_locks WriteUnlock n 0 l1;
    Done {| growth_factor_ := growth_factor_ s;
            max_load_factor_ := max_load_factor_ s;
            num_elements_ := num_elements_ s;
            num_stripes_ := num_stripes_ s;
            locks_ := l2;
            hash_table_ := temp' |}.

(** [Insert] calls itself after [Rehash]; each call uses one unit of fuel. *)

Fixpoint Insert (fuel : nat) (s : StripedHashSet L) (element : Z)
    : outcome (bool * StripedHashSet L) :=
  match fuel with
  | O => Spins
  | S fuel' =>
      let hash_value := hash element in
      stripe_index ← GetStripeIndex s hash_value;
      l1 ← on_lock WriteLock (locks_ s) stripe_index;
      bucket_index ← GetBucketIndex s hash_value;
      bucket ← at_index (hash_table_ s) bucket_index;
      if found bucket element then
        l2 ← on_lock WriteUnlock l1 stripe_index;
        Done (false, with_locks s l2)
      else
        lf ← GetLoadFactor s;
        if lf >? max_load_factor_ s then
          l2 ← on_lock WriteUnlock l1 stripe_index;
          s' ← Rehash (with_locks s l2);
          Insert fuel' s' element
        else
          let table := <[Z.to_nat bucket_index := element :: bucket]> (hash_table_ s) in
          let n := fetch_add (num_elements_ s) in
          l2 ← on_lock WriteUnlock l1 stripe_index;
          Done (true, {| growth_factor_ := growth_factor_ s;
                         max_load_factor_ := max_load_factor_ s;
                         num_elements_ := n;
                         num_stripes_ := num_stripes_ s;
                         locks_ := l2;
                         hash_table_ := table |})
  end.

Definition Remove (s : StripedHashSet L) (element : Z)
    : outcome (bool * StripedHashSet L) :=
  let hash_value := hash element in
  stripe_index ← GetStripeIndex s hash_value;
  l1 ← on_lock WriteLock (locks_ s) stripe_index;
  bucket_index ← GetBucketIndex s hash_value;
  bucket ← at_index (hash_table_ s) bucket_index;
  if negb (found bucket element) then
    l2 ← on_lock WriteUnlock l1 stripe_index;
    Done (false, with_locks s l2)
  else
    let table :=
      <[Z.to_nat bucket_index := forward_list_remove bucket element]> (hash_table_ s) in
    let n := fetch_sub (num_elements_ s) in
    l2 ← on_lock WriteUnlock l1 stripe_index;
    Done (true, {| growth_factor_ := growth_factor_ s;
                   max_load_factor_ := max_load_factor_ s;
                   num_elements_ := n;
                   num_stripes_ := num_stripes_ s;
                   locks_ := l2;
                   hash_table_ := table |}).

Definition Contains (s : StripedHashSet L) (element : Z)
    : outcome (bool * StripedHashSet L) :=
  let hash_value := hash element in
  stripe_index ← GetStripeIndex s hash_value;
  l1 ← on_lock ReadLock (locks_ s) stripe_index;
  bucket_index ← GetBucketIndex s hash_value;
  bucket ← at_index (hash_table_ s) bucket_index;
  let found_ := found bucket element in
  l2 ← on_lock ReadUnlock l1 stripe_index;
  Done (found_, with_locks s l2).

Definition Size (s : StripedHashSet L) : Z := num_elements_ s.

(** A sequence of calls, one after the other, with their answers. *)

Definition step (fuel : nat) (s : StripedHashSet L) (o : operation)
    : outcome (answer * StripedHashSet L) :=
  match o with
  | OpInsert v => '(b, s') ← Insert fuel s v; Done (Bool b, s')
  | OpRemove v => '(b, s') ← Remove s v; Done (Bool b, s')
  | OpContains v => '(b, s') ← Contains s v; Done (Bool b, s')
  | OpSize => Done (Count (Size s), s)
  end.

Fixpoint run (fuel : nat) (s : StripedHashSet L) (ops : list operation)
    : outcome (list answer * StripedHashSet L) :=
  match ops with
  | [] => Done ([], s)
  | o :: rest =>
      '(r, s') ← step fuel s o;
      '(rs, s'') ← run fuel s' rest;
      Done (r :: rs, s'')
  end.

(** *** States and their description *)

(** The elements of the table, bucket after bucket. *)

Definition members (s : StripedHashSet L) : list Z := concat (hash_table_ s).

(** The bucket of [x] in a table of [capacity] buckets. *)

Definition slot (capacity : Z) (x : Z) : nat := Z.to_nat (hash x mod capacity).

(** Between two calls: every stripe lock is free, there is at least one
    stripe and one bucket, the maximum load factor is not negative and the
    counter is a [size_t]. *)

Definition wf (s : StripedHashSet L) : Prop :=
  0 < num_stripes_ s /\
  locks_ s = replicate (Z.to_nat (num_stripes_ s)) unlocked /\
  0 < vector_size (hash_table_ s) /\
  0 <= max_load_factor_ s /\
  0 <= num_elements_ s < 2 ^ 64.

(** [x] is in bucket [i] of the table. *)

Definition in_bucket (table : list (list Z)) (i : nat) (x : Z) : Prop :=
  exists b : list Z, table !! i = Some b /\ x ∈ b.

(** Every element sits in the bucket its hash selects. *)

Definition placed (table : list (list Z)) : Prop :=
  forall (i : nat) (x : Z),
    in_bucket table i x -> i = slot (vector_size table) x.

(** The invariant of the set between two calls: moreover no element
    occurs twice, and the counter is the number of elements, which is the
    sum of the bucket lengths. *)

Definition Inv (s : StripedHashSet L) : Prop :=
  wf s /\
  placed (hash_table_ s) /\
  NoDup (members s) /\
  num_elements_ s = Z.of_nat (length (members s)).

End Set_ops.

(** The hash of the examples: the value converted to [std::size_t], which
    is what [std::hash<int>] does in libstdc++ and libc++. *)

Definition std_hash (v : Z) : Z := wrap v.

(** [StripedHashSet<int>(4)], mutex-striped, with the default growth
    factor 2 and load factor 1.25: empty, and holding [0..5], [0..6] and
    [0..7] after as many calls of [Insert]. *)

Definition four_buckets (n : Z) (table : list (list Z)) : StripedHashSet bool :=
  {| growth_factor_ := 2;
     max_load_factor_ := 1;
     num_elements_ := n;
     num_stripes_ := 4;
     locks_ := [false; false; false; false];
     hash_table_ := table |}.

Definition empty_in_four : StripedHashSet bool :=
  four_buckets 0 [[]; []; []; []].

Definition six_in_four : StripedHashSet bool :=
  four_buckets 6 [[4; 0]; [5; 1]; [2]; [3]].

Definition seven_in_four : StripedHashSet bool :=
  four_buckets 7 [[4; 0]; [5; 1]; [6; 2]; [3]].


Definition eight_in_four : StripedHashSet bool :=
  four_buckets 8 [[4; 0]; [5; 1]; [6; 2]; [7; 3]].

End Striped.

(** ** The two sets side by side *)

(** An operation whose argument, if it has one, is a value of the element
    type other than [Max], the value of the linked set's tail sentinel. *)

Definition ordinary `{ElementTraits} (o : operation) : Prop :=
  match o with
  | OpInsert v | OpRemove v | OpContains v => Min <= v < Max
  | OpSize => True
  end.

(** A linked set and a striped set that hold the same elements and whose
    counters agree. *)

Definition same_contents `{ElementTraits} {L : Type} `{Striped.StripeLock L}
    (hash : Z -> Z) (l : Linked.OptimisticLinkedSet) (s : Striped.StripedHashSet L)
    : Prop :=
  exists vs : list Z,
    Linked.Rep l vs /\
    Striped.Inv hash s /\
    vs ≡ₚ Striped.members s /\
    Linked.Size l = Striped.Size s.

Module StripedBounds.
Import Striped.

(** The count does not exceed [max_load_factor_ + 1] elements per bucket. *)

Definition load_bounded {L : Type} (s : StripedHashSet L) : Prop :=
  num_elements_ s <= (max_load_factor_ s + 1) * vector_size (hash_table_ s).

(** A table of one bucket and one stripe that holds 0 and 1, with the
    default load factor and the growth factor [g]. *)

Definition two_in_one (g : Z) : StripedHashSet bool :=
  {| growth_factor_ := g;
     max_load_factor_ := 1;
     num_elements_ := 2;
     num_stripes_ := 1;
     locks_ := [false];
     hash_table_ := [[1; 0]] |}.

(** [two_in_one 1] after [Rehash]: one bucket again, filled in the other
    order. *)

Definition two_in_one_again : StripedHashSet bool :=
  {| growth_factor_ := 1;
     max_load_factor_ := 1;
     num_elements_ := 2;
     num_stripes_ := 1;
     locks_ := [false];
     hash_table_ := [[0; 1]] |}.

(** The set [s] had it been constructed with another growth factor. *)

Definition with_growth_factor {L : Type} (s : StripedHashSet L) (growth_factor : Z)
    : StripedHashSet L :=
  {| growth_factor_ := growth_factor;
     max_load_factor_ := max_load_factor_ s;
     num_elements_ := num_elements_ s;
     num_stripes_ := num_stripes_ s;
     locks_ := locks_ s;
     hash_table_ := hash_table_ s |}.

(** [StripedHashSet<int>(0)], mutex-striped. *)

Definition no_stripes : StripedHashSet bool :=
  {| growth_factor_ := 2;
     max_load_factor_ := 1;
     num_elements_ := 0;
     num_stripes_ := 0;
     locks_ := [];
     hash_table_ := [] |}.

End StripedBounds.

Module LinkedArena.
Import Linked.

(** Every [SpinLock] of the arena is idle. *)

Definition all_idle (a : Arena) : Prop :=
  forall (i : nat) (nd : Node), a !! i = Some nd -> lock_ nd = true.

(** The arena [a'] holds the nodes of [a] at the same addresses and with
    the same elements, and [k] more. *)

Definition extends (a a' : Arena) (k : nat) : Prop :=
  length a' = (length a + k)%nat /\
  forall (i : nat) (nd : Node),
    a !! i = Some nd ->
    exists nd' : Node, a' !! i = Some nd' /\ element_ nd' = element_ nd.

(** The calls of [Insert] that returned true in a trace. *)

Fixpoint successful_inserts (ops : list operation) (rs : list answer) : nat :=
  match ops, rs with
  | OpInsert _ :: ops', Bool true :: rs' => S (successful_inserts ops' rs')
  | _ :: ops', _ :: rs' => successful_inserts ops' rs'
  | _, _ => 0%nat
  end.

(** The [int] set that holds 5: the empty set after [Insert(5)]. *)

Definition int_set_5 : OptimisticLinkedSet :=
  {| allocator_ := [ {| element_ := - 2 ^ 31; next_ := Some 2%nat;
                        lock_ := true; marked_ := false |};
                     {| element_ := 2 ^ 31 - 1; next_ := None;
                        lock_ := true; marked_ := false |};
                     {| element_ := 5; next_ := Some 1%nat;
                        lock_ := true; marked_ := false |} ];
     head_ := Some 0%nat;
     elements_ := 1 |}.

End LinkedArena.

(** ** A call of the linked set that overlaps another

    [Locate] takes no lock, so another thread's call can run between the
    moment [Locate] returns and the moment the edge is locked.  The rest of
    the round of [Insert], from [search_result.Lock()] on, runs with both
    ends of the edge locked. *)

Module LinkedOverlap.
Import Linked.

(** One round of the loop of [Insert] from the edge that [Locate] returned;
    [None] stands for [continue]. *)

Definition Insert_round (s : OptimisticLinkedSet) (element : Z) (search_result : Edge)
    : outcome (option bool * OptimisticLinkedSet) :=
  a1 ← Edge_Lock (allocator_ s) search_result;
  ok ← Validate a1 search_result;
  if negb ok then
    a2 ← Edge_Unlock a1 search_result;
    Done (None, with_arena s a2)
  else
    c ← deref a1 (curr_ search_result);
    if element_ c =? element then
      a2 ← Edge_Unlock a1 search_result;
      Done (Some false, with_arena s a2)
    else
      let n := fetch_add (elements_ s) in
      let '(a2, new_node) := New a1 element (curr_ search_result) in
      p ← deref a2 (pred_ search_result);
      let a3 := store a2 (pred_ search_result) (set_next p new_node) in
      a4 ← Edge_Unlock a3 search_result;
      Done (Some true, {| allocator_ := a4; head_ := head_ s; elements_ := n |}).

(** The [int] set that holds 3, and the same after [Remove(3)]: the node
    that held 3 is off the chain and still points to the tail. *)

Definition int_set_3 : OptimisticLinkedSet :=
  {| allocator_ := [ {| element_ := - 2 ^ 31; next_ := Some 2%nat;
                        lock_ := true; marked_ := false |};
                     {| element_ := 2 ^ 31 - 1; next_ := None;
                        lock_ := true; marked_ := false |};
                     {| element_ := 3; next_ := Some 1%nat;
                        lock_ := true; marked_ := false |} ];
     head_ := Some 0%nat;
     elements_ := 1 |}.

Definition int_set_3_removed : OptimisticLinkedSet :=
  {| allocator_ := [ {| element_ := - 2 ^ 31; next_ := Some 1%nat;
                        lock_ := true; marked_ := false |};
                     {| element_ := 2 ^ 31 - 1; next_ := None;
                        lock_ := true; marked_ := false |};
                     {| element_ := 3; next_ := Some 1%nat;
                        lock_ := true; marked_ := false |} ];
     head_ := Some 0%nat;
     elements_ := 0 |}.

(** The state after the round of [Insert(5)] on the edge from the node
    that held 3 to the tail: the new node hangs behind the unlinked one. *)

Definition int_set_5_lost : OptimisticLinkedSet :=
  {| allocator_ := [ {| element_ := - 2 ^ 31; next_ := Some 1%nat;
                        lock_ := true; marked_ := false |};
                     {| element_ := 2 ^ 31 - 1; next_ := None;
                        lock_ := true; marked_ := false |};
                     {| element_ := 3; next_ := Some 3%nat;
                        lock_ := true; marked_ := false |};
                     {| element_ := 5; next_ := Some 1%nat;
                        lock_ := true; marked_ := false |} ];
     head_ := Some 0%nat;
     elements_ := 1 |}.

End LinkedOverlap.

(** ** Threads on one ReadWriteLock

    Every member function of [ReadWriteLock] runs under [mutex_], which a
    thread gives up only inside [wait]: a call is one atomic step, or two
    when it waits in the middle ([WriteLock] has announced itself in
    [writers_] before it waits).  A waiting thread goes on only at a moment
    when its predicate holds; notifications decide when it looks, not what
    it sees, so they are left out.  Threads pair each lock with the unlock
    of the same kind, as [StripedHashSet] does. *)

Module RWThreads.

Import Striped.

(** [WriteLock] up to its [wait], and from the [wait] on. *)

Definition WriteLock_enter (l : ReadWriteLock) : ReadWriteLock :=
  {| writers_ := fetch_add (writers_ l); readers_ := readers_ l;
     write_state := write_state l |}.

Definition WriteLock_acquire (l : ReadWriteLock) : outcome ReadWriteLock :=
  if (readers_ l =? 0) && negb (write_state l)
  then Done {| writers_ := writers_ l; readers_ := readers_ l; write_state := true |}
  else Spins.

(** Where a thread is. *)

Inductive activity : Type :=
  | Outside
  | Reading
  | Waiting
  | Writing.

Definition same_activity (a b : activity) : bool :=
  match a, b with
  | Outside, Outside | Reading, Reading | Waiting, Waiting | Writing, Writing => true
  | _, _ => false
  end.

(** What a thread does next. *)

Inductive move : Type :=
  | CallReadLock
  | CallReadUnlock
  | CallWriteLock
  | WakeUp
  | CallWriteUnlock.

Definition returned (o : outcome ReadWriteLock) (a : activity)
    : option (ReadWriteLock * activity) :=
  match o with
  | Done l' => Some (l', a)
  | _ => None
  end.

(** One step of a thread; [None] when the thread cannot take it now. *)

Definition move_of (l : ReadWriteLock) (a : activity) (m : move)
    : option (ReadWriteLock * activity) :=
  match a, m with
  | Outside, CallReadLock => returned (RW_ReadLock l) Reading
  | Reading, CallReadUnlock => returned (RW_ReadUnlock l) Outside
  | Outside, CallWriteLock => Some (WriteLock_enter l, Waiting)
  | Waiting, WakeUp => returned (WriteLock_acquire l) Writing
  | Writing, CallWriteUnlock => returned (RW_WriteUnlock l) Outside
  | _, _ => None
  end.

Record system : Type := mkSystem {
  lock : ReadWriteLock;
  threads : list activity
}.

Definition step (sys : system) (im : nat * move) : option system :=
  match threads sys !! im.1 with
  | Some a =>
      match move_of (lock sys) a im.2 with
      | Some (l', a') =>
          Some {| lock := l'; threads := <[im.1 := a']> (threads sys) |}
      | None => None
      end
  | None => None
  end.

Fixpoint run_schedule (sys : system) (schedule : list (nat * move)) : option system :=
  match schedule with
  | [] => Some sys
  | im :: rest =>
      match step sys im with
      | Some sys' => run_schedule sys' rest
      | None => None
      end
  end.

(** [n] threads and a new lock. *)

Definition start (n : nat) : system :=
  {| lock := ReadWriteLock_new; threads := replicate n Outside |}.

(** The number of threads in a given place. *)

Fixpoint count (a : activity) (ts : list activity) : nat :=
  match ts with
  | [] => 0
  | b :: rest => (if same_activity b a then 1 else 0) + count a rest
  end.

(** The counters of the lock say where the threads are. *)

Definition counters_agree (sys : system) : Prop :=
  readers_ (lock sys) = Z.of_nat (count Reading (threads sys)) /\
  writers_ (lock sys)
    = Z.of_nat (count Waiting (threads sys) + count Writing (threads sys)) /\
  count Writing (threads sys) = (if write_state (lock sys) then 1 else 0)%nat /\
  (write_state (lock sys) = true -> count Reading (threads sys) = 0%nat).

End RWThreads.

(** ** BlockingQueue

    [BlockingQueue] is defined twice, in BlockingQueue.h and at the top of
    ThreadPool.h; the two differ in [Put] only.  [Put] and [Get] hold
    [mutex] from the moment their [wait] finds its predicate true up to
    their return, and [Shutdown] is one atomic store followed by
    notifications: a call takes effect in one step, at a moment when it
    does not have to wait.  A history lists the calls in the order in which
    they took effect. *)

Module Queue.

(** How a call ends: it returns, throws, is still waiting, or has run
    into undefined behaviour. *)

Inductive completion (A : Type) : Type :=
  | Returns (a : A)
  | Throws
  | Waits
  | Faults.

Arguments Returns {A} a.
Arguments Throws {A}.
Arguments Waits {A}.
Arguments Faults {A}.

Record BlockingQueue (T : Type) : Type := mkQueue {
  capacity : Z;
  off : bool;
  box : list T
}.

Arguments mkQueue {T}.
Arguments capacity {T}.
Arguments off {T}.
Arguments box {T}.

Section Queue_ops.

Context {T : Type}.

(** [box.size()] *)

Definition size (q : BlockingQueue T) : Z := Z.of_nat (length (box q)).

Definition BlockingQueue_new (capacity : Z) : BlockingQueue T :=
  {| capacity := capacity; off := false; box := [] |}.

Definition push_back (q : BlockingQueue T) (element : T) : BlockingQueue T :=
  {| capacity := capacity q; off := off q; box := box q ++ [element] |}.

(** [Get], the same in both headers; [Some result] stands for [true] with
    [result] assigned, [None] for [false]. *)

Definition Get (q : BlockingQueue T) : completion (option T * BlockingQueue T) :=
  if negb (size q =? 0) || off q then
    if off q && (size q =? 0) then Returns (None, q)
    else
      match box q with
      | result :: rest =>
          Returns (Some result, {| capacity := capacity q; off := off q; box := rest |})
      | [] => Faults
      end
  else Waits.

(** [Shutdown], the same in both headers. *)

Definition Shutdown (q : BlockingQueue T) : BlockingQueue T :=
  {| capacity := capacity q; off := true; box := box q |}.

(** Calls and what came of them. *)

Inductive call : Type :=
  | CallPut (element : T)
  | CallGet
  | CallShutdown.

Inductive event : Type :=
  | PutReturned (element : T)
  | PutThrew (element : T)
  | GetReturned (result : option T)
  | ShutdownReturned.

(** [Put] is that of the header at hand. *)

Variable Put : BlockingQueue T -> T -> completion (BlockingQueue T).

(** A call takes effect; [None] when it cannot now. *)

Definition perform (q : BlockingQueue T) (c : call) : option (event * BlockingQueue T) :=
  match c with
  | CallPut element =>
      match Put q element with
      | Returns q' => Some (PutReturned element, q')
      | Throws => Some (PutThrew element, q)
      | Waits | Faults => None
      end
  | CallGet =>
      match Get q with
      | Returns (result, q') => Some (GetReturned result, q')
      | Throws | Waits | Faults => None
      end
  | CallShutdown => Some (ShutdownReturned, Shutdown q)
  end.

Fixpoint history (q : BlockingQueue T) (calls : list call)
    : option (list event * BlockingQueue T) :=
  match calls with
  | [] => Some ([], q)
  | c :: rest =>
      match perform q c with
      | Some (e, q') =>
          match history q' rest with
          | Some (es, q'') => Some (e :: es, q'')
          | None => None
          end
      | None => None
      end
  end.

(** A [Put] that returns has stored the element at the back. *)

Definition appends : Prop :=
  forall q element q', Put q element = Returns q' -> q' = push_back q element.

End Queue_ops.

(** The elements that went in, and those that came out, in order. *)

Fixpoint puts {T : Type} (es : list (@event T)) : list T :=
  match es with
  | [] => []
  | PutReturned element :: rest => element :: puts rest
  | _ :: rest => puts rest
  end.

Fixpoint gets {T : Type} (es : list (@event T)) : list T :=
  match es with
  | [] => []
  | GetReturned (Some result) :: rest => result :: gets rest
  | _ :: rest => gets rest
  end.

End Queue.

(** [Put] of BlockingQueue.h.  Its statement
    [if (off) std::bad_exception("system shutdown");] is not valid C++:
    [std::bad_exception] has no constructor that takes a string, so the
    function has no behaviour of its own once the queue is shut down.  The
    rest of the function is that of ThreadPool.h.  The statement is read in
    both possible ways: with [throws], as the [throw] of ThreadPool.h;
    without, as an expression whose value is dropped.  A fact about this
    [Put] is one that holds for both. *)

Module BlockingQueue_h.

Import Queue.

Definition Put {T : Type} (throws : bool) (q : BlockingQueue T) (element : T)
    : completion (BlockingQueue T) :=
  if negb (size q =? capacity q) || off q then
    if off q && throws then Throws else Returns (push_back q element)
  else Waits.

End BlockingQueue_h.

(** [Put] of ThreadPool.h, which throws once the queue is shut down. *)

Module ThreadPool_h.

Import Queue.

Definition Put {T : Type} (q : BlockingQueue T) (element : T)
    : completion (BlockingQueue T) :=
  if negb (size q =? capacity q) || off q then
    if off q then Throws else Returns (push_back q element)
  else Waits.

(** *** ThreadPool

    The pool is followed through the steps of its threads.  A worker runs
    [while (tasks.Get(task)) task();]: it is in [Get], or in [task()], or
    has left the loop, or has been joined.  [Submit] is one call of [Put].
    [Shutdown], called by one thread, the owner, takes a step for each of
    its two stores and one for each [join].  A task is known by the value
    its function returns; running it stores that value in the shared state
    its future reads. *)

Record packaged_task (T : Type) : Type := mkTask {
  function : T;
  shared_state : nat
}.

Arguments mkTask {T}.
Arguments function {T}.
Arguments shared_state {T}.

Inductive worker (T : Type) : Type :=
  | InGet
  | InTask (task : packaged_task T)
  | Returned
  | Joined.

Arguments InGet {T}.
Arguments InTask {T} task.
Arguments Returned {T}.
Arguments Joined {T}.

(** The thread that calls [Shutdown]: elsewhere, or between
    [off.store(true)] and [tasks.Shutdown()], or in [workers[k].join()]. *)

Inductive owner : Type :=
  | Elsewhere
  | Stopping
  | Joining (k : nat).

Record ThreadPool (T : Type) : Type := mkPool {
  capacity : Z;
  off : bool;
  workers : list (worker T);
  tasks : BlockingQueue (packaged_task T);
  shared_states : list (option T);
  owner_ : owner
}.

Arguments mkPool {T}.
Arguments capacity {T}.
Arguments off {T}.
Arguments workers {T}.
Arguments tasks {T}.
Arguments shared_states {T}.
Arguments owner_ {T}.

(** [default_num_workers], given [std::thread::hardware_concurrency()]. *)

Definition default_num_workers (cores : Z) : Z :=
  if cores =? 0 then 2 else cores.

Inductive move (T : Type) : Type :=
  | CallSubmit (task : T)
  | WorkerStep (i : nat)
  | CallPoolShutdown
  | ShutdownStep.

Arguments CallSubmit {T} task.
Arguments WorkerStep {T} i.
Arguments CallPoolShutdown {T}.
Arguments ShutdownStep {T}.

Inductive pool_event (T : Type) : Type :=
  | Submitted (task : T) (future : nat)
  | SubmitThrew (task : T)
  | Took (i : nat) (task : packaged_task T)
  | Ran (i : nat) (task : packaged_task T)
  | LeftLoop (i : nat)
  | ShutdownCalled
  | QueueShutDown
  | WorkerJoined (k : nat)
  | ShutdownThrew.

Arguments Submitted {T} task future.
Arguments SubmitThrew {T} task.
Arguments Took {T} i task.
Arguments Ran {T} i task.
Arguments LeftLoop {T} i.
Arguments ShutdownCalled {T}.
Arguments QueueShutDown {T}.
Arguments WorkerJoined {T} k.
Arguments ShutdownThrew {T}.

Section Pool_ops.

Context {T : Type}.

(** [ThreadPool(num_threads)]: the workers start in their loop. *)

Definition ThreadPool_new (num_threads : Z) : ThreadPool T :=
  {| capacity := num_threads;
     off := false;
     workers := replicate (Z.to_nat num_threads) InGet;
     tasks := BlockingQueue_new num_threads;
     shared_states := [];
     owner_ := Elsewhere |}.

(** [ThreadPool()] *)

Definition ThreadPool_default (cores : Z) : ThreadPool T :=
  ThreadPool_new (default_num_workers cores).

(** [Submit] returns the future, the index of its shared state. *)

Definition Submit (p : ThreadPool T) (task : T) : completion (nat * ThreadPool T) :=
  let result := length (shared_states p) in
  let current_task := {| function := task; shared_state := result |} in
  match Put (tasks p) current_task with
  | Returns q' =>
      Returns (result,
               {| capacity := capacity p;
                  off := off p;
                  workers := workers p;
                  tasks := q';
                  shared_states := shared_states p ++ [None];
                  owner_ := owner_ p |})
  | Throws => Throws
  | Waits => Waits
  | Faults => Faults
  end.

(** One step of worker [i]: out of [Get], or to the end of [task()]. *)

Definition worker_step (p : ThreadPool T) (i : nat)
    : option (pool_event T * ThreadPool T) :=
  match workers p !! i with
  | Some InGet =>
      match Get (tasks p) with
      | Returns (Some task, q') =>
          Some (Took i task,
                {| capacity := capacity p;
                   off := off p;
                   workers := <[i := InTask task]> (workers p);
                   tasks := q';
                   shared_states := shared_states p;
                   owner_ := owner_ p |})
      | Returns (None, q') =>
          Some (LeftLoop i,
                {| capacity := capacity p;
                   off := off p;
                   workers := <[i := Returned]> (workers p);
                   tasks := q';
                   shared_states := shared_states p;
                   owner_ := owner_ p |})
      | Throws | Waits | Faults => None
      end
  | Some (InTask task) =>
      Some (Ran i task,
            {| capacity := capacity p;
               off := off p;
               workers := <[i := InGet]> (workers p);
               tasks := tasks p;
               shared_states :=
                 <[shared_state task := Some (function task)]> (shared_states p);
               owner_ := owner_ p |})
  | Some Returned | Some Joined | None => None
  end.

(** [Shutdown]: [off.store(true)]. *)

Definition Shutdown_store (p : ThreadPool T) : ThreadPool T :=
  {| capacity := capacity p;
     off := true;
     workers := workers p;
     tasks := tasks p;
     shared_states := shared_states p;
     owner_ := Stopping |}.

(** [Shutdown]: [tasks.Shutdown()], up to the first [join]. *)

Definition Shutdown_queue (p : ThreadPool T) : ThreadPool T :=
  {| capacity := capacity p;
     off := off p;
     workers := workers p;
     tasks := Shutdown (tasks p);
     shared_states := shared_states p;
     owner_ := match workers p with [] => Elsewhere | _ :: _ => Joining 0 end |}.

(** [workers[k].join()]: it waits for the thread to end, and throws
    [std::system_error] on a thread that was joined before. *)

Definition join (p : ThreadPool T) (k : nat) : completion (ThreadPool T) :=
  match workers p !! k with
  | Some Returned =>
      Returns {| capacity := capacity p;
                 off := off p;
                 workers := <[k := Joined]> (workers p);
                 tasks := tasks p;
                 shared_states := shared_states p;
                 owner_ := if (S k <? length (workers p))%nat
                           then Joining (S k) else Elsewhere |}
  | Some Joined => Throws
  | Some InGet | Some (InTask _) => Waits
  | None => Faults
  end.

Definition leave_Shutdown (p : ThreadPool T) : ThreadPool T :=
  {| capacity := capacity p;
     off := off p;
     workers := workers p;
     tasks := tasks p;
     shared_states := shared_states p;
     owner_ := Elsewhere |}.

(** [~ThreadPool()] calls [Shutdown] when this holds. *)

Definition destructor_calls_Shutdown (p : ThreadPool T) : bool := negb (off p).

Definition pool_step (p : ThreadPool T) (m : move T)
    : option (pool_event T * ThreadPool T) :=
  match m with
  | CallSubmit task =>
      match Submit p task with
      | Returns (future, p') => Some (Submitted task future, p')
      | Throws => Some (SubmitThrew task, p)
      | Waits | Faults => None
      end
  | WorkerStep i => worker_step p i
  | CallPoolShutdown =>
      match owner_ p with
      | Elsewhere => Some (ShutdownCalled, Shutdown_store p)
      | Stopping | Joining _ => None
      end
  | ShutdownStep =>
      match owner_ p with
      | Elsewhere => None
      | Stopping => Some (QueueShutDown, Shutdown_queue p)
      | Joining k =>
          match join p k with
          | Returns p' => Some (WorkerJoined k, p')
          | Throws => Some (ShutdownThrew, leave_Shutdown p)
          | Waits | Faults => None
          end
      end
  end.

Fixpoint pool_run (p : ThreadPool T) (moves : list (move T))
    : option (list (pool_event T) * ThreadPool T) :=
  match moves with
  | [] => Some ([], p)
  | m :: rest =>
      match pool_step p m with
      | Some (e, p') =>
          match pool_run p' rest with
          | Some (es, p'') => Some (e :: es, p'')
          | None => None
          end
      | None => None
      end
  end.

(** The tasks that [Submit] accepted, that the workers took, and that
    they ran to the end, each in order; and those in progress. *)

Fixpoint submitted (es : list (pool_event T)) : list (packaged_task T) :=
  match es with
  | [] => []
  | Submitted task future :: rest =>
      {| function := task; shared_state := future |} :: submitted rest
  | _ :: rest => submitted rest
  end.

Fixpoint took (es : list (pool_event T)) : list (packaged_task T) :=
  match es with
  | [] => []
  | Took _ task :: rest => task :: took rest
  | _ :: rest => took rest
  end.

Fixpoint ran (es : list (pool_event T)) : list (packaged_task T) :=
  match es with
  | [] => []
  | Ran _ task :: rest => task :: ran rest
  | _ :: rest => ran rest
  end.

Fixpoint in_task (ws : list (worker T)) : list (packaged_task T) :=
  match ws with
  | [] => []
  | InTask task :: rest => task :: in_task rest
  | _ :: rest => in_task rest
  end.

(** What a worker is running. *)

Definition task_of (w : worker T) : list (packaged_task T) :=
  match w with
  | InTask task => [task]
  | InGet | Returned | Joined => []
  end.

(** The workers that have been joined are the first [m]. *)

Definition joined_first (ws : list (worker T)) (m : nat) : Prop :=
  forall j w, ws !! j = Some w -> (w = Joined <-> (j < m)%nat).

(** What holds of a pool of [n] threads after the events [es]. *)

Record pool_inv (n : Z) (es : list (pool_event T)) (p : ThreadPool T) : Prop := {
  inv_queue : submitted es = took es ++ box (tasks p);
  inv_futures : shared_state <$> submitted es = seq 0 (length (shared_states p));
  inv_taken : took es ≡ₚ ran es ++ in_task (workers p);
  inv_ran :
    forall task, task ∈ ran es ->
      shared_states p !! shared_state task = Some (Some (function task));
  inv_off : Queue.off (tasks p) = true -> off p = true;
  inv_capacity : Queue.capacity (tasks p) = n;
  inv_workers : length (workers p) = Z.to_nat n;
  inv_size : size (tasks p) <= n;
  inv_left :
    (exists i, workers p !! i = Some Returned \/ workers p !! i = Some Joined) ->
    Queue.off (tasks p) = true /\ box (tasks p) = [];
  inv_joined :
    exists m : nat,
      joined_first (workers p) m /\
      match owner_ p with
      | Elsewhere =>
          off p = true -> m = length (workers p) /\ Queue.off (tasks p) = true
      | Stopping => off p = true /\ (m = 0%nat \/ m = length (workers p))
      | Joining k =>
          Queue.off (tasks p) = true /\ (k < length (workers p))%nat /\
          (m = k \/ m = length (workers p))
      end
}.

End Pool_ops.

(** A pool of two threads: three tasks are submitted, then [Shutdown];
    the workers run what is left and are joined. *)

Definition two_workers_moves : list (move Z) :=
  [CallSubmit 10; CallSubmit 20; WorkerStep 0; WorkerStep 0; CallSubmit 30;
   CallPoolShutdown; ShutdownStep; WorkerStep 1; WorkerStep 0; WorkerStep 1;
   WorkerStep 0; WorkerStep 0; WorkerStep 1; ShutdownStep; ShutdownStep].

Definition two_workers_events : list (pool_event Z) :=
  [Submitted 10 0; Submitted 20 1;
   Took 0 {| function := 10; shared_state := 0 |};
   Ran 0 {| function := 10; shared_state := 0 |};
   Submitted 30 2; ShutdownCalled; QueueShutDown;
   Took 1 {| function := 20; shared_state := 1 |};
   Took 0 {| function := 30; shared_state := 2 |};
   Ran 1 {| function := 20; shared_state := 1 |};
   Ran 0 {| function := 30; shared_state := 2 |};
   LeftLoop 0; LeftLoop 1; WorkerJoined 0; WorkerJoined 1].

Definition two_workers_end : ThreadPool Z :=
  {| capacity := 2;
     off := true;
     workers := [Joined; Joined];
     tasks := {| Queue.capacity := 2; Queue.off := true; box := [] |};
     shared_states := [Some 10; Some 20; Some 30];
     owner_ := Elsewhere |}.

End ThreadPool_h.

(** * Facts *)

Lemma bind_Done {A B : Type} (m : outcome A) (k : A -> outcome B) (b : B) :
  m ≫= k = Done b <-> exists a, m = Done a /\ k a = Done b.
Proof.
  destruct m as [a| |]; simpl; split.
  - intros Hk. exists a. split; [reflexivity | exact Hk].
  - intros (a' & Ha & Hk). injection Ha as ->. exact Hk.
  - discriminate.
  - intros (a' & Ha & _). discriminate.
  - discriminate.
  - intros (a' & Ha & _). discriminate.
Qed.

Lemma bind_Done_l {A B : Type} (a : A) (k : A -> outcome B) :
  Done a ≫= k = k a.
Proof. reflexivity. Qed.

(** Splits a hypothesis [m ≫= k = Done b] into its two halves. *)

Ltac bind_inv H :=
  let x := fresh "x" in
  let Hx := fresh "Hx" in
  apply bind_Done in H; destruct H as (x & Hx & H).

Lemma wrap_small (z : Z) : 0 <= z < 2 ^ 64 -> wrap z = z.
Proof. intros Hz. unfold wrap. apply Z.mod_small. exact Hz. Qed.


Module LinkedFacts.

Import Linked.

(** ** Pointers into the arena *)

Lemma deref_lookup (a : Arena) (i : nat) (nd : Node) :
  a !! i = Some nd -> deref a (Some i) = Done nd.
Proof. intros Hi. unfold deref. rewrite Hi. reflexivity. Qed.

Lemma deref_Done (a : Arena) (p : ptr) (nd : Node) :
  deref a p = Done nd <-> exists i, p = Some i /\ a !! i = Some nd.
Proof.
  split.
  - destruct p as [i|]; simpl; [| discriminate].
    destruct (a !! i) as [nd'|] eqn:Hi; [| discriminate].
    intros [= ->]. exists i. split; [reflexivity | exact Hi].
  - intros (i & -> & Hi). apply deref_lookup. exact Hi.
Qed.

Lemma set_idle_twice (nd : Node) (b : bool) :
  lock_ nd = b -> set_idle (set_idle nd (negb b)) b = nd.
Proof. destruct nd as [e n l m]. simpl. intros ->. reflexivity. Qed.

Lemma Insert_unfold (fuel : nat) (s : OptimisticLinkedSet) (element : Z) :
  Insert (S fuel) s element =
    (search_result ← Locate (S fuel) s element;
     a1 ← Edge_Lock (allocator_ s) search_result;
     ok ← Validate a1 search_result;
     if negb ok then
       a2 ← Edge_Unlock a1 search_result;
       Insert fuel (with_arena s a2) element
     else
       c ← deref a1 (curr_ search_result);
       if element_ c =? element then
         a2 ← Edge_Unlock a1 search_result;
         Done (false, with_arena s a2)
       else
         let n := fetch_add (elements_ s) in
         let '(a2, new_node) := New a1 element (curr_ search_result) in
         p ← deref a2 (pred_ search_result);
         let a3 := store a2 (pred_ search_result) (set_next p new_node) in
         a4 ← Edge_Unlock a3 search_result;
         Done (true, {| allocator_ := a4; head_ := head_ s; elements_ := n |})).
Proof. reflexivity. Qed.

Lemma Remove_unfold (fuel : nat) (s : OptimisticLinkedSet) (element : Z) :
  Remove (S fuel) s element =
    (search_result ← Locate (S fuel) s element;
     a1 ← Edge_Lock (allocator_ s) search_result;
     ok ← Validate a1 search_result;
     if negb ok then
       a2 ← Edge_Unlock a1 search_result;
       Remove fuel (with_arena s a2) element
     else
       c ← deref a1 (curr_ search_result);
       if negb (element_ c =? element) then
         a2 ← Edge_Unlock a1 search_result;
         Done (false, with_arena s a2)
       else
         let n := fetch_sub (elements_ s) in
         c' ← deref a1 (curr_ search_result);
         p ← deref a1 (pred_ search_result);
         let a2 := store a1 (pred_ search_result) (set_next p (next_ c')) in
         a3 ← Edge_Unlock a2 search_result;
         Done (true, {| allocator_ := a3; head_ := head_ s; elements_ := n |})).
Proof. reflexivity. Qed.

(** ** One round on a sound edge

    What [Insert] and [Remove] do once [Locate] has returned an edge whose
    two nodes are distinct, idle, unmarked and adjacent. *)

Section On_edge.

Variables (s : OptimisticLinkedSet) (p c : nat) (p0 c0 : Node).

Hypothesis Hp : allocator_ s !! p = Some p0.
Hypothesis Hc : allocator_ s !! c = Some c0.
Hypothesis Hpc : p <> c.
Hypothesis Hp_idle : lock_ p0 = true.
Hypothesis Hc_idle : lock_ c0 = true.
Hypothesis Hp_unmarked : marked_ p0 = false.
Hypothesis Hc_unmarked : marked_ c0 = false.
Hypothesis Hnext : next_ p0 = Some c.

Let e : Edge := {| pred_ := Some p; curr_ := Some c |}.

Let locked : Arena :=
  <[c := set_idle c0 false]> (<[p := set_idle p0 false]> (allocator_ s)).

Lemma p_lt : (p < length (allocator_ s))%nat.
Proof. eapply lookup_lt_Some. exact Hp. Qed.

Lemma c_lt : (c < length (allocator_ s))%nat.
Proof. eapply lookup_lt_Some. exact Hc. Qed.

Lemma Edge_Lock_on_edge : Edge_Lock (allocator_ s) e = Done locked.
Proof.
  unfold Edge_Lock, SpinLock_Lock, e, locked. simpl.
  rewrite Hp. simpl. rewrite Hp_idle. simpl.
  rewrite list_lookup_insert_ne by exact Hpc. rewrite Hc. simpl.
  rewrite Hc_idle. reflexivity.
Qed.

Lemma locked_p : locked !! p = Some (set_idle p0 false).
Proof.
  unfold locked. rewrite list_lookup_insert_ne by (intros ->; apply Hpc; reflexivity).
  apply list_lookup_insert_eq. apply p_lt.
Qed.

Lemma locked_c : locked !! c = Some (set_idle c0 false).
Proof.
  unfold locked. apply list_lookup_insert_eq. rewrite length_insert. apply c_lt.
Qed.

Lemma Validate_on_edge : Validate locked e = Done true.
Proof.
  unfold Validate, e. simpl. rewrite locked_p. simpl.
  rewrite Hp_unmarked. rewrite locked_c. simpl. rewrite Hc_unmarked.
  rewrite Hnext. rewrite bool_decide_eq_true_2 by reflexivity. reflexivity.
Qed.

(** Releasing the two locks of an arena that differs from [locked] at
    most at [p], where the node is [pn] with the lock held. *)

Lemma Edge_Unlock_on_edge (a : Arena) (pn : Node) :
  a !! p = Some pn -> a !! c = Some (set_idle c0 false) ->
  Edge_Unlock a e = Done (<[p := set_idle pn true]> (<[c := c0]> a)).
Proof.
  intros Hap Hac. unfold Edge_Unlock, SpinLock_Unlock, e. simpl.
  rewrite Hac. simpl.
  rewrite list_lookup_insert_ne by (intros ->; apply Hpc; reflexivity).
  rewrite Hap. simpl.
  replace (set_idle (set_idle c0 false) true) with c0; [reflexivity |].
  symmetry. apply (set_idle_twice c0 true). exact Hc_idle.
Qed.

Lemma release_c : <[c := c0]> locked = <[p := set_idle p0 false]> (allocator_ s).
Proof.
  unfold locked. rewrite list_insert_insert_eq.
  rewrite (list_insert_insert_ne _ c p) by (intros ->; apply Hpc; reflexivity).
  rewrite (list_insert_id _ c c0) by exact Hc. reflexivity.
Qed.

Lemma unlock_locked :
  <[p := set_idle (set_idle p0 false) true]> (<[c := c0]> locked) = allocator_ s.
Proof.
  rewrite release_c, list_insert_insert_eq.
  change (set_idle (set_idle p0 false) true)
    with (set_idle (set_idle p0 (negb true)) true).
  rewrite (set_idle_twice p0 true) by exact Hp_idle.
  apply list_insert_id. exact Hp.
Qed.

Lemma with_arena_id : with_arena s (allocator_ s) = s.
Proof. destruct s. reflexivity. Qed.

Lemma Insert_on_edge (fuel : nat) (v : Z) :
  Locate (S fuel) s v = Done e ->
  Insert (S fuel) s v =
    Done (if element_ c0 =? v then (false, s)
          else (true,
                {| allocator_ :=
                     <[p := set_next p0 (Some (length (allocator_ s)))]>
                       (allocator_ s ++ [Node_new v (Some c)]);
                   head_ := head_ s;
                   elements_ := fetch_add (elements_ s) |})).
Proof.
  intros HL. rewrite Insert_unfold, HL, bind_Done_l.
  rewrite Edge_Lock_on_edge, bind_Done_l, Validate_on_edge, bind_Done_l.
  cbn [negb]. replace (curr_ e) with (Some c) by reflexivity.
  rewrite (deref_lookup _ _ _ locked_c), bind_Done_l.
  cbn [element_ set_idle].
  destruct (element_ c0 =? v).
  - rewrite (Edge_Unlock_on_edge locked _ locked_p locked_c), bind_Done_l.
    rewrite unlock_locked, with_arena_id. reflexivity.
  - cbn [New]. replace (pred_ e) with (Some p) by reflexivity.
    assert (Hlen : length locked = length (allocator_ s)).
    { unfold locked. rewrite !length_insert. reflexivity. }
    rewrite (deref_lookup _ p (set_idle p0 false)), bind_Done_l
      by (apply lookup_app_l_Some, locked_p).
    cbn [store]. rewrite Hlen.
    rewrite (Edge_Unlock_on_edge _ (set_next (set_idle p0 false)
                                      (Some (length (allocator_ s))))).
    + rewrite bind_Done_l. do 2 f_equal. f_equal.
      rewrite (list_insert_insert_ne _ c p) by (intros ->; apply Hpc; reflexivity).
      rewrite list_insert_insert_eq.
      rewrite (insert_app_l locked) by (rewrite Hlen; apply c_lt).
      rewrite release_c.
      rewrite <- insert_app_l by apply p_lt.
      rewrite list_insert_insert_eq. f_equal.
      destruct p0 as [pe pn pl pm]. simpl in Hp_idle. subst pl. reflexivity.
    + apply list_lookup_insert_eq. rewrite length_app, Hlen.
      pose proof p_lt. lia.
    + rewrite list_lookup_insert_ne by exact Hpc.
      apply lookup_app_l_Some, locked_c.
Qed.

Lemma Remove_on_edge (fuel : nat) (v : Z) :
  Locate (S fuel) s v = Done e ->
  Remove (S fuel) s v =
    Done (if element_ c0 =? v
          then (true,
                {| allocator_ := <[p := set_next p0 (next_ c0)]> (allocator_ s);
                   head_ := head_ s;
                   elements_ := fetch_sub (elements_ s) |})
          else (false, s)).
Proof.
  intros HL. rewrite Remove_unfold, HL, bind_Done_l.
  rewrite Edge_Lock_on_edge, bind_Done_l, Validate_on_edge, bind_Done_l.
  cbn [negb]. replace (curr_ e) with (Some c) by reflexivity.
  rewrite (deref_lookup _ _ _ locked_c), !bind_Done_l.
  cbn [element_ set_idle].
  destruct (element_ c0 =? v); cbn [negb].
  - replace (pred_ e) with (Some p) by reflexivity.
    rewrite (deref_lookup _ _ _ locked_p), bind_Done_l. cbn [store next_ set_idle].
    rewrite (Edge_Unlock_on_edge _ (set_next (set_idle p0 false) (next_ c0))).
    + rewrite bind_Done_l. do 2 f_equal. f_equal.
      rewrite (list_insert_insert_ne _ c p) by (intros ->; apply Hpc; reflexivity).
      rewrite list_insert_insert_eq, release_c, list_insert_insert_eq. f_equal.
      destruct p0 as [pe pn pl pm]. simpl in Hp_idle. subst pl. reflexivity.
    + apply list_lookup_insert_eq. unfold locked. rewrite !length_insert.
      apply p_lt.
    + rewrite list_lookup_insert_ne by exact Hpc. apply locked_c.
  - rewrite (Edge_Unlock_on_edge locked _ locked_p locked_c), bind_Done_l.
    rewrite unlock_locked, with_arena_id. reflexivity.
Qed.

End On_edge.

(** ** List segments *)

Lemma lseg_ext (a a' : Arena) (l : list (nat * Z)) (p q : ptr) :
  (forall i, i ∈ l.*1 -> a' !! i = a !! i) ->
  lseg a p l q -> lseg a' p l q.
Proof.
  revert p. induction l as [|[i v] l IH]; intros p Hsame; simpl; [tauto |].
  intros (-> & nd & Hi & Hv & Hl & Hm & Hrest).
  split; [reflexivity |]. exists nd. repeat split; try assumption.
  - rewrite Hsame; [exact Hi |]. simpl. apply elem_of_cons. left. reflexivity.
  - apply IH; [| exact Hrest]. intros j Hj. apply Hsame. simpl.
    apply elem_of_cons. right. exact Hj.
Qed.

Lemma lseg_app (a : Arena) (l1 l2 : list (nat * Z)) (p q : ptr) :
  lseg a p (l1 ++ l2) q <-> exists m, lseg a p l1 m /\ lseg a m l2 q.
Proof.
  revert p. induction l1 as [|[i v] l1 IH]; intros p; simpl.
  - split.
    + intros Hl. exists p. split; [reflexivity | exact Hl].
    + intros (m & -> & Hl). exact Hl.
  - split.
    + intros (-> & nd & Hi & Hv & Hl & Hm & Hrest).
      apply IH in Hrest as (m & H1 & H2). exists m. split; [| exact H2].
      split; [reflexivity |]. exists nd. repeat split; assumption.
    + intros (m & (-> & nd & Hi & Hv & Hl & Hm & H1) & H2).
      split; [reflexivity |]. exists nd. repeat split; try assumption.
      apply IH. exists m. split; assumption.
Qed.

Lemma lseg_lt (a : Arena) (l : list (nat * Z)) (p q : ptr) (i : nat) :
  lseg a p l q -> i ∈ l.*1 -> (i < length a)%nat.
Proof.
  revert p. induction l as [|[j v] l IH]; intros p; simpl.
  - intros _ Hi. apply elem_of_nil in Hi. destruct Hi.
  - intros (-> & nd & Hj & _ & _ & _ & Hrest) Hi.
    apply elem_of_cons in Hi as [-> | Hi].
    + eapply lookup_lt_Some. exact Hj.
    + eapply IH; eassumption.
Qed.

(** A full traversal of a segment that ends in [nullptr] reads its values. *)

Lemma lseg_values (a : Arena) (l : list (nat * Z)) (p : ptr) (fuel : nat) :
  lseg a p l None -> (length l <= fuel)%nat ->
  values_from fuel a p = Done l.*2.
Proof.
  revert p fuel. induction l as [|[i v] l IH]; intros p fuel; simpl.
  - intros -> _. destruct fuel; reflexivity.
  - intros (-> & nd & Hi & Hv & _ & _ & Hrest) Hfuel.
    destruct fuel as [|fuel]; [lia |]. simpl. rewrite Hi. simpl.
    rewrite (IH _ fuel Hrest) by lia. simpl. rewrite Hv. reflexivity.
Qed.

(** ** Locate *)

Lemma split_first_ge (v : Z) (l : list (nat * Z)) :
  (exists x, x ∈ l /\ v <= x.2) ->
  exists l1 c vc l2,
    l = l1 ++ (c, vc) :: l2 /\ Forall (fun x => x.2 < v) l1 /\ v <= vc.
Proof.
  induction l as [|[i w] l IH]; intros (x & Hx & Hge).
  - apply elem_of_nil in Hx. destruct Hx.
  - destruct (Z_lt_le_dec w v) as [Hlt | Hle].
    + destruct IH as (l1 & c & vc & l2 & -> & Hall & Hvc).
      { apply elem_of_cons in Hx as [-> | Hx]; [simpl in Hge; lia |].
        exists x. split; assumption. }
      exists ((i, w) :: l1), c, vc, l2. repeat split; [| exact Hvc].
      constructor; [exact Hlt | exact Hall].
    + exists [], i, w, l. repeat split; [constructor | exact Hle].
Qed.

Lemma Locate_loop_spec (a : Arena) (v : Z) (l1 l2 : list (nat * Z)) (c : nat) (vc : Z)
    (q : ptr) :
  Forall (fun x => x.2 < v) l1 -> v <= vc ->
  forall (p : nat) (vp : Z) (curr : ptr) (fuel : nat),
    lseg a curr (l1 ++ (c, vc) :: l2) q ->
    (length l1 < fuel)%nat ->
    exists l0 p' vp',
      (p, vp) :: l1 = l0 ++ [(p', vp')] /\
      Locate_loop fuel a v (Some p) curr =
        Done {| pred_ := Some p'; curr_ := Some c |}.
Proof.
  intros Hall Hvc. induction Hall as [|[i vi] l1 Hi Hall IH];
    intros p vp curr fuel Hseg Hfuel;
    (destruct fuel as [|fuel]; [simpl in Hfuel; lia |]).
  - simpl in Hseg. destruct Hseg as (-> & nd & Hc & Hv & _).
    exists [], p, vp. split; [reflexivity |]. simpl. rewrite Hc. simpl.
    rewrite Hv. destruct (Z.ltb_spec vc v); [lia | reflexivity].
  - simpl in Hseg. destruct Hseg as (-> & nd & Hnd & Hv & _ & _ & Hrest).
    simpl in Hi, Hfuel.
    destruct (IH i vi (next_ nd) fuel Hrest) as (l0 & p' & vp' & Heq & HL); [lia |].
    exists ((p, vp) :: l0), p', vp'. split; [simpl; rewrite Heq; reflexivity |].
    simpl. rewrite Hnd. simpl. rewrite Hv.
    destruct (Z.ltb_spec vi v); [exact HL | lia].
Qed.

(** ** Rewiring the chain at a located edge

    The chain is [l0 ++ (p, vp) :: (c, vc) :: l2]; its prefix up to [p] is
    also [(h, Min) :: l1], the head sentinel and the nodes before the
    edge. *)

Section Located.

Context `{ET : ElementTraits}.

Variables (a : Arena) (h : nat) (l1 l0 l2 : list (nat * Z)).
Variables (p c : nat) (vp vc : Z) (p0 c0 : Node).

Hypothesis Hprefix : (h, Min) :: l1 = l0 ++ [(p, vp)].
Hypothesis Hnodup : NoDup (l0.*1 ++ p :: c :: l2.*1).
Hypothesis Hl0 : lseg a (Some h) l0 (Some p).
Hypothesis Hp : a !! p = Some p0.
Hypothesis Hpv : element_ p0 = vp.
Hypothesis Hp_idle : lock_ p0 = true.
Hypothesis Hp_unmarked : marked_ p0 = false.
Hypothesis Hc : a !! c = Some c0.
Hypothesis Hcv : element_ c0 = vc.
Hypothesis Hc_idle : lock_ c0 = true.
Hypothesis Hc_unmarked : marked_ c0 = false.
Hypothesis Hl2 : lseg a (next_ c0) l2 None.

Lemma located_ne : p <> c.
Proof.
  intros Heq. pose proof Hnodup as Hn. apply NoDup_app in Hn as (_ & _ & Hn).
  apply NoDup_cons in Hn as [Hn _]. apply Hn. apply elem_of_cons. left. exact Heq.
Qed.

Lemma located_l0 (i : nat) : i ∈ l0.*1 -> i <> p /\ (i < length a)%nat.
Proof.
  intros Hi. split.
  - intros ->. apply NoDup_app in Hnodup as (_ & Hn & _).
    apply (Hn p Hi). apply elem_of_cons. left. reflexivity.
  - exact (lseg_lt _ _ _ _ _ Hl0 Hi).
Qed.

Lemma located_l2 (i : nat) : i ∈ l2.*1 -> i <> p /\ (i < length a)%nat.
Proof.
  intros Hi. split.
  - intros ->. apply NoDup_app in Hnodup as (_ & _ & Hn).
    apply NoDup_cons in Hn as [Hn _]. apply Hn. apply elem_of_cons. right. exact Hi.
  - exact (lseg_lt _ _ _ _ _ Hl2 Hi).
Qed.

Lemma located_fresh : length a ∉ l0.*1 ++ p :: c :: l2.*1.
Proof.
  intros Hin. apply elem_of_app in Hin as [Hin | Hin].
  - apply located_l0 in Hin. lia.
  - apply elem_of_cons in Hin as [Hin | Hin].
    + apply lookup_lt_Some in Hp. lia.
    + apply elem_of_cons in Hin as [Hin | Hin].
      * apply lookup_lt_Some in Hc. lia.
      * apply located_l2 in Hin. lia.
Qed.

Lemma prefix_indices : h :: l1.*1 = l0.*1 ++ [p].
Proof.
  change (h :: l1.*1) with (((h, Min) :: l1).*1).
  rewrite Hprefix, fmap_app. reflexivity.
Qed.

(** [Insert]: the new node sits between [p] and [c]. *)

Lemma Insert_chain (v : Z) :
  let a' := <[p := set_next p0 (Some (length a))]> (a ++ [Node_new v (Some c)]) in
  let l' := l1 ++ (length a, v) :: (c, vc) :: l2 in
  lseg a' (Some h) ((h, Min) :: l') None /\ NoDup (h :: l'.*1).
Proof.
  intros a' l'.
  assert (Hother : forall i, i <> p -> (i < length a)%nat -> a' !! i = a !! i).
  { intros i Hip Hi. unfold a'.
    rewrite list_lookup_insert_ne by (intros ->; apply Hip; reflexivity).
    apply lookup_app_l. exact Hi. }
  assert (Hp' : a' !! p = Some (set_next p0 (Some (length a)))).
  { unfold a'. apply list_lookup_insert_eq. rewrite length_app.
    apply lookup_lt_Some in Hp. lia. }
  assert (Hn' : a' !! length a = Some (Node_new v (Some c))).
  { unfold a'. rewrite list_lookup_insert_ne
      by (apply lookup_lt_Some in Hp; lia).
    rewrite lookup_app_r by lia. rewrite Nat.sub_diag. reflexivity. }
  split.
  - change ((h, Min) :: l') with (((h, Min) :: l1) ++ (length a, v) :: (c, vc) :: l2).
    rewrite Hprefix, <- app_assoc. apply lseg_app. exists (Some p). split.
    + eapply lseg_ext; [| exact Hl0]. intros i Hi.
      apply located_l0 in Hi as [Hip Hi]. apply Hother; assumption.
    + simpl. split; [reflexivity |].
      exists (set_next p0 (Some (length a))).
      repeat split; [exact Hp' | exact Hpv | exact Hp_idle | exact Hp_unmarked |].
      exists (Node_new v (Some c)). repeat split; [exact Hn' |].
      exists c0. repeat split; try assumption.
      * rewrite Hother; [exact Hc | | eapply lookup_lt_Some; exact Hc].
        intros Heq. apply located_ne. symmetry. exact Heq.
      * eapply lseg_ext; [| exact Hl2]. intros i Hi.
        apply located_l2 in Hi as [Hip Hi]. apply Hother; assumption.
  - unfold l'. rewrite fmap_app, app_comm_cons, prefix_indices, <- app_assoc.
    simpl.
    assert (Hperm : l0.*1 ++ p :: length a :: c :: l2.*1
                    ≡ₚ length a :: (l0.*1 ++ p :: c :: l2.*1)).
    { rewrite (Permutation_middle (l0.*1) (p :: c :: l2.*1) (length a)).
      apply Permutation_app_head. apply perm_swap. }
    rewrite Hperm. apply NoDup_cons. split; [apply located_fresh | exact Hnodup].
Qed.

(** [Remove]: [p] now points past [c]. *)

Lemma Remove_chain :
  let a' := <[p := set_next p0 (next_ c0)]> a in
  lseg a' (Some h) ((h, Min) :: l1 ++ l2) None /\ NoDup (h :: (l1 ++ l2).*1).
Proof.
  intros a'.
  assert (Hother : forall i, i <> p -> a' !! i = a !! i).
  { intros i Hip. unfold a'.
    apply list_lookup_insert_ne. intros ->. apply Hip. reflexivity. }
  assert (Hp' : a' !! p = Some (set_next p0 (next_ c0))).
  { unfold a'. apply list_lookup_insert_eq. eapply lookup_lt_Some. exact Hp. }
  split.
  - change ((h, Min) :: l1 ++ l2) with (((h, Min) :: l1) ++ l2).
    rewrite Hprefix, <- app_assoc. apply lseg_app. exists (Some p). split.
    + eapply lseg_ext; [| exact Hl0]. intros i Hi.
      apply located_l0 in Hi as [Hip Hi]. apply Hother; assumption.
    + simpl. split; [reflexivity |].
      exists (set_next p0 (next_ c0)).
      repeat split; [exact Hp' | exact Hpv | exact Hp_idle | exact Hp_unmarked |].
      simpl. eapply lseg_ext; [| exact Hl2]. intros i Hi.
      apply located_l2 in Hi as [Hip Hi]. apply Hother; assumption.
  - rewrite fmap_app, app_comm_cons, prefix_indices, <- app_assoc. simpl.
    assert (Hperm : l0.*1 ++ p :: c :: l2.*1 ≡ₚ c :: (l0.*1 ++ p :: l2.*1)).
    { rewrite (Permutation_middle (l0.*1) (p :: l2.*1) c).
      apply Permutation_app_head. apply perm_swap. }
    rewrite Hperm in Hnodup. apply NoDup_cons in Hnodup as [_ Hn]. exact Hn.
Qed.

End Located.

(** ** Values of a sorted chain *)

Lemma snoc_split (xs zs vs : list Z) (y m : Z) :
  xs ++ y :: zs = vs ++ [m] ->
  exists ys, y :: zs = ys ++ [m] /\ vs = xs ++ ys.
Proof.
  revert vs. induction xs as [|x xs IH]; intros vs Heq; simpl in Heq.
  - exists vs. split; [exact Heq | reflexivity].
  - destruct vs as [|w vs]; simpl in Heq.
    + injection Heq as _ Heq. destruct xs; discriminate.
    + injection Heq as -> Heq. destruct (IH vs Heq) as (ys & Hy & ->).
      exists ys. split; [exact Hy | reflexivity].
Qed.

Lemma sorted_insert_mid (xs zs : list Z) (y v : Z) :
  StronglySorted Z.lt (xs ++ y :: zs) -> Forall (fun x => x < v) xs -> v < y ->
  StronglySorted Z.lt (xs ++ v :: y :: zs).
Proof.
  intros Hs Hxs Hvy. apply StronglySorted_app in Hs as (Hcross & Hs1 & Hs2).
  apply StronglySorted_app. repeat split; [| exact Hs1 |].
  - intros x1 x2 Hx1 Hx2. apply elem_of_cons in Hx2 as [-> | Hx2].
    + rewrite Forall_forall in Hxs. apply Hxs. exact Hx1.
    + apply Hcross; assumption.
  - apply StronglySorted_cons. split; [| exact Hs2].
    apply StronglySorted_cons in Hs2 as [Hy _].
    constructor; [exact Hvy |].
    eapply Forall_impl; [exact Hy |]. simpl. intros z Hz. lia.
Qed.

Lemma sorted_remove_mid (xs zs : list Z) (y : Z) :
  StronglySorted Z.lt (xs ++ y :: zs) -> StronglySorted Z.lt (xs ++ zs).
Proof.
  intros Hs. apply StronglySorted_app in Hs as (Hcross & Hs1 & Hs2).
  apply StronglySorted_cons in Hs2 as [_ Hs2].
  apply StronglySorted_app. repeat split; [| exact Hs1 | exact Hs2].
  intros x1 x2 Hx1 Hx2. apply Hcross; [exact Hx1 |].
  apply elem_of_cons. right. exact Hx2.
Qed.

(** In [xs ++ y :: zs] sorted, [y] occurs neither before nor after. *)

Lemma sorted_mid_unique (xs zs : list Z) (y : Z) :
  StronglySorted Z.lt (xs ++ y :: zs) -> (y ∉ xs) /\ (y ∉ zs).
Proof.
  intros Hs. apply StronglySorted_app in Hs as (Hcross & _ & Hs2).
  apply StronglySorted_cons in Hs2 as [Hy _]. rewrite Forall_forall in Hy.
  split; intros Hin.
  - assert (Hlt : y < y); [| lia].
    apply Hcross; [exact Hin |]. apply elem_of_cons. left. reflexivity.
  - specialize (Hy y Hin). lia.
Qed.

(** ** Locate in a state described by [Rep] *)

Lemma Rep_Locate `{ET : ElementTraits} (s : OptimisticLinkedSet) (vs : list Z)
    (v : Z) (fuel : nat) :
  Rep s vs -> v <= Max -> (length vs < fuel)%nat ->
  exists h l1 l0 l2 p c vp vc p0 c0,
    head_ s = Some h /\
    (h, Min) :: l1 = l0 ++ [(p, vp)] /\
    NoDup (l0.*1 ++ p :: c :: l2.*1) /\
    lseg (allocator_ s) (Some h) l0 (Some p) /\
    (allocator_ s !! p = Some p0 /\ element_ p0 = vp /\ lock_ p0 = true /\
     marked_ p0 = false /\ next_ p0 = Some c) /\
    (allocator_ s !! c = Some c0 /\ element_ c0 = vc /\ lock_ c0 = true /\
     marked_ c0 = false) /\
    lseg (allocator_ s) (next_ c0) l2 None /\
    l1.*2 ++ vc :: l2.*2 = vs ++ [Max] /\
    Forall (fun x => x < v) l1.*2 /\ v <= vc /\
    Locate fuel s v = Done {| pred_ := Some p; curr_ := Some c |}.
Proof.
  intros (h & l & Hhead & Hseg & Hnd & Hvals & Hsorted & Hmin) Hv Hfuel.
  destruct Hseg as (_ & h0 & Hh0 & Hh0v & Hh0l & Hh0m & Hrest).
  destruct (split_first_ge v l) as (l1 & c & vc & l2 & -> & Hall & Hvc).
  { assert (Hin : Max ∈ l.*2).
    { rewrite Hvals. apply elem_of_app. right. apply list_elem_of_singleton.
      reflexivity. }
    apply list_elem_of_fmap in Hin as (x & Hx & Hin).
    exists x. split; [exact Hin | rewrite <- Hx; exact Hv]. }
  assert (Hlen : (length l1 < fuel)%nat).
  { apply (f_equal length) in Hvals.
    rewrite length_fmap, !length_app in Hvals. simpl in Hvals. lia. }
  destruct (Locate_loop_spec (allocator_ s) v l1 l2 c vc None Hall Hvc
              h Min (next_ h0) fuel Hrest Hlen)
    as (l0 & p & vp & Hprefix & HL).
  assert (Hfull : lseg (allocator_ s) (Some h)
                    (l0 ++ [(p, vp)] ++ (c, vc) :: l2) None).
  { rewrite app_assoc, <- Hprefix. simpl. split; [reflexivity |].
    exists h0. repeat split; assumption. }
  apply lseg_app in Hfull as (m & Hl0 & Hfull).
  simpl in Hfull.
  destruct Hfull as (-> & p0 & Hp & Hpv & Hpl & Hpm & Hpn & c0 & Hc & Hcv & Hcl & Hcm & Hl2).
  exists h, l1, l0, l2, p, c, vp, vc, p0, c0.
  repeat split; try assumption.
  - change (h :: (l1 ++ (c, vc) :: l2).*1)
      with (((h, Min) :: l1 ++ (c, vc) :: l2).*1) in Hnd.
    change ((h, Min) :: l1 ++ (c, vc) :: l2)
      with (((h, Min) :: l1) ++ (c, vc) :: l2) in Hnd.
    rewrite Hprefix, <- app_assoc, fmap_app in Hnd. exact Hnd.
  - rewrite <- Hvals, fmap_app. reflexivity.
  - rewrite Forall_fmap. exact Hall.
  - unfold Locate. rewrite Hhead, (deref_lookup _ _ _ Hh0), bind_Done_l. exact HL.
Qed.

(** Everything from [y] on in a sorted list is above a value below [y]. *)

Lemma sorted_tail_above (xs zs : list Z) (y v x : Z) :
  StronglySorted Z.lt (xs ++ y :: zs) -> v < y -> x ∈ y :: zs -> v < x.
Proof.
  intros Hs Hvy Hx. apply StronglySorted_app_1_r in Hs.
  apply StronglySorted_cons in Hs as [Hy _]. rewrite Forall_forall in Hy.
  apply elem_of_cons in Hx as [-> | Hx]; [exact Hvy |].
  specialize (Hy x Hx). lia.
Qed.

(** ** Insert and Remove keep the description *)

Lemma Insert_Rep `{ET : ElementTraits} (s : OptimisticLinkedSet) (vs : list Z)
    (v : Z) (fuel : nat) :
  Rep s vs -> representable v -> (length vs < fuel)%nat ->
  exists b s' vs',
    Insert fuel s v = Done (b, s') /\
    Rep s' vs' /\
    (forall x, x ∈ vs' <-> x ∈ vs \/ (x = v /\ v <> Max)) /\
    (b = true <-> (v ∉ vs) /\ v <> Max) /\
    (b = false -> s' = s) /\
    Size s' = if b then fetch_add (Size s) else Size s.
Proof.
  intros HRep [Hlo Hhi] Hfuel.
  destruct (Rep_Locate s vs v fuel HRep Hhi Hfuel)
    as (h & l1 & l0 & l2 & p & c & vp & vc & p0 & c0 & Hhead & Hprefix & Hnd & Hl0 &
        (Hp & Hpv & Hpl & Hpm & Hpn) & (Hc & Hcv & Hcl & Hcm) & Hl2 & Hvals &
        Hbelow & Hvc & HL).
  pose proof HRep as (_ & _ & _ & _ & _ & _ & Hsorted & Hmin).
  rewrite <- Hvals in Hsorted.
  assert (Hpc : p <> c) by (eapply located_ne; exact Hnd).
  destruct fuel as [|fuel]; [lia |].
  rewrite (Insert_on_edge s p c p0 c0 Hp Hc Hpc Hpl Hcl Hpm Hcm Hpn fuel v HL).
  rewrite Hcv. destruct (Z.eqb_spec vc v) as [-> | Hne].
  - assert (Hin : v ∈ vs \/ v = Max).
    { assert (Hin : v ∈ vs ++ [Max]).
      { rewrite <- Hvals. apply elem_of_app. right. apply elem_of_cons. left.
        reflexivity. }
      apply elem_of_app in Hin as [Hin | Hin]; [left; exact Hin | right].
      apply list_elem_of_singleton in Hin. exact Hin. }
    exists false, s, vs. repeat split; try assumption; try discriminate.
    + intros Hx. left. exact Hx.
    + intros [Hx | [-> Hx]]; [exact Hx |]. destruct Hin; [assumption | contradiction].
    + intros [Hnot Hmax]. destruct Hin; contradiction.
  - assert (Hlt : v < vc) by lia.
    assert (Habove : forall x, x ∈ vc :: l2.*2 -> v < x).
    { intros x Hx. eapply sorted_tail_above; eassumption. }
    destruct (snoc_split _ _ _ _ _ Hvals) as (ys & Hys & ->).
    assert (Hnot : (v ∉ l1.*2 ++ ys) /\ v <> Max).
    { split.
      - intros Hin. apply elem_of_app in Hin as [Hin | Hin].
        + rewrite Forall_forall in Hbelow. specialize (Hbelow v Hin). lia.
        + assert (v < v); [| lia]. apply Habove. rewrite Hys.
          apply elem_of_app. left. exact Hin.
      - intros ->. assert (Max < Max); [| lia]. apply Habove. rewrite Hys.
        apply elem_of_app. right. apply list_elem_of_singleton. reflexivity. }
    eexists true, _, (l1.*2 ++ v :: ys). split; [reflexivity |].
    repeat split; try (destruct Hnot; assumption).
    + destruct (Insert_chain (allocator_ s) h l1 l0 l2 p c vp vc p0 c0
                  Hprefix Hnd Hl0 Hp Hpv Hpl Hpm Hc Hcv Hcl Hcm Hl2 v)
        as [Hseg' Hnd'].
      exists h, (l1 ++ (length (allocator_ s), v) :: (c, vc) :: l2).
      simpl. repeat split; try assumption.
      * destruct Hseg' as [_ Hseg']. exact Hseg'.
      * rewrite fmap_app, !fmap_cons. cbn [snd].
        rewrite Hys, <- app_assoc. reflexivity.
      * rewrite <- app_assoc, <- app_comm_cons, <- Hys.
        apply sorted_insert_mid; assumption.
      * apply Forall_app in Hmin as [Hm1 Hm2]. apply Forall_app. split; [exact Hm1 |].
        constructor; [exact Hlo | exact Hm2].
    + intros Hx. apply elem_of_app in Hx as [Hx | Hx].
      * left. apply elem_of_app. left. exact Hx.
      * apply elem_of_cons in Hx as [-> | Hx].
        -- right. split; [reflexivity | destruct Hnot; assumption].
        -- left. apply elem_of_app. right. exact Hx.
    + intros [Hx | [-> _]].
      * apply elem_of_app in Hx as [Hx | Hx]; apply elem_of_app; [left; exact Hx |].
        right. apply elem_of_cons. right. exact Hx.
      * apply elem_of_app. right. apply elem_of_cons. left. reflexivity.
    + discriminate.
Qed.

Lemma Remove_Rep `{ET : ElementTraits} (s : OptimisticLinkedSet) (vs : list Z)
    (v : Z) (fuel : nat) :
  Rep s vs -> representable v -> v <> Max -> (length vs < fuel)%nat ->
  exists b s' vs',
    Remove fuel s v = Done (b, s') /\
    Rep s' vs' /\
    (forall x, x ∈ vs' <-> x ∈ vs /\ x <> v) /\
    (b = true <-> v ∈ vs) /\
    (b = false -> s' = s) /\
    Size s' = if b then fetch_sub (Size s) else Size s.
Proof.
  intros HRep [Hlo Hhi] Hmax Hfuel.
  destruct (Rep_Locate s vs v fuel HRep Hhi Hfuel)
    as (h & l1 & l0 & l2 & p & c & vp & vc & p0 & c0 & Hhead & Hprefix & Hnd & Hl0 &
        (Hp & Hpv & Hpl & Hpm & Hpn) & (Hc & Hcv & Hcl & Hcm) & Hl2 & Hvals &
        Hbelow & Hvc & HL).
  pose proof HRep as (_ & _ & _ & _ & _ & _ & Hsorted & Hmin).
  rewrite <- Hvals in Hsorted.
  assert (Hpc : p <> c) by (eapply located_ne; exact Hnd).
  destruct fuel as [|fuel]; [lia |].
  rewrite (Remove_on_edge s p c p0 c0 Hp Hc Hpc Hpl Hcl Hpm Hcm Hpn fuel v HL).
  rewrite Hcv. destruct (Z.eqb_spec vc v) as [-> | Hne].
  - destruct (sorted_mid_unique _ _ _ Hsorted) as [Hv1 Hv2].
    destruct (snoc_split _ _ _ _ _ Hvals) as (ys & Hys & ->).
    destruct ys as [|y ys]; simpl in Hys.
    { injection Hys as Hys _. contradiction. }
    injection Hys as <- Hys.
    assert (Hv3 : v ∉ ys).
    { intros Hin. apply Hv2. rewrite Hys. apply elem_of_app. left. exact Hin. }
    eexists true, _, (l1.*2 ++ ys). split; [reflexivity |].
    split; [| split; [| split; [| split; [discriminate | reflexivity]]]].
    + destruct (Remove_chain (allocator_ s) h l1 l0 l2 p c vp p0 c0
                  Hprefix Hnd Hl0 Hp Hpv Hpl Hpm Hl2)
        as [Hseg' Hnd'].
      exists h, (l1 ++ l2).
      simpl. repeat split; try assumption.
      * destruct Hseg' as [_ Hseg']. exact Hseg'.
      * rewrite fmap_app, Hys, <- app_assoc. reflexivity.
      * rewrite <- app_assoc, <- Hys. eapply sorted_remove_mid. exact Hsorted.
      * apply Forall_app in Hmin as [Hm1 Hm2]. apply Forall_app. split; [exact Hm1 |].
        apply Forall_cons in Hm2 as [_ Hm2]. exact Hm2.
    + intros x. split.
      * intros Hx. split.
        -- apply elem_of_app in Hx as [Hx | Hx]; apply elem_of_app; [left; exact Hx |].
           right. apply elem_of_cons. right. exact Hx.
        -- intros ->. apply elem_of_app in Hx as [Hx | Hx]; contradiction.
      * intros [Hx Hxv]. apply elem_of_app in Hx as [Hx | Hx]; apply elem_of_app.
        -- left. exact Hx.
        -- right. apply elem_of_cons in Hx as [-> | Hx]; [contradiction | exact Hx].
    + split; [| reflexivity].
      intros _. apply elem_of_app. right. apply elem_of_cons. left. reflexivity.
  - assert (Hlt : v < vc) by lia.
    assert (Habove : forall x, x ∈ vc :: l2.*2 -> v < x).
    { intros x Hx. eapply sorted_tail_above; eassumption. }
    assert (Hnot : v ∉ vs).
    { intros Hin.
      assert (Hin' : v ∈ l1.*2 ++ vc :: l2.*2).
      { rewrite Hvals. apply elem_of_app. left. exact Hin. }
      apply elem_of_app in Hin' as [Hin' | Hin'].
      - rewrite Forall_forall in Hbelow. specialize (Hbelow v Hin'). lia.
      - specialize (Habove v Hin'). lia. }
    exists false, s, vs. repeat split; try assumption; try discriminate.
    + intros ->. contradiction.
    + intros [Hx _]. exact Hx.
    + intros Hin. contradiction.
Qed.

Lemma Contains_Rep `{ET : ElementTraits} (s : OptimisticLinkedSet) (vs : list Z)
    (v : Z) (fuel : nat) :
  Rep s vs -> representable v -> (length vs < fuel)%nat ->
  Contains fuel s v = Done (bool_decide (v ∈ vs \/ v = Max)).
Proof.
  intros HRep [Hlo Hhi] Hfuel.
  destruct (Rep_Locate s vs v fuel HRep Hhi Hfuel)
    as (h & l1 & l0 & l2 & p & c & vp & vc & p0 & c0 & Hhead & Hprefix & Hnd & Hl0 &
        (Hp & Hpv & Hpl & Hpm & Hpn) & (Hc & Hcv & Hcl & Hcm) & Hl2 & Hvals &
        Hbelow & Hvc & HL).
  pose proof HRep as (_ & _ & _ & _ & _ & _ & Hsorted & _).
  rewrite <- Hvals in Hsorted.
  unfold Contains. rewrite HL, bind_Done_l. cbn [curr_].
  rewrite (deref_lookup _ _ _ Hc), bind_Done_l, Hcm, Hcv. cbn [negb andb].
  f_equal. destruct (Z.eqb_spec vc v) as [-> | Hne]; symmetry.
  - apply bool_decide_eq_true_2.
    assert (Hin : v ∈ vs ++ [Max]).
    { rewrite <- Hvals. apply elem_of_app. right. apply elem_of_cons. left.
      reflexivity. }
    apply elem_of_app in Hin as [Hin | Hin]; [left; exact Hin | right].
    apply list_elem_of_singleton in Hin. exact Hin.
  - apply bool_decide_eq_false_2. intros Hin.
    assert (Hin' : v ∈ l1.*2 ++ vc :: l2.*2).
    { rewrite Hvals. apply elem_of_app. destruct Hin as [Hin | ->]; [left; exact Hin |].
      right. apply list_elem_of_singleton. reflexivity. }
    apply elem_of_app in Hin' as [Hin' | Hin'].
    + rewrite Forall_forall in Hbelow. specialize (Hbelow v Hin'). lia.
    + assert (v < v); [| lia].
      eapply sorted_tail_above; [exact Hsorted | lia | exact Hin'].
Qed.

Lemma Rep_NoDup `{ET : ElementTraits} (s : OptimisticLinkedSet) (vs : list Z) :
  Rep s vs -> NoDup vs.
Proof.
  intros (_ & _ & _ & _ & _ & _ & Hsorted & _).
  apply StronglySorted_app_1_l in Hsorted.
  induction Hsorted as [|x l _ IH Hall]; [apply NoDup_nil_2 |].
  apply NoDup_cons. split; [| exact IH].
  intros Hin. rewrite Forall_forall in Hall. specialize (Hall x Hin). lia.
Qed.

(** The constructor on an empty arena builds the empty set. *)

Lemma new_arena `{ET : ElementTraits} (a : Arena) :
  OptimisticLinkedSet_new a =
    Done {| allocator_ := a ++ [mkNode Min (Some (S (length a))) true false;
                                mkNode Max None true false];
            head_ := Some (length a);
            elements_ := 0 |}.
Proof.
  unfold OptimisticLinkedSet_new, CreateEmptyList. cbn [New allocator_ elements_].
  rewrite length_app. cbn [length]. rewrite Nat.add_1_r.
  assert (Hhead : (a ++ [Node_new Min None]) ++ [Node_new Max None]
                  = a ++ [Node_new Min None; Node_new Max None])
    by (rewrite <- app_assoc; reflexivity).
  rewrite Hhead. unfold deref.
  rewrite (list_lookup_middle a [Node_new Max None] (Node_new Min None) (length a))
    by reflexivity.
  rewrite bind_Done_l. cbn [store]. do 2 f_equal.
  rewrite insert_app_r_alt by lia. rewrite Nat.sub_diag. reflexivity.
Qed.

Lemma Rep_new `{ET : ElementTraits} (a : Arena) (s : OptimisticLinkedSet) :
  OptimisticLinkedSet_new a = Done s -> Rep s [].
Proof.
  rewrite new_arena. intros [= <-].
  exists (length a), [(S (length a), Max)]. cbn [head_ allocator_].
  split; [reflexivity |]. split; [| split; [| split; [reflexivity | split]]].
  - cbn [lseg]. split; [reflexivity |].
    exists (mkNode Min (Some (S (length a))) true false).
    split; [apply list_lookup_middle; reflexivity |].
    repeat split.
    exists (mkNode Max None true false).
    split; [| repeat split].
    rewrite lookup_app_r by lia.
    replace (S (length a) - length a)%nat with 1%nat by lia. reflexivity.
  - cbn [fmap list_fmap fst]. apply NoDup_cons. split.
    + intros Hin. apply list_elem_of_singleton in Hin. lia.
    + apply NoDup_singleton.
  - repeat constructor.
  - constructor.
Qed.

Lemma strictly_increasing_sorted (vs : list Z) :
  StronglySorted Z.lt vs -> strictly_increasing vs = true.
Proof.
  induction 1 as [|v vs Hs IH Hall]; [reflexivity |].
  destruct vs as [|w vs]; [reflexivity |].
  change (strictly_increasing (v :: w :: vs))
    with ((v <? w) && strictly_increasing (w :: vs)).
  rewrite IH. apply Forall_cons in Hall as [Hvw _].
  destruct (Z.ltb_spec v w); [reflexivity | lia].
Qed.

Lemma Rep_values `{ET : ElementTraits} (s : OptimisticLinkedSet) (vs : list Z)
    (fuel : nat) :
  Rep s vs -> (length vs + 2 <= fuel)%nat ->
  values fuel s = Done (Min :: vs ++ [Max]).
Proof.
  intros (h & l & Hhead & Hseg & _ & Hvals & _) Hfuel.
  unfold values. rewrite Hhead, (lseg_values _ _ _ _ Hseg).
  - rewrite fmap_cons, Hvals. reflexivity.
  - apply (f_equal length) in Hvals. rewrite length_fmap, length_app in Hvals.
    simpl in *. lia.
Qed.

(** ** The marked flag *)

Lemma unmarked_deref (a : Arena) (p : ptr) (nd : Node) :
  unmarked a -> deref a p = Done nd -> marked_ nd = false.
Proof.
  intros Hun Hd. apply deref_Done in Hd as (i & -> & Hi). exact (Hun i nd Hi).
Qed.

Lemma unmarked_store (a : Arena) (p : ptr) (nd : Node) :
  unmarked a -> marked_ nd = false -> unmarked (store a p nd).
Proof.
  intros Hun Hnd. destruct p as [i|]; [| exact Hun]. simpl.
  intros j nd' Hj. apply list_lookup_insert_Some in Hj as [(_ & <- & _) | (_ & Hj)].
  - exact Hnd.
  - exact (Hun j nd' Hj).
Qed.

Lemma unmarked_New (a : Arena) (element : Z) (next : ptr) :
  unmarked a -> unmarked (New a element next).1.
Proof.
  intros Hun i nd Hi. simpl in Hi.
  apply lookup_app_Some in Hi as [Hi | [_ Hi]]; [exact (Hun i nd Hi) |].
  apply list_lookup_singleton_Some in Hi as [_ <-]. reflexivity.
Qed.

Lemma unmarked_Lock (a a' : Arena) (p : ptr) :
  unmarked a -> SpinLock_Lock a p = Done a' -> unmarked a'.
Proof.
  intros Hun HL. unfold SpinLock_Lock in HL. bind_inv HL.
  destruct (lock_ x); [| discriminate]. injection HL as <-.
  apply unmarked_store; [exact Hun |]. exact (unmarked_deref _ _ _ Hun Hx).
Qed.

Lemma unmarked_Unlock (a a' : Arena) (p : ptr) :
  unmarked a -> SpinLock_Unlock a p = Done a' -> unmarked a'.
Proof.
  intros Hun HL. unfold SpinLock_Unlock in HL. bind_inv HL. injection HL as <-.
  apply unmarked_store; [exact Hun |]. exact (unmarked_deref _ _ _ Hun Hx).
Qed.

Lemma unmarked_Edge_Lock (a a' : Arena) (e : Edge) :
  unmarked a -> Edge_Lock a e = Done a' -> unmarked a'.
Proof.
  intros Hun HL. unfold Edge_Lock in HL. bind_inv HL.
  eapply unmarked_Lock; [| exact HL]. eapply unmarked_Lock; eassumption.
Qed.

Lemma unmarked_Edge_Unlock (a a' : Arena) (e : Edge) :
  unmarked a -> Edge_Unlock a e = Done a' -> unmarked a'.
Proof.
  intros Hun HL. unfold Edge_Unlock in HL. bind_inv HL.
  eapply unmarked_Unlock; [| exact HL]. eapply unmarked_Unlock; eassumption.
Qed.

Lemma unmarked_Insert (fuel : nat) (s s' : OptimisticLinkedSet) (v : Z) (b : bool) :
  unmarked (allocator_ s) -> Insert fuel s v = Done (b, s') ->
  unmarked (allocator_ s').
Proof.
  revert s. induction fuel as [|fuel IH]; intros s Hun HI; [discriminate |].
  rewrite Insert_unfold in HI.
  apply bind_Done in HI as (e & _ & HI).
  apply bind_Done in HI as (a1 & Hlock & HI).
  apply bind_Done in HI as (ok & _ & HI).
  pose proof (unmarked_Edge_Lock _ _ _ Hun Hlock) as Hun1.
  destruct ok; cbn [negb] in HI.
  - apply bind_Done in HI as (c & _ & HI).
    destruct (element_ c =? v).
    + apply bind_Done in HI as (a2 & Hunlock & HI). injection HI as _ <-.
      exact (unmarked_Edge_Unlock _ _ _ Hun1 Hunlock).
    + cbn [New] in HI.
      apply bind_Done in HI as (pn & Hpn & HI).
      apply bind_Done in HI as (a4 & Hunlock & HI). injection HI as _ <-.
      pose proof (unmarked_New a1 v (curr_ e) Hun1) as Hun2.
      refine (unmarked_Edge_Unlock _ _ _ _ Hunlock).
      apply unmarked_store; [exact Hun2 |].
      exact (unmarked_deref _ _ _ Hun2 Hpn).
  - apply bind_Done in HI as (a2 & Hunlock & HI).
    apply (IH (with_arena s a2)); [| exact HI].
    exact (unmarked_Edge_Unlock _ _ _ Hun1 Hunlock).
Qed.

Lemma unmarked_Remove (fuel : nat) (s s' : OptimisticLinkedSet) (v : Z) (b : bool) :
  unmarked (allocator_ s) -> Remove fuel s v = Done (b, s') ->
  unmarked (allocator_ s').
Proof.
  revert s. induction fuel as [|fuel IH]; intros s Hun HR; [discriminate |].
  rewrite Remove_unfold in HR.
  apply bind_Done in HR as (e & _ & HR).
  apply bind_Done in HR as (a1 & Hlock & HR).
  apply bind_Done in HR as (ok & _ & HR).
  pose proof (unmarked_Edge_Lock _ _ _ Hun Hlock) as Hun1.
  destruct ok; cbn [negb] in HR.
  - apply bind_Done in HR as (c & _ & HR).
    destruct (negb (element_ c =? v)).
    + apply bind_Done in HR as (a2 & Hunlock & HR). injection HR as _ <-.
      exact (unmarked_Edge_Unlock _ _ _ Hun1 Hunlock).
    + apply bind_Done in HR as (c' & _ & HR).
      apply bind_Done in HR as (pn & Hpn & HR).
      apply bind_Done in HR as (a3 & Hunlock & HR). injection HR as _ <-.
      refine (unmarked_Edge_Unlock _ _ _ _ Hunlock).
      apply unmarked_store; [exact Hun1 |].
      exact (unmarked_deref _ _ _ Hun1 Hpn).
  - apply bind_Done in HR as (a2 & Hunlock & HR).
    apply (IH (with_arena s a2)); [| exact HR].
    exact (unmarked_Edge_Unlock _ _ _ Hun1 Hunlock).
Qed.

Lemma unmarked_reachable `{ET : ElementTraits} (s : OptimisticLinkedSet) :
  reachable s -> unmarked (allocator_ s).
Proof.
  induction 1 as [a s Ha Hnew | s fuel v b s' _ IH _ HI | s fuel v b s' _ IH _ HR].
  - rewrite new_arena in Hnew. injection Hnew as <-. cbn [allocator_].
    intros i nd Hi. apply lookup_app_Some in Hi as [Hi | [_ Hi]].
    + exact (Ha i nd Hi).
    + destruct (i - length a)%nat as [|[|j]]; simpl in Hi.
      * injection Hi as <-. reflexivity.
      * injection Hi as <-. reflexivity.
      * discriminate.
  - exact (unmarked_Insert _ _ _ _ _ IH HI).
  - exact (unmarked_Remove _ _ _ _ _ IH HR).
Qed.

Lemma Validate_unmarked (a : Arena) (e : Edge) (p0 c0 : Node) :
  unmarked a -> deref a (pred_ e) = Done p0 -> deref a (curr_ e) = Done c0 ->
  Validate a e = Done (bool_decide (next_ p0 = curr_ e)).
Proof.
  intros Hun Hp Hc. unfold Validate. rewrite Hp, bind_Done_l.
  rewrite (unmarked_deref _ _ _ Hun Hp), Hc, bind_Done_l.
  rewrite (unmarked_deref _ _ _ Hun Hc). reflexivity.
Qed.

(** C9: no operation ever sets a [marked_] flag.  In every reachable state
    every node of the arena, linked or unlinked, is unmarked; [Validate],
    on the arena [Insert] and [Remove] hand it after locking the edge,
    returns exactly [pred.next == curr]; and [Contains] returns exactly
    whether the located node holds the value. *)
Theorem marked_never_set `{ET : ElementTraits} (s : OptimisticLinkedSet) :
  reachable s ->
  (forall i nd, allocator_ s !! i = Some nd -> marked_ nd = false) /\
  (forall e a p0 c0,
     Edge_Lock (allocator_ s) e = Done a ->
     deref a (pred_ e) = Done p0 -> deref a (curr_ e) = Done c0 ->
     Validate a e = Done (bool_decide (next_ p0 = curr_ e))) /\
  (forall fuel v e c0,
     Locate fuel s v = Done e ->
     deref (allocator_ s) (curr_ e) = Done c0 ->
     Contains fuel s v = Done (element_ c0 =? v)).
Proof.
  intros Hreach. pose proof (unmarked_reachable s Hreach) as Hun.
  split; [exact Hun | split].
  - intros e a p0 c0 Hlock Hp Hc.
    apply (Validate_unmarked a e p0 c0); [| exact Hp | exact Hc].
    exact (unmarked_Edge_Lock _ _ _ Hun Hlock).
  - intros fuel v e c0 HL Hc. unfold Contains.
    rewrite HL, bind_Done_l, Hc, bind_Done_l.
    rewrite (unmarked_deref _ _ _ Hun Hc). reflexivity.
Qed.

(** ** Sequences of calls that keep the tail sentinel *)

Lemma run_Rep `{ET : ElementTraits} (ops : list operation) (fuel : nat) :
  forall (s : OptimisticLinkedSet) (vs : list Z),
    Rep s vs -> Size s = Z.of_nat (length vs) ->
    Forall keeps_tail ops ->
    Z.of_nat (length vs + length ops) < 2 ^ 64 ->
    (length vs + length ops <= fuel)%nat ->
    exists (rs : list answer) (s' : OptimisticLinkedSet) (vs' : list Z),
      run fuel s ops = Done (rs, s') /\
      Rep s' vs' /\
      Size s' = Z.of_nat (length vs') /\
      Size s' = Size s + net_successes ops rs.
Proof.
  induction ops as [|o ops IH]; intros s vs HRep Hsize Hord Hfit Hfuel.
  - exists [], s, vs. split; [reflexivity |]. split; [exact HRep |].
    split; [exact Hsize | simpl; lia].
  - apply Forall_cons in Hord as [Ho Hord]. cbn [length] in Hfit, Hfuel.
    pose proof (Rep_NoDup s vs HRep) as Hnd.
    assert (Hstep : exists (r : answer) (s1 : OptimisticLinkedSet) (vs1 : list Z),
               step fuel s o = Done (r, s1) /\ Rep s1 vs1 /\
               Size s1 = Z.of_nat (length vs1) /\
               (length vs1 <= S (length vs))%nat /\
               forall rs, Size s1 + net_successes ops rs
                          = Size s + net_successes (o :: ops) (r :: rs)).
    { destruct o as [v | v | v |]; cbn [step keeps_tail] in *.
      - destruct (Insert_Rep s vs v fuel HRep Ho) as
          (b & s1 & vs1 & HI & HRep1 & Hmem & Hb & Hsame & Hsz); [lia |].
        exists (Bool b), s1, vs1. rewrite HI. split; [reflexivity |].
        split; [exact HRep1 |]. rewrite Hsz. cbn [net_successes].
        destruct b.
        + destruct Hb as [Hb _]. destruct (Hb eq_refl) as [Hnot Hmax].
          assert (Hperm : vs1 ≡ₚ v :: vs).
          { apply NoDup_Permutation.
            - exact (Rep_NoDup s1 vs1 HRep1).
            - apply NoDup_cons. split; assumption.
            - intros x. rewrite Hmem, elem_of_cons. split.
              + intros [Hx | [-> _]]; [right; exact Hx | left; reflexivity].
              + intros [-> | Hx]; [right; split; [reflexivity | exact Hmax]
                                  | left; exact Hx]. }
          apply Permutation_length in Hperm. simpl in Hperm.
          unfold fetch_add. rewrite wrap_small by lia.
          split; [lia |]. split; [lia |]. intros rs. lia.
        + rewrite (Hsame eq_refl) in *. clear Hsame.
          assert (Hperm : vs1 ≡ₚ vs).
          { apply NoDup_Permutation; [exact (Rep_NoDup s vs1 HRep1) | exact Hnd |].
            intros x. rewrite Hmem. split; [| intros Hx; left; exact Hx].
            intros [Hx | [-> Hmax]]; [exact Hx |].
            destruct (decide (v ∈ vs)) as [Hin | Hnot]; [exact Hin |].
            destruct Hb as [_ Hb]. assert (false = true); [| discriminate].
            apply Hb. split; assumption. }
          apply Permutation_length in Hperm.
          split; [lia |]. split; [lia |]. intros rs. reflexivity.
      - destruct (Remove_Rep s vs v fuel HRep) as
          (b & s1 & vs1 & HR & HRep1 & Hmem & Hb & Hsame & Hsz);
          [split; lia | lia | lia |].
        exists (Bool b), s1, vs1. rewrite HR. split; [reflexivity |].
        split; [exact HRep1 |]. rewrite Hsz. cbn [net_successes].
        destruct b.
        + destruct Hb as [Hb _]. specialize (Hb eq_refl).
          assert (Hperm : vs ≡ₚ v :: vs1).
          { apply NoDup_Permutation; [exact Hnd | |].
            - apply NoDup_cons. split; [| exact (Rep_NoDup s1 vs1 HRep1)].
              intros Hin. apply Hmem in Hin as [_ Hne]. apply Hne. reflexivity.
            - intros x. rewrite elem_of_cons, Hmem. split.
              + intros Hx. destruct (decide (x = v)) as [-> | Hne];
                  [left; reflexivity | right; split; assumption].
              + intros [-> | [Hx _]]; assumption. }
          apply Permutation_length in Hperm. simpl in Hperm.
          unfold fetch_sub. rewrite wrap_small by lia.
          split; [lia |]. split; [lia |]. intros rs. lia.
        + rewrite (Hsame eq_refl) in *. clear Hsame.
          assert (Hperm : vs1 ≡ₚ vs).
          { apply NoDup_Permutation; [exact (Rep_NoDup s vs1 HRep1) | exact Hnd |].
            intros x. rewrite Hmem. split; [intros [Hx _]; exact Hx |].
            intros Hx. split; [exact Hx |]. intros ->.
            destruct Hb as [_ Hb]. assert (false = true); [| discriminate].
            apply Hb. exact Hx. }
          apply Permutation_length in Hperm.
          split; [lia |]. split; [lia |]. intros rs. reflexivity.
      - exists (Bool (bool_decide (v ∈ vs \/ v = Max))), s, vs.
        rewrite (Contains_Rep s vs v fuel HRep Ho) by lia.
        split; [reflexivity |]. split; [exact HRep |]. split; [exact Hsize |].
        split; [lia |]. intros rs. reflexivity.
      - exists (Count (Size s)), s, vs. split; [reflexivity |].
        split; [exact HRep |]. split; [exact Hsize |].
        split; [lia |]. intros rs. reflexivity. }
    destruct Hstep as (r & s1 & vs1 & Hs & HRep1 & Hsize1 & Hlen1 & Hnet).
    destruct (IH s1 vs1 HRep1 Hsize1 Hord) as
      (rs & s' & vs' & Hrun & HRep' & Hsize' & Hsz'); [lia | lia |].
    exists (r :: rs), s', vs'. cbn [run]. rewrite Hs. cbn. rewrite Hrun. cbn.
    split; [reflexivity |]. split; [exact HRep' |]. split; [exact Hsize' |].
    rewrite Hsz'. apply Hnet.
Qed.

Lemma unmarked_nil : unmarked [].
Proof. intros i nd Hi. rewrite lookup_nil in Hi. discriminate. Qed.

Lemma new_int_set :
  OptimisticLinkedSet_new (H := int_traits) [] = Done empty_int_set.
Proof. reflexivity. Qed.

Lemma Rep_empty_int_set : Rep (H := int_traits) empty_int_set [].
Proof. apply (Rep_new []). reflexivity. Qed.

(** ** The maximum value cannot be inserted *)

(** In every state whose chain still ends in the MAX sentinel (the empty
    set, and every state reached from it by calls that keep the tail),
    [Insert(Max)] returns false and leaves the set as it was: [Locate]
    stops at the tail sentinel, whose element equals the argument. *)
Theorem Insert_Max_returns_false `{ET : ElementTraits} (s : OptimisticLinkedSet)
    (vs : list Z) (fuel : nat) :
  Rep s vs -> (length vs < fuel)%nat ->
  Insert fuel s Max = Done (false, s).
Proof.
  intros HRep Hfuel.
  destruct (Rep_Locate s vs Max fuel HRep (Z.le_refl _) Hfuel)
    as (h & l1 & l0 & l2 & p & c & vp & vc & p0 & c0 & Hhead & Hprefix & Hnd & Hl0 &
        (Hp & Hpv & Hpl & Hpm & Hpn) & (Hc & Hcv & Hcl & Hcm) & Hl2 & Hvals &
        Hbelow & Hvc & HL).
  pose proof HRep as (_ & _ & _ & _ & _ & _ & Hsorted & _).
  assert (Hmax : vc = Max).
  { assert (Hin : vc ∈ vs ++ [Max]).
    { rewrite <- Hvals. apply elem_of_app. right. apply elem_of_cons. left.
      reflexivity. }
    apply elem_of_app in Hin as [Hin | Hin].
    - assert (vc < Max); [| lia].
      eapply StronglySorted_app_1_elem_of; [exact Hsorted | exact Hin |].
      apply list_elem_of_singleton. reflexivity.
    - apply list_elem_of_singleton in Hin. exact Hin. }
  assert (Hpc : p <> c) by (eapply located_ne; exact Hnd).
  destruct fuel as [|fuel]; [lia |].
  rewrite (Insert_on_edge s p c p0 c0 Hp Hc Hpc Hpl Hcl Hpm Hcm Hpn fuel Max HL).
  rewrite Hcv, Hmax, Z.eqb_refl. reflexivity.
Qed.

Lemma Insert_Max_returns_false_witness :
  Rep (H := int_traits) empty_int_set [] /\ (length (@nil Z) < 1)%nat /\
  Insert 1 empty_int_set (2 ^ 31 - 1) = Done (false, empty_int_set).
Proof.
  split; [exact Rep_empty_int_set |]. split; [simpl; lia |].
  apply (Insert_Max_returns_false (ET := int_traits) empty_int_set []).
  - exact Rep_empty_int_set.
  - simpl. lia.
Defined.

(** The state of an [int] set after [Remove(INT_MAX)] on the empty set:
    the head sentinel points to [nullptr]. *)

Lemma Remove_Max_empty_int_set :
  Remove 1 empty_int_set (2 ^ 31 - 1) =
    Done (true,
          {| allocator_ := [ {| element_ := - 2 ^ 31; next_ := None;
                                lock_ := true; marked_ := false |};
                             {| element_ := 2 ^ 31 - 1; next_ := None;
                                lock_ := true; marked_ := false |} ];
             head_ := Some 0%nat;
             elements_ := 2 ^ 64 - 1 |}).
Proof. reflexivity. Qed.

(** C10 fails on the code: after [Remove(INT_MAX)] has unlinked the tail
    sentinel of the empty [int] set, a reachable state, [Insert(INT_MAX)]
    dereferences [nullptr] in [Locate] instead of returning false. *)
Theorem Insert_Max_after_Remove_Max :
  exists s1 : OptimisticLinkedSet,
    OptimisticLinkedSet_new (H := int_traits) [] = Done empty_int_set /\
    Remove 1 empty_int_set (2 ^ 31 - 1) = Done (true, s1) /\
    reachable (H := int_traits) s1 /\
    Insert 1 s1 (2 ^ 31 - 1) = Undefined /\
    forall fuel r, Insert fuel s1 (2 ^ 31 - 1) <> Done r.
Proof.
  eexists. split; [reflexivity |]. split; [exact Remove_Max_empty_int_set |].
  split; [| split].
  - eapply (reachable_Remove (H := int_traits) empty_int_set 1 (2 ^ 31 - 1)).
    + apply (reachable_new (H := int_traits) []); [exact unmarked_nil | reflexivity].
    + unfold representable. simpl. lia.
    + exact Remove_Max_empty_int_set.
  - reflexivity.
  - intros [|fuel] r; discriminate.
Qed.

(** ** The sorted chain *)

(** C6, amended: for calls that do not overlap, each running from a state
    between two calls to its return.  In a state whose chain is the MIN
    sentinel, then the values [vs] in strictly increasing order, each at
    least [Min] and below [Max], then the MAX sentinel, a full traversal
    reads exactly that; every [Insert], and every [Remove] of a value other
    than [Max], returns and leaves a chain of the same shape, which holds
    the values that were there plus the inserted one, or minus the removed
    one.  The first value may equal that of the MIN sentinel. *)
Theorem sorted_chain_preserved `{ET : ElementTraits} (s : OptimisticLinkedSet)
    (vs : list Z) (v : Z) (fuel : nat) :
  Rep s vs -> representable v -> (length vs < fuel)%nat ->
  (values (length vs + 2) s = Done (Min :: vs ++ [Max]) /\
   strictly_increasing (vs ++ [Max]) = true /\
   Forall (fun x => Min <= x) vs) /\
  (exists b s' vs',
     Insert fuel s v = Done (b, s') /\ Rep s' vs' /\
     forall x, x ∈ vs' <-> x ∈ vs \/ (x = v /\ v <> Max)) /\
  (v <> Max ->
   exists b s' vs',
     Remove fuel s v = Done (b, s') /\ Rep s' vs' /\
     forall x, x ∈ vs' <-> x ∈ vs /\ x <> v).
Proof.
  intros HRep Hv Hfuel. split; [| split].
  - split; [apply Rep_values; [exact HRep | lia] |].
    destruct HRep as (_ & _ & _ & _ & _ & _ & Hsorted & Hmin).
    split; [apply strictly_increasing_sorted; exact Hsorted | exact Hmin].
  - destruct (Insert_Rep s vs v fuel HRep Hv Hfuel)
      as (b & s' & vs' & HI & HRep' & Hmem & _).
    exists b, s', vs'. split; [exact HI | split; [exact HRep' | exact Hmem]].
  - intros Hmax.
    destruct (Remove_Rep s vs v fuel HRep Hv Hmax Hfuel)
      as (b & s' & vs' & HR & HRep' & Hmem & _).
    exists b, s', vs'. split; [exact HR | split; [exact HRep' | exact Hmem]].
Qed.

Lemma sorted_chain_preserved_witness :
  exists s' vs',
    Insert 1 empty_int_set 5 = Done (true, s') /\
    Rep (H := int_traits) s' vs' /\
    forall x, x ∈ vs' <-> x ∈ [] \/ (x = 5 /\ 5 <> 2 ^ 31 - 1).
Proof.
  destruct (sorted_chain_preserved (ET := int_traits) empty_int_set [] 5 1)
    as (_ & (b & s' & vs' & HI & HRep & Hmem) & _).
  - exact Rep_empty_int_set.
  - unfold representable. simpl. lia.
  - simpl. lia.
  - exists s', vs'. split; [| split; [exact HRep | exact Hmem]].
    rewrite HI. vm_compute in HI. injection HI as <- _. reflexivity.
Defined.

(** C6, as stated, fails for the argument [Min]: [Insert(INT_MIN)] on the
    empty [int] set succeeds and puts a node holding [INT_MIN] behind the
    MIN sentinel, so the traversal from head is not strictly increasing. *)
Lemma Insert_Min_not_strictly_increasing :
  exists s1 : OptimisticLinkedSet,
    values 2 empty_int_set = Done [- 2 ^ 31; 2 ^ 31 - 1] /\
    strictly_increasing [- 2 ^ 31; 2 ^ 31 - 1] = true /\
    Insert 1 empty_int_set (- 2 ^ 31) = Done (true, s1) /\
    values 3 s1 = Done [- 2 ^ 31; - 2 ^ 31; 2 ^ 31 - 1] /\
    strictly_increasing [- 2 ^ 31; - 2 ^ 31; 2 ^ 31 - 1] = false.
Proof. eexists. repeat split; reflexivity. Qed.

(** ** A call that overlaps another *)

(** A round of the loop of [Insert] is [Locate] followed by
    [Insert_round]. *)

Lemma Insert_rounds (fuel : nat) (s : OptimisticLinkedSet) (element : Z) :
  Insert (S fuel) s element =
    (search_result ← Locate (S fuel) s element;
     '(r, s') ← LinkedOverlap.Insert_round s element search_result;
     match r with
     | Some b => Done (b, s')
     | None => Insert fuel s' element
     end).
Proof.
  rewrite Insert_unfold. unfold LinkedOverlap.Insert_round.
  destruct (Locate (S fuel) s element) as [search_result | |]; [| reflexivity ..].
  cbn [mbind outcome_bind].
  destruct (Edge_Lock (allocator_ s) search_result) as [a1 | |]; [| reflexivity ..].
  cbn [mbind outcome_bind].
  destruct (Validate a1 search_result) as [[|] | |]; [| | reflexivity ..];
    cbn [mbind outcome_bind negb].
  - destruct (deref a1 (curr_ search_result)) as [c | |]; [| reflexivity ..].
    cbn [mbind outcome_bind].
    destruct (element_ c =? element).
    + destruct (Edge_Unlock a1 search_result); reflexivity.
    + cbn [New]. cbv zeta.
      destruct (deref (a1 ++ [Node_new element (curr_ search_result)])
                  (pred_ search_result)) as [p0 | |]; [| reflexivity ..].
      cbn [mbind outcome_bind].
      destruct (Edge_Unlock _ search_result); reflexivity.
  - destruct (Edge_Unlock a1 search_result); reflexivity.
Qed.

(** Calls that overlap can lose a value.  On the [int] set holding 3,
    [Insert(5)] has located the edge from the node of 3 to the tail when
    [Remove(3)] runs from beginning to end.  [Insert(5)] then locks the
    edge, and [Validate] accepts it: the removed node was never marked and
    still points to the tail.  The new node is linked behind the removed
    one: [Insert(5)] returns true and [Size()] is 1, but the chain from
    head holds the two sentinels only and [Contains(5)] is false. *)

Lemma Insert_overlapping_Remove :
  Insert 1 empty_int_set 3 = Done (true, LinkedOverlap.int_set_3) /\
  Locate 2 LinkedOverlap.int_set_3 5
    = Done {| pred_ := Some 2%nat; curr_ := Some 1%nat |} /\
  Remove 2 LinkedOverlap.int_set_3 3 = Done (true, LinkedOverlap.int_set_3_removed) /\
  LinkedOverlap.Insert_round LinkedOverlap.int_set_3_removed 5
      {| pred_ := Some 2%nat; curr_ := Some 1%nat |}
    = Done (Some true, LinkedOverlap.int_set_5_lost) /\
  values 3 LinkedOverlap.int_set_5_lost = Done [- 2 ^ 31; 2 ^ 31 - 1] /\
  Contains 3 LinkedOverlap.int_set_5_lost 5 = Done false /\
  Size LinkedOverlap.int_set_5_lost = 1.
Proof. repeat split; vm_compute; reflexivity. Qed.

Lemma marked_never_set_witness :
  exists s1 s2 : OptimisticLinkedSet,
    Insert 1 empty_int_set 5 = Done (true, s1) /\
    Remove 2 s1 5 = Done (true, s2) /\
    reachable (H := int_traits) s2 /\
    forall i nd, allocator_ s2 !! i = Some nd -> marked_ nd = false.
Proof.
  eexists. eexists. split; [reflexivity |]. split; [reflexivity |].
  assert (Hreach : reachable (H := int_traits)
            {| allocator_ := [ {| element_ := - 2 ^ 31; next_ := Some 1%nat;
                                  lock_ := true; marked_ := false |};
                               {| element_ := 2 ^ 31 - 1; next_ := None;
                                  lock_ := true; marked_ := false |};
                               {| element_ := 5; next_ := Some 1%nat;
                                  lock_ := true; marked_ := false |} ];
               head_ := Some 0%nat;
               elements_ := 0 |}).
  { eapply (reachable_Remove (H := int_traits) _ 2 5 true).
    - eapply (reachable_Insert (H := int_traits) empty_int_set 1 5 true).
      + apply (reachable_new (H := int_traits) []); [exact unmarked_nil | reflexivity].
      + unfold representable. simpl. lia.
      + reflexivity.
    - unfold representable. simpl. lia.
    - reflexivity. }
  split; [exact Hreach |].
  exact (proj1 (marked_never_set (ET := int_traits) _ Hreach)).
Defined.

(** ** The sentinels *)

(** C1 fails on the code: on the empty set, for every element type,
    [Contains(Max)] reports the tail sentinel as a member, and
    [Remove(Max)] returns true, unlinks the tail sentinel (the head's
    successor becomes [nullptr], the traversal from head meets the MIN
    sentinel only) and wraps the size counter to [2^64 - 1]. *)
Theorem tail_sentinel_matched `{ET : ElementTraits} :
  exists s s' h,
    OptimisticLinkedSet_new [] = Done s /\
    Contains 1 s Max = Done true /\
    Remove 1 s Max = Done (true, s') /\
    deref (allocator_ s') (head_ s') = Done h /\
    next_ h = None /\
    values 2 s' = Done [Min] /\
    Size s' = 2 ^ 64 - 1.
Proof.
  eexists. eexists. eexists.
  split; [reflexivity |].
  split. { unfold Contains, Locate. simpl. rewrite Z.ltb_irrefl. simpl.
           rewrite Z.eqb_refl. reflexivity. }
  split. { rewrite Remove_unfold. unfold Locate. simpl. rewrite Z.ltb_irrefl. simpl.
           rewrite Z.eqb_refl. simpl. reflexivity. }
  repeat split; reflexivity.
Qed.

(** ** Removal *)

(** C3 fails on the code: [Remove(5)] on the [int] set holding 5 returns
    true, makes the head point past the node and brings the size back to
    0, but the removed node, still in the arena at index 2, has
    [marked_ == false]. *)
Theorem Remove_leaves_node_unmarked :
  exists (s1 s2 : OptimisticLinkedSet) (nd : Node),
    Insert 1 empty_int_set 5 = Done (true, s1) /\
    Remove 2 s1 5 = Done (true, s2) /\
    values 3 s2 = Done [- 2 ^ 31; 2 ^ 31 - 1] /\
    Size s2 = 0 /\
    allocator_ s2 !! 2%nat = Some nd /\
    element_ nd = 5 /\
    marked_ nd = false.
Proof. do 3 eexists. repeat split; reflexivity. Qed.

(** ** The size counter *)

(** C7 fails on the code for the linked set: [Remove(INT_MAX)] on the
    empty [int] set succeeds, so successful insertions minus successful
    removals is [-1], while [Size()] then returns [2^64 - 1]. *)
Theorem Size_after_Remove_Max :
  exists s' : OptimisticLinkedSet,
    run 1 empty_int_set [OpRemove (2 ^ 31 - 1); OpSize]
      = Done ([Bool true; Count (2 ^ 64 - 1)], s') /\
    net_successes [OpRemove (2 ^ 31 - 1); OpSize] [Bool true; Count (2 ^ 64 - 1)]
      = -1.
Proof. eexists. split; reflexivity. Qed.

End LinkedFacts.

Module StripedFacts.

Import Striped.

(** ** The two stripe locks follow the laws *)

#[global] Instance mutex_laws : StripeLockLaws bool.
Proof. split; exists true; split; reflexivity. Qed.

#[global] Instance rw_laws : StripeLockLaws ReadWriteLock.
Proof.
  split.
  - exists {| writers_ := 1; readers_ := 0; write_state := true |}.
    split; reflexivity.
  - exists {| writers_ := 0; readers_ := 1; write_state := false |}.
    split; reflexivity.
Qed.

Section Facts.

Context {L : Type} `{StripeLock L} `{!StripeLockLaws L}.

Variable hash : Z -> Z.

(** ** Stripe locks *)

Lemma on_lock_free (f g : L -> outcome L) (held : L) (n : nat) (i : Z) :
  f unlocked = Done held -> g held = Done unlocked ->
  0 <= i < Z.of_nat n ->
  on_lock f (replicate n unlocked) i = Done (<[Z.to_nat i := held]> (replicate n unlocked)) /\
  on_lock g (<[Z.to_nat i := held]> (replicate n unlocked)) i = Done (replicate n unlocked).
Proof.
  intros Hf Hg Hi. unfold on_lock, at_index. split.
  - rewrite lookup_replicate_2 by lia. simpl. rewrite Hf. reflexivity.
  - rewrite list_lookup_insert_eq by (rewrite length_replicate; lia).
    simpl. rewrite Hg. simpl. rewrite list_insert_insert_eq, insert_replicate.
    reflexivity.
Qed.

Lemma on_all_locks_replicate (f : L -> outcome L) (x y : L) :
  f x = Done y ->
  forall (k i : nat),
    on_all_locks f k (Z.of_nat i) (replicate i y ++ replicate k x)
      = Done (replicate (i + k) y).
Proof.
  intros Hf. induction k as [|k IH]; intros i.
  - simpl. rewrite app_nil_r, Nat.add_0_r. reflexivity.
  - simpl. unfold on_lock, at_index. rewrite Nat2Z.id.
    rewrite lookup_app_r by (rewrite length_replicate; lia).
    rewrite length_replicate, Nat.sub_diag. simpl. rewrite Hf. simpl.
    rewrite insert_app_r_alt by (rewrite length_replicate; lia).
    rewrite length_replicate, Nat.sub_diag. simpl.
    replace (Z.of_nat i + 1) with (Z.of_nat (S i)) by lia.
    replace (replicate i y ++ y :: replicate k x)
      with (replicate (S i) y ++ replicate k x).
    + rewrite IH. f_equal. f_equal. lia.
    + rewrite replicate_S_end, <- app_assoc. reflexivity.
Qed.

Lemma on_all_locks_free (f : L -> outcome L) (x y : L) (n : nat) :
  f x = Done y -> on_all_locks f n 0 (replicate n x) = Done (replicate n y).
Proof.
  intros Hf. exact (on_all_locks_replicate f x y Hf n 0).
Qed.



(** ** Buckets *)

Lemma slot_lt (capacity x : Z) :
  0 < capacity -> (slot hash capacity x < Z.to_nat capacity)%nat.
Proof.
  intros Hc. unfold slot. pose proof (Z.mod_pos_bound (hash x) capacity Hc). lia.
Qed.

Lemma in_bucket_push (table : list (list Z)) (j : nat) (b : list Z) (item : Z)
    (i : nat) (x : Z) :
  table !! j = Some b ->
  in_bucket (<[j := item :: b]> table) i x <->
  in_bucket table i x \/ (x = item /\ i = j).
Proof.
  intros Hj. unfold in_bucket. destruct (decide (j = i)) as [-> | Hne].
  - rewrite list_lookup_insert_eq by (eapply lookup_lt_Some; exact Hj). split.
    + intros (b' & [= <-] & Hx). apply elem_of_cons in Hx as [-> | Hx].
      * right. split; reflexivity.
      * left. exists b. split; assumption.
    + intros [(b' & Hb' & Hx) | [-> _]].
      * rewrite Hj in Hb'. injection Hb' as <-. eexists. split; [reflexivity |].
        apply elem_of_cons. right. exact Hx.
      * eexists. split; [reflexivity |]. apply elem_of_cons. left. reflexivity.
  - rewrite list_lookup_insert_ne by exact Hne. split.
    + intros Hin. left. exact Hin.
    + intros [Hin | [_ ->]]; [exact Hin | contradiction].
Qed.

Lemma concat_push (table : list (list Z)) (j : nat) (b : list Z) (item : Z) :
  table !! j = Some b ->
  concat (<[j := item :: b]> table) ≡ₚ item :: concat table.
Proof.
  revert j. induction table as [|b0 table IH]; intros [|j] Hj; simpl in Hj;
    try discriminate.
  - injection Hj as ->. reflexivity.
  - simpl. rewrite (IH j Hj). symmetry. apply Permutation_middle.
Qed.

Lemma elem_of_concat (x : Z) (ls : list (list Z)) :
  x ∈ concat ls <-> exists l : list Z, x ∈ l /\ l ∈ ls.
Proof.
  induction ls as [|l0 ls IH]; simpl.
  - split.
    + intros Hx. apply elem_of_nil in Hx. destruct Hx.
    + intros (l & _ & Hl). apply elem_of_nil in Hl. destruct Hl.
  - rewrite elem_of_app, IH. split.
    + intros [Hx | (l & Hx & Hl)].
      * exists l0. split; [exact Hx | apply elem_of_cons; left; reflexivity].
      * exists l. split; [exact Hx | apply elem_of_cons; right; exact Hl].
    + intros (l & Hx & Hl). apply elem_of_cons in Hl as [-> | Hl].
      * left. exact Hx.
      * right. exists l. split; assumption.
Qed.

Lemma in_bucket_members (table : list (list Z)) (x : Z) :
  x ∈ concat table <-> exists i, in_bucket table i x.
Proof.
  unfold in_bucket. rewrite elem_of_concat. split.
  - intros (b & Hx & Hb). apply list_elem_of_lookup in Hb as (i & Hi).
    exists i, b. split; assumption.
  - intros (i & b & Hi & Hx). exists b. split; [exact Hx |].
    apply list_elem_of_lookup. exists i. exact Hi.
Qed.

(** ** Rehash *)

Section Rehash_loops.

Variable new_size : Z.
Hypothesis new_size_pos : 0 < new_size.

Lemma rehash_item_spec (temp : list (list Z)) (item : Z) :
  vector_size temp = new_size ->
  exists temp',
    rehash_item hash new_size temp item = Done temp' /\
    vector_size temp' = new_size /\
    concat temp' ≡ₚ item :: concat temp /\
    forall i x, in_bucket temp' i x <->
                in_bucket temp i x \/ (x = item /\ i = slot hash new_size item).
Proof.
  intros Hsize. unfold rehash_item.
  destruct (Z.eqb_spec new_size 0) as [Hz | _]; [lia |].
  pose proof (slot_lt new_size item new_size_pos) as Hlt.
  destruct (lookup_lt_is_Some_2 temp (slot hash new_size item)) as [b Hb].
  { unfold vector_size in Hsize. lia. }
  unfold at_index. fold (slot hash new_size item). rewrite Hb. simpl.
  eexists. split; [reflexivity |]. split; [| split].
  - unfold vector_size. rewrite length_insert. exact Hsize.
  - apply concat_push. exact Hb.
  - intros i x. apply in_bucket_push. exact Hb.
Qed.

Lemma rehash_bucket_spec (bucket : list Z) :
  forall temp : list (list Z),
    vector_size temp = new_size ->
    exists temp',
      rehash_bucket hash new_size temp bucket = Done temp' /\
      vector_size temp' = new_size /\
      concat temp' ≡ₚ bucket ++ concat temp /\
      forall i x, in_bucket temp' i x <->
                  in_bucket temp i x \/ (x ∈ bucket /\ i = slot hash new_size x).
Proof.
  induction bucket as [|item rest IH]; intros temp Hsize.
  - exists temp. split; [reflexivity |]. split; [exact Hsize |].
    split; [reflexivity |]. intros i x. split.
    + intros Hin. left. exact Hin.
    + intros [Hin | [Hx _]]; [exact Hin |]. apply elem_of_nil in Hx. destruct Hx.
  - destruct (rehash_item_spec temp item Hsize) as (t1 & H1 & Hs1 & Hp1 & Hm1).
    destruct (IH t1 Hs1) as (t2 & H2 & Hs2 & Hp2 & Hm2).
    exists t2. simpl. rewrite H1. simpl. split; [exact H2 |].
    split; [exact Hs2 |]. split.
    + rewrite Hp2, Hp1. symmetry. apply Permutation_middle.
    + intros i x. rewrite Hm2, Hm1, elem_of_cons. split.
      * intros [[Hin | [-> ->]] | Hin]; [left; exact Hin | right | right].
        -- split; [left; reflexivity | reflexivity].
        -- destruct Hin as [Hx Hi]. split; [right; exact Hx | exact Hi].
      * intros [Hin | [[-> | Hx] Hi]].
        -- left. left. exact Hin.
        -- left. right. split; [reflexivity | exact Hi].
        -- right. split; assumption.
Qed.

Lemma rehash_table_spec (table : list (list Z)) :
  forall temp : list (list Z),
    vector_size temp = new_size ->
    exists temp',
      rehash_table hash new_size temp table = Done temp' /\
      vector_size temp' = new_size /\
      concat temp' ≡ₚ concat table ++ concat temp /\
      forall i x, in_bucket temp' i x <->
                  in_bucket temp i x \/ (x ∈ concat table /\ i = slot hash new_size x).
Proof.
  induction table as [|bucket rest IH]; intros temp Hsize.
  - exists temp. split; [reflexivity |]. split; [exact Hsize |].
    split; [reflexivity |]. intros i x. split.
    + intros Hin. left. exact Hin.
    + intros [Hin | [Hx _]]; [exact Hin |]. apply elem_of_nil in Hx. destruct Hx.
  - destruct (rehash_bucket_spec bucket temp Hsize) as (t1 & H1 & Hs1 & Hp1 & Hm1).
    destruct (IH t1 Hs1) as (t2 & H2 & Hs2 & Hp2 & Hm2).
    exists t2. simpl. rewrite H1. simpl. split; [exact H2 |].
    split; [exact Hs2 |]. split.
    + rewrite Hp2, Hp1. rewrite app_assoc.
      apply Permutation_app_tail. apply Permutation_app_comm.
    + intros i x. rewrite Hm2, Hm1, elem_of_app. split.
      * intros [[Hin | [Hx Hi]] | [Hx Hi]].
        -- left. exact Hin.
        -- right. split; [left; exact Hx | exact Hi].
        -- right. split; [right; exact Hx | exact Hi].
      * intros [Hin | [[Hx | Hx] Hi]].
        -- left. left. exact Hin.
        -- left. right. split; assumption.
        -- right. split; assumption.
Qed.

End Rehash_loops.

(** ** The common prefix of Insert, Remove and Contains *)

Lemma with_locks_id (s : StripedHashSet L) : with_locks s (locks_ s) = s.
Proof. destruct s. reflexivity. Qed.

Lemma concat_replicate_nil (n : nat) : concat (replicate n (@nil Z)) = [].
Proof. induction n as [|n IH]; [reflexivity | exact IH]. Qed.

Lemma in_bucket_no_bucket (n : nat) (i : nat) (x : Z) :
  ~ in_bucket (replicate n []) i x.
Proof.
  intros (b & Hb & Hx). apply lookup_replicate in Hb as [-> _].
  apply elem_of_nil in Hx. exact Hx.
Qed.

Lemma stripe_and_bucket (s : StripedHashSet L) (x : Z) (f g : L -> outcome L)
    (held : L) :
  wf s -> f unlocked = Done held -> g held = Done unlocked ->
  exists (si : Z) (l1 : list L) (b : list Z),
    GetStripeIndex s (hash x) = Done si /\
    on_lock f (locks_ s) si = Done l1 /\
    on_lock g l1 si = Done (locks_ s) /\
    GetBucketIndex s (hash x) = Done (hash x mod vector_size (hash_table_ s)) /\
    at_index (hash_table_ s) (hash x mod vector_size (hash_table_ s)) = Done b /\
    hash_table_ s !! slot hash (vector_size (hash_table_ s)) x = Some b /\
    GetLoadFactor s = Done (num_elements_ s / vector_size (hash_table_ s)).
Proof.
  intros (Hns & Hlocks & Hcap & _ & _) Hf Hg.
  pose proof (Z.mod_pos_bound (hash x) (num_stripes_ s) Hns) as Hsi.
  destruct (on_lock_free f g held (Z.to_nat (num_stripes_ s))
              (hash x mod num_stripes_ s) Hf Hg) as [Hlock Hunlock]; [lia |].
  destruct (lookup_lt_is_Some_2 (hash_table_ s)
              (slot hash (vector_size (hash_table_ s)) x)) as [b Hb].
  { pose proof (slot_lt (vector_size (hash_table_ s)) x Hcap) as Hlt.
    unfold vector_size in Hlt at 2. lia. }
  exists (hash x mod num_stripes_ s),
    (<[Z.to_nat (hash x mod num_stripes_ s) := held]>
       (replicate (Z.to_nat (num_stripes_ s)) unlocked)), b.
  unfold GetStripeIndex, GetBucketIndex, GetLoadFactor.
  destruct (Z.eqb_spec (num_stripes_ s) 0) as [? | _]; [lia |].
  destruct (Z.eqb_spec (vector_size (hash_table_ s)) 0) as [? | _]; [lia |].
  rewrite Hlocks. repeat split; try reflexivity; try assumption.
  unfold at_index. fold (slot hash (vector_size (hash_table_ s)) x).
  rewrite Hb. reflexivity.
Qed.

Lemma Contains_spec (s : StripedHashSet L) (x : Z) :
  wf s ->
  exists b : list Z,
    hash_table_ s !! slot hash (vector_size (hash_table_ s)) x = Some b /\
    Contains hash s x = Done (bool_decide (x ∈ b), s).
Proof.
  intros Hwf. destruct read_lock_unlock as (held & Hf & Hg).
  destruct (stripe_and_bucket s x ReadLock ReadUnlock held Hwf Hf Hg)
    as (si & l1 & b & Hsi & Hlock & Hunlock & Hbi & Hat & Hb & _).
  exists b. split; [exact Hb |]. unfold Contains.
  rewrite Hsi, bind_Done_l, Hlock, bind_Done_l, Hbi, bind_Done_l, Hat, bind_Done_l.
  cbv zeta. rewrite Hunlock, bind_Done_l, with_locks_id. reflexivity.
Qed.


(** ** Rehash *)


Lemma Rehash_over (s : StripedHashSet L) :
  wf s ->
  max_load_factor_ s < num_elements_ s / vector_size (hash_table_ s) ->
  0 < vector_size (hash_table_ s) * growth_factor_ s < 2 ^ 64 ->
  exists table' : list (list Z),
    Rehash hash s =
      Done {| growth_factor_ := growth_factor_ s;
              max_load_factor_ := max_load_factor_ s;
              num_elements_ := num_elements_ s;
              num_stripes_ := num_stripes_ s;
              locks_ := locks_ s;
              hash_table_ := table' |} /\
    vector_size table' = vector_size (hash_table_ s) * growth_factor_ s /\
    concat table' ≡ₚ members s /\
    forall i x,
      in_bucket table' i x <->
      x ∈ members s /\
      i = slot hash (vector_size (hash_table_ s) * growth_factor_ s) x.
Proof.
  intros Hwf Hgt Hnew. pose proof Hwf as (Hns & Hlocks & Hcap & _ & _).
  destruct write_lock_unlock as (held & Hf & Hg).
  destruct (rehash_table_spec (vector_size (hash_table_ s) * growth_factor_ s)
              (proj1 Hnew) (hash_table_ s)
              (replicate (Z.to_nat (vector_size (hash_table_ s) * growth_factor_ s)) []))
    as (table' & Htable & Hsize & Hperm & Hmem).
  { unfold vector_size at 1. rewrite length_replicate. lia. }
  exists table'. split; [| split; [exact Hsize | split]].
  - unfold Rehash, GetLoadFactor. rewrite Hlocks at 1.
    rewrite (on_all_locks_free WriteLock unlocked held _ Hf), bind_Done_l.
    destruct (Z.eqb_spec (vector_size (hash_table_ s)) 0) as [? | _]; [lia |].
    rewrite bind_Done_l.
    destruct (Z.leb_spec (num_elements_ s / vector_size (hash_table_ s))
                (max_load_factor_ s)) as [? | _]; [lia |].
    cbv zeta. rewrite (wrap_small _ (conj (Z.lt_le_incl _ _ (proj1 Hnew)) (proj2 Hnew))).
    rewrite Htable, bind_Done_l.
    rewrite (on_all_locks_free WriteUnlock held unlocked _ Hg), bind_Done_l.
    rewrite <- Hlocks. reflexivity.
  - rewrite Hperm. rewrite concat_replicate_nil, app_nil_r. reflexivity.
  - intros i x. rewrite Hmem. split.
    + intros [Hin | Hin]; [| exact Hin]. apply in_bucket_no_bucket in Hin. destruct Hin.
    + intros Hin. right. exact Hin.
Qed.

(** [Rehash] begins by taking every stripe lock: as long as one of them is
    held, it waits, and has done nothing else. *)



(** ** Insert *)

Lemma Insert_body (fuel : nat) (s : StripedHashSet L) (element : Z) :
  Insert hash (S fuel) s element =
    (let hash_value := hash element in
     stripe_index ← GetStripeIndex s hash_value;
     l1 ← on_lock WriteLock (locks_ s) stripe_index;
     bucket_index ← GetBucketIndex s hash_value;
     bucket ← at_index (hash_table_ s) bucket_index;
     if found bucket element then
       l2 ← on_lock WriteUnlock l1 stripe_index;
       Done (false, with_locks s l2)
     else
       lf ← GetLoadFactor s;
       if lf >? max_load_factor_ s then
         l2 ← on_lock WriteUnlock l1 stripe_index;
         s' ← Rehash hash (with_locks s l2);
         Insert hash fuel s' element
       else
         let table := <[Z.to_nat bucket_index := element :: bucket]> (hash_table_ s) in
         let n := fetch_add (num_elements_ s) in
         l2 ← on_lock WriteUnlock l1 stripe_index;
         Done (true, {| growth_factor_ := growth_factor_ s;
                        max_load_factor_ := max_load_factor_ s;
                        num_elements_ := n;
                        num_stripes_ := num_stripes_ s;
                        locks_ := l2;
                        hash_table_ := table |})).
Proof. reflexivity. Qed.

Section Insert_cases.

Variables (s : StripedHashSet L) (v : Z) (b : list Z).

Hypothesis Hwf : wf s.
Hypothesis Hb : hash_table_ s !! slot hash (vector_size (hash_table_ s)) v = Some b.

Lemma Insert_prefix (fuel : nat) :
  Insert hash (S fuel) s v =
    if found b v then Done (false, s)
    else if num_elements_ s / vector_size (hash_table_ s) >? max_load_factor_ s
    then s' ← Rehash hash s; Insert hash fuel s' v
    else Done (true, {| growth_factor_ := growth_factor_ s;
                        max_load_factor_ := max_load_factor_ s;
                        num_elements_ := fetch_add (num_elements_ s);
                        num_stripes_ := num_stripes_ s;
                        locks_ := locks_ s;
                        hash_table_ :=
                          <[slot hash (vector_size (hash_table_ s)) v := v :: b]>
                            (hash_table_ s) |}).
Proof.
  destruct write_lock_unlock as (held & Hf & Hg).
  destruct (stripe_and_bucket s v WriteLock WriteUnlock held Hwf Hf Hg)
    as (si & l1 & b' & Hsi & Hlock & Hunlock & Hbi & Hat & Hb' & Hlf).
  rewrite Hb in Hb'. injection Hb' as <-.
  rewrite Insert_body. cbv zeta.
  rewrite Hsi, bind_Done_l, Hlock, bind_Done_l, Hbi, bind_Done_l, Hat, bind_Done_l.
  destruct (found b v).
  - rewrite Hunlock, bind_Done_l, with_locks_id. reflexivity.
  - rewrite Hlf, bind_Done_l.
    destruct (num_elements_ s / vector_size (hash_table_ s) >? max_load_factor_ s).
    + rewrite Hunlock, bind_Done_l, with_locks_id. reflexivity.
    + rewrite Hunlock, bind_Done_l. reflexivity.
Qed.

Lemma Insert_found (fuel : nat) :
  v ∈ b -> Insert hash (S fuel) s v = Done (false, s).
Proof.
  intros Hin. rewrite Insert_prefix. unfold found.
  rewrite bool_decide_eq_true_2 by exact Hin. reflexivity.
Qed.

Lemma Insert_retry (fuel : nat) :
  v ∉ b ->
  max_load_factor_ s < num_elements_ s / vector_size (hash_table_ s) ->
  Insert hash (S fuel) s v = (s' ← Rehash hash s; Insert hash fuel s' v).
Proof.
  intros Hin Hgt. rewrite Insert_prefix. unfold found.
  rewrite bool_decide_eq_false_2 by exact Hin.
  destruct (Z.gtb_spec (num_elements_ s / vector_size (hash_table_ s))
              (max_load_factor_ s)); [reflexivity | lia].
Qed.

Lemma Insert_push (fuel : nat) :
  v ∉ b ->
  num_elements_ s / vector_size (hash_table_ s) <= max_load_factor_ s ->
  Insert hash (S fuel) s v =
    Done (true, {| growth_factor_ := growth_factor_ s;
                   max_load_factor_ := max_load_factor_ s;
                   num_elements_ := fetch_add (num_elements_ s);
                   num_stripes_ := num_stripes_ s;
                   locks_ := locks_ s;
                   hash_table_ :=
                     <[slot hash (vector_size (hash_table_ s)) v := v :: b]>
                       (hash_table_ s) |}).
Proof.
  intros Hin Hle. rewrite Insert_prefix. unfold found.
  rewrite bool_decide_eq_false_2 by exact Hin.
  destruct (Z.gtb_spec (num_elements_ s / vector_size (hash_table_ s))
              (max_load_factor_ s)); [lia | reflexivity].
Qed.

End Insert_cases.

Lemma placed_member (table : list (list Z)) (x : Z) (b : list Z) :
  placed hash table -> table !! slot hash (vector_size table) x = Some b ->
  x ∈ concat table <-> x ∈ b.
Proof.
  intros Hplaced Hb. rewrite in_bucket_members. split.
  - intros (i & Hin). pose proof (Hplaced i x Hin) as ->.
    destruct Hin as (b' & Hb' & Hx). rewrite Hb in Hb'. injection Hb' as <-.
    exact Hx.
  - intros Hx. eexists. exists b. split; [exact Hb | exact Hx].
Qed.

Lemma bucket_exists (s : StripedHashSet L) (x : Z) :
  wf s -> exists b, hash_table_ s !! slot hash (vector_size (hash_table_ s)) x = Some b.
Proof.
  intros (_ & _ & Hcap & _). apply lookup_lt_is_Some_2.
  pose proof (slot_lt (vector_size (hash_table_ s)) x Hcap) as Hlt.
  unfold vector_size in Hlt at 2. lia.
Qed.

(** The state [Insert] leaves when it pushes [v] on its bucket. *)

Lemma Insert_push_post (s : StripedHashSet L) (v : Z) (b : list Z) :
  wf s -> placed hash (hash_table_ s) ->
  hash_table_ s !! slot hash (vector_size (hash_table_ s)) v = Some b ->
  num_elements_ s + 1 < 2 ^ 64 ->
  let s' := {| growth_factor_ := growth_factor_ s;
               max_load_factor_ := max_load_factor_ s;
               num_elements_ := fetch_add (num_elements_ s);
               num_stripes_ := num_stripes_ s;
               locks_ := locks_ s;
               hash_table_ :=
                 <[slot hash (vector_size (hash_table_ s)) v := v :: b]>
                   (hash_table_ s) |} in
  hash_table_ s' !! slot hash (vector_size (hash_table_ s')) v = Some (v :: b) /\
  members s' ≡ₚ v :: members s /\
  Size s' = Size s + 1 /\
  wf s' /\ placed hash (hash_table_ s').
Proof.
  intros Hwf Hplaced Hb Hfit s'.
  pose proof Hwf as (Hns & Hlocks & Hcap & Hmax & Hcount).
  assert (Hsize : vector_size (hash_table_ s') = vector_size (hash_table_ s)).
  { unfold s', vector_size. cbn [hash_table_]. rewrite length_insert. reflexivity. }
  assert (Hadd : fetch_add (num_elements_ s) = num_elements_ s + 1).
  { unfold fetch_add. apply wrap_small. lia. }
  rewrite Hsize. split; [| split; [| split; [| split]]].
  - unfold s'. cbn [hash_table_]. apply list_lookup_insert_eq.
    eapply lookup_lt_Some. exact Hb.
  - unfold members, s'. cbn [hash_table_]. apply concat_push. exact Hb.
  - unfold Size, s'. cbn [num_elements_]. exact Hadd.
  - unfold wf. rewrite Hsize. unfold s'. cbn. rewrite Hadd.
    repeat split; try assumption; lia.
  - intros i x Hin. rewrite Hsize. unfold s' in Hin. cbn [hash_table_] in Hin.
    apply (in_bucket_push _ _ _ _ _ _ Hb) in Hin as [Hin | [-> ->]].
    + apply Hplaced. exact Hin.
    + reflexivity.
Qed.

(** The quotient [num_elements / capacity] shrinks with every [Rehash], so
    the chain of retries in [Insert] ends. *)

Lemma Insert_total (v : Z) (k : nat) :
  forall s : StripedHashSet L,
    (Z.to_nat (num_elements_ s / vector_size (hash_table_ s)) <= k)%nat ->
    wf s -> placed hash (hash_table_ s) ->
    2 <= growth_factor_ s ->
    num_elements_ s * growth_factor_ s < 2 ^ 64 ->
    v ∉ members s ->
    exists (s' : StripedHashSet L) (b : list Z),
      Insert hash (S k) s v = Done (true, s') /\
      hash_table_ s' !! slot hash (vector_size (hash_table_ s')) v = Some (v :: b) /\
      members s' ≡ₚ v :: members s /\
      Size s' = Size s + 1 /\
      wf s' /\ placed hash (hash_table_ s') /\
      growth_factor_ s' = growth_factor_ s.
Proof.
  induction k as [|k IH]; intros s Hk Hwf Hplaced Hg Hfit Hnot;
    pose proof Hwf as (Hns & Hlocks & Hcap & Hmax & Hcount);
    destruct (bucket_exists s v Hwf) as (b & Hb);
    assert (Hvb : v ∉ b)
      by (intros Hin; apply Hnot; apply (placed_member _ v b Hplaced Hb); exact Hin);
    assert (Hone : num_elements_ s + 1 < 2 ^ 64) by nia;
    destruct (Z_le_gt_dec (num_elements_ s / vector_size (hash_table_ s))
               (max_load_factor_ s)) as [Hle | Hgt].
  - destruct (Insert_push_post s v b Hwf Hplaced Hb Hone) as (H1 & H2 & H3 & H4 & H5).
    eexists. exists b.
    split; [exact (Insert_push s v b Hwf Hb 0%nat Hvb Hle) |].
    split; [exact H1 | split; [exact H2 | split; [exact H3 |]]].
    split; [exact H4 | split; [exact H5 | reflexivity]].
  - (* no retry is left: the quotient is 0, hence not above the maximum *)
    assert (num_elements_ s / vector_size (hash_table_ s) = 0) by lia. lia.
  - destruct (Insert_push_post s v b Hwf Hplaced Hb Hone) as (H1 & H2 & H3 & H4 & H5).
    eexists. exists b.
    split; [exact (Insert_push s v b Hwf Hb (S k) Hvb Hle) |].
    split; [exact H1 | split; [exact H2 | split; [exact H3 |]]].
    split; [exact H4 | split; [exact H5 | reflexivity]].
  - assert (Hq : 1 <= num_elements_ s / vector_size (hash_table_ s)) by lia.
    assert (Hn : vector_size (hash_table_ s) <= num_elements_ s).
    { destruct (Z_lt_le_dec (num_elements_ s) (vector_size (hash_table_ s)))
        as [Hlt | Hge]; [| exact Hge].
      rewrite Z.div_small in Hq by lia. lia. }
    assert (Hnew : 0 < vector_size (hash_table_ s) * growth_factor_ s < 2 ^ 64) by nia.
    assert (Hgt' : max_load_factor_ s
                   < num_elements_ s / vector_size (hash_table_ s)) by lia.
    destruct (Rehash_over s Hwf Hgt' Hnew)
      as (table' & HR & Hsize & Hperm & Hmem).
    destruct (IH {| growth_factor_ := growth_factor_ s;
                    max_load_factor_ := max_load_factor_ s;
                    num_elements_ := num_elements_ s;
                    num_stripes_ := num_stripes_ s;
                    locks_ := locks_ s;
                    hash_table_ := table' |})
      as (s' & b' & HI & Hhead & Hperm' & Hsz & Hwf' & Hpl' & Hg').
    + cbn [num_elements_ hash_table_]. rewrite Hsize.
      rewrite <- Z.div_div by lia.
      assert (num_elements_ s / vector_size (hash_table_ s) / growth_factor_ s
              < num_elements_ s / vector_size (hash_table_ s))
        by (apply Z.div_lt; lia).
      assert (0 <= num_elements_ s / vector_size (hash_table_ s) / growth_factor_ s)
        by (apply Z.div_pos; lia).
      lia.
    + unfold wf. cbn. rewrite Hsize. repeat split; try assumption; lia.
    + intros i x Hin. cbn [hash_table_] in *. rewrite Hsize.
      apply Hmem in Hin as [_ ->]. reflexivity.
    + exact Hg.
    + exact Hfit.
    + unfold members. cbn [hash_table_]. rewrite Hperm. exact Hnot.
    + exists s', b'.
      split; [rewrite (Insert_retry s v b Hwf Hb (S k) Hvb Hgt'), HR; exact HI |].
      split; [exact Hhead |].
      split; [rewrite Hperm'; unfold members at 1; cbn [hash_table_];
              rewrite Hperm; reflexivity |].
      split; [exact Hsz |]. split; [exact Hwf' |]. split; [exact Hpl' | exact Hg'].
Qed.

(** C4, amended: in a set between two calls (at least one stripe, every
    element in the bucket of its hash), [Insert(v)] returns false and
    changes nothing when [v] is present.  When [v] is absent and the load
    factor does not exceed the maximum, it returns true, having put [v] in
    front of bucket [hash(v) mod capacity] and incremented the counter,
    nothing else having changed.  When [v] is absent and the load factor
    exceeds the maximum, the call is [Rehash] followed by the same [Insert]
    on the state [Rehash] returned, nothing else having changed; with a
    growth factor of at least 2 and [size * growth_factor] below [2^64] it
    returns true, [v] is the first element of bucket [hash(v) mod capacity]
    of the final table, the elements are those from before plus [v] once,
    and [Size] has grown by one. *)
Theorem Insert_spec (s : StripedHashSet L) (v lf : Z) :
  wf s -> placed hash (hash_table_ s) -> GetLoadFactor s = Done lf ->
  (v ∈ members s -> forall fuel, Insert hash (S fuel) s v = Done (false, s)) /\
  (v ∉ members s -> lf <= max_load_factor_ s ->
   exists (s' : StripedHashSet L) (b : list Z),
     (forall fuel, Insert hash (S fuel) s v = Done (true, s')) /\
     hash_table_ s !! slot hash (vector_size (hash_table_ s)) v = Some b /\
     hash_table_ s'
       = <[slot hash (vector_size (hash_table_ s)) v := v :: b]> (hash_table_ s) /\
     members s' ≡ₚ v :: members s /\
     Size s' = fetch_add (Size s)) /\
  (v ∉ members s -> max_load_factor_ s < lf ->
   (forall fuel,
      Insert hash (S fuel) s v = (s_r ← Rehash hash s; Insert hash fuel s_r v)) /\
   (2 <= growth_factor_ s -> num_elements_ s * growth_factor_ s < 2 ^ 64 ->
    exists (fuel : nat) (s' : StripedHashSet L) (b : list Z),
      Insert hash fuel s v = Done (true, s') /\
      hash_table_ s' !! slot hash (vector_size (hash_table_ s')) v = Some (v :: b) /\
      members s' ≡ₚ v :: members s /\
      Size s' = Size s + 1)).
Proof.
  intros Hwf Hplaced Hlf.
  destruct (bucket_exists s v Hwf) as (b & Hb).
  pose proof (placed_member _ v b Hplaced Hb) as Hmem.
  assert (Heq : lf = num_elements_ s / vector_size (hash_table_ s)).
  { unfold GetLoadFactor in Hlf.
    destruct (vector_size (hash_table_ s) =? 0); [discriminate |].
    injection Hlf as <-. reflexivity. }
  subst lf.
  assert (Hvb : v ∉ members s -> v ∉ b)
    by (intros Hnot Hin; apply Hnot; apply Hmem; exact Hin).
  split; [| split].
  - intros Hin fuel. apply (Insert_found s v b Hwf Hb). apply Hmem. exact Hin.
  - intros Hnot Hle. eexists. exists b.
    split; [intros fuel; exact (Insert_push s v b Hwf Hb fuel (Hvb Hnot) Hle) |].
    split; [exact Hb |]. split; [reflexivity |].
    split; [| reflexivity].
    unfold members. cbn [hash_table_]. apply concat_push. exact Hb.
  - intros Hnot Hgt. split.
    + intros fuel. exact (Insert_retry s v b Hwf Hb fuel (Hvb Hnot) Hgt).
    + intros Hg Hfit.
      destruct (Insert_total v _ s (le_n _) Hwf Hplaced Hg Hfit Hnot)
        as (s' & b' & HI & Hhead & Hperm & Hsz & _).
      eexists. exists s', b'. repeat split; eassumption.
Qed.

(** ** The invariant *)

Lemma filter_all (P : Z -> Prop) `{forall x, Decision (P x)} (l : list Z) :
  Forall P l -> filter P l = l.
Proof.
  induction 1 as [|x l Hx _ IH]; [reflexivity |].
  rewrite filter_cons_True by exact Hx. rewrite IH. reflexivity.
Qed.

Lemma NoDup_remove_one (l : list Z) (v : Z) :
  NoDup l -> v ∈ l -> l ≡ₚ v :: filter (fun x => x <> v) l.
Proof.
  intros Hnd Hin. apply NoDup_Permutation; [exact Hnd | |].
  - apply NoDup_cons. split; [| apply NoDup_filter; exact Hnd].
    intros Hv. apply list_elem_of_filter in Hv as [Hv _]. apply Hv. reflexivity.
  - intros x. rewrite elem_of_cons, list_elem_of_filter. split.
    + intros Hx. destruct (decide (x = v)) as [-> | Hne]; [left; reflexivity |].
      right. split; assumption.
    + intros [-> | [_ Hx]]; assumption.
Qed.

Lemma concat_filter_bucket (table : list (list Z)) (v : Z) :
  forall (i : nat) (b : list Z),
    table !! i = Some b ->
    (forall j b', j <> i -> table !! j = Some b' -> v ∉ b') ->
    concat (<[i := filter (fun x => x <> v) b]> table)
      = filter (fun x => x <> v) (concat table).
Proof.
  induction table as [|b0 table IH]; intros [|i] b Hi Hother; simpl in Hi;
    try discriminate; simpl; rewrite filter_app.
  - injection Hi as ->. f_equal. symmetry. apply filter_all.
    apply Forall_forall. intros x Hx ->.
    apply elem_of_concat in Hx as (b' & Hx & Hb').
    apply list_elem_of_lookup in Hb' as (j & Hj).
    apply (Hother (S j) b'); [discriminate | exact Hj | exact Hx].
  - rewrite (IH i b Hi).
    + f_equal. symmetry. apply filter_all. apply Forall_forall. intros x Hx ->.
      apply (Hother 0%nat b0); [discriminate | reflexivity | exact Hx].
    + intros j b' Hj Hb'. apply (Hother (S j) b'); [lia | exact Hb'].
Qed.

Lemma Inv_new (concurrency_level growth_factor : Z) (load_factor : Q)
    (s : StripedHashSet L) :
  0 < concurrency_level ->
  StripedHashSet_new concurrency_level growth_factor load_factor = Done s ->
  Inv hash s /\ growth_factor_ s = growth_factor /\ Size s = 0 /\ members s = [].
Proof.
  intros Hcl Hnew. unfold StripedHashSet_new in Hnew.
  apply bind_Done in Hnew as (m & Hm & Hnew). injection Hnew as <-.
  assert (Hm0 : 0 <= m).
  { unfold double_to_size_t in Hm.
    destruct (Z.leb_spec 0 (Qnum load_factor ÷ Z.pos (Qden load_factor)));
      [| discriminate].
    destruct (_ <=? size_t_max); [| discriminate]. injection Hm as <-. assumption. }
  assert (Hempty : concat (replicate (Z.to_nat concurrency_level) (@nil Z)) = [])
    by apply concat_replicate_nil.
  unfold Inv, wf, members, Size, vector_size. cbn. rewrite Hempty, length_replicate.
  repeat split; try reflexivity; try lia.
  - intros i x Hin. apply in_bucket_no_bucket in Hin. destruct Hin.
  - apply NoDup_nil_2.
Qed.

Lemma Contains_Inv (s : StripedHashSet L) (v : Z) :
  Inv hash s -> Contains hash s v = Done (bool_decide (v ∈ members s), s).
Proof.
  intros (Hwf & Hplaced & _). destruct (Contains_spec s v Hwf) as (b & Hb & ->).
  do 2 f_equal. apply bool_decide_ext. symmetry.
  apply placed_member; assumption.
Qed.

Lemma Insert_Inv (s : StripedHashSet L) (v : Z) (fuel : nat) :
  Inv hash s -> 2 <= growth_factor_ s ->
  (num_elements_ s + 1) * growth_factor_ s < 2 ^ 64 ->
  (Z.to_nat (num_elements_ s / vector_size (hash_table_ s)) < fuel)%nat ->
  exists s' : StripedHashSet L,
    Insert hash fuel s v = Done (bool_decide (v ∉ members s), s') /\
    Inv hash s' /\ growth_factor_ s' = growth_factor_ s /\
    (forall x, x ∈ members s' <-> x ∈ members s \/ x = v) /\
    Size s' = if bool_decide (v ∉ members s) then fetch_add (Size s) else Size s.
Proof.
  intros (Hwf & Hplaced & Hnd & Hn) Hg Hfit Hfuel.
  pose proof Hwf as (_ & _ & _ & _ & Hcount).
  destruct fuel as [|k]; [lia |].
  destruct (decide (v ∈ members s)) as [Hin | Hnot].
  - exists s. rewrite bool_decide_eq_false_2 by (intros Hnot; apply Hnot; exact Hin).
    destruct (bucket_exists s v Hwf) as (b & Hb).
    split; [apply (Insert_found s v b Hwf Hb);
            apply (placed_member _ v b Hplaced Hb); exact Hin |].
    split; [exact (conj Hwf (conj Hplaced (conj Hnd Hn))) |]. split; [reflexivity |].
    split; [| reflexivity].
    intros x. split; [intros Hx; left; exact Hx | intros [Hx | ->]; assumption].
  - rewrite bool_decide_eq_true_2 by exact Hnot.
    destruct (Insert_total v k s) as (s' & b & HI & _ & Hperm & Hsz & Hwf' & Hpl' & Hg');
      try assumption; [lia | nia |].
    exists s'. split; [exact HI |].
    split; [| split; [exact Hg' | split]].
    + split; [exact Hwf' |]. split; [exact Hpl' |]. split.
      * rewrite Hperm. apply NoDup_cons. split; assumption.
      * unfold Size in Hsz. rewrite Hsz, Hn. rewrite Hperm. simpl. lia.
    + intros x. rewrite Hperm, elem_of_cons. tauto.
    + rewrite Hsz. unfold fetch_add, Size. symmetry. apply wrap_small. nia.
Qed.

Lemma Remove_Inv (s : StripedHashSet L) (v : Z) :
  Inv hash s ->
  exists s' : StripedHashSet L,
    Remove hash s v = Done (bool_decide (v ∈ members s), s') /\
    Inv hash s' /\ growth_factor_ s' = growth_factor_ s /\
    members s' = filter (fun x => x <> v) (members s) /\
    Size s' = if bool_decide (v ∈ members s) then fetch_sub (Size s) else Size s.
Proof.
  intros (Hwf & Hplaced & Hnd & Hn).
  pose proof Hwf as (Hns & Hlocks & Hcap & Hmax & Hcount).
  destruct write_lock_unlock as (held & Hf & Hg).
  destruct (stripe_and_bucket s v WriteLock WriteUnlock held Hwf Hf Hg)
    as (si & l1 & b & Hsi & Hlock & Hunlock & Hbi & Hat & Hb & _).
  pose proof (placed_member _ v b Hplaced Hb) as Hmem.
  unfold Remove. cbv zeta.
  rewrite Hsi, bind_Done_l, Hlock, bind_Done_l, Hbi, bind_Done_l, Hat, bind_Done_l.
  unfold found. fold (slot hash (vector_size (hash_table_ s)) v).
  destruct (decide (v ∈ members s)) as [Hin | Hnot].
  - rewrite (bool_decide_eq_true_2 (v ∈ b)) by (apply Hmem; exact Hin).
    rewrite (bool_decide_eq_true_2 (v ∈ members s)) by exact Hin.
    cbn [negb]. rewrite Hunlock, bind_Done_l. eexists. split; [reflexivity |].
    assert (Hconcat :
              concat (<[slot hash (vector_size (hash_table_ s)) v :=
                          forward_list_remove b v]> (hash_table_ s))
              = filter (fun x => x <> v) (members s)).
    { apply concat_filter_bucket; [exact Hb |].
      intros j b' Hj Hb' Hv. apply Hj. apply Hplaced. exists b'. split; assumption. }
    pose proof (NoDup_remove_one _ v Hnd Hin) as Hperm.
    apply Permutation_length in Hperm. simpl in Hperm.
    assert (Hsub : fetch_sub (num_elements_ s) = num_elements_ s - 1).
    { unfold fetch_sub. apply wrap_small. lia. }
    assert (Hsize : vector_size (<[slot hash (vector_size (hash_table_ s)) v :=
                                     forward_list_remove b v]> (hash_table_ s))
                    = vector_size (hash_table_ s)).
    { unfold vector_size at 1 3. rewrite length_insert. reflexivity. }
    unfold Inv, wf, Size.
    cbn [hash_table_ num_elements_ num_stripes_ locks_ max_load_factor_
         growth_factor_].
    unfold members at 1 2 3.
    cbn [hash_table_ num_elements_ num_stripes_ locks_ max_load_factor_
         growth_factor_].
    rewrite Hsize, Hconcat, Hsub.
    repeat split; try assumption; try lia.
    + intros i x (b' & Hb' & Hx). rewrite Hsize.
      apply Hplaced.
      apply list_lookup_insert_Some in Hb' as [(<- & <- & _) | (_ & Hb')].
      * exists b. split; [exact Hb |].
        apply list_elem_of_filter in Hx as [_ Hx]. exact Hx.
      * exists b'. split; assumption.
    + apply NoDup_filter. exact Hnd.
  - rewrite (bool_decide_eq_false_2 (v ∈ b))
      by (intros Hin; apply Hnot; apply Hmem; exact Hin).
    rewrite (bool_decide_eq_false_2 (v ∈ members s)) by exact Hnot.
    cbn [negb]. rewrite Hunlock, bind_Done_l, with_locks_id.
    exists s. split; [reflexivity |].
    split; [exact (conj Hwf (conj Hplaced (conj Hnd Hn))) |]. split; [reflexivity |].
    split; [| reflexivity]. symmetry. apply filter_all.
    apply Forall_forall. intros x Hx ->. contradiction.
Qed.

(** In a state that satisfies the invariant, [Size()] is the number of
    elements, the sum of the bucket lengths. *)

Lemma Size_sum_of_buckets (s : StripedHashSet L) :
  Inv hash s -> Size s = Z.of_nat (sum_list (length <$> hash_table_ s)).
Proof.
  intros (_ & _ & _ & Hn). unfold Size. rewrite Hn. f_equal. unfold members.
  induction (hash_table_ s) as [|b t IH]; [reflexivity |].
  simpl. rewrite length_app, IH. reflexivity.
Qed.

(** A sequence of calls on the striped set returns, keeps the invariant,
    and moves the counter by the successful insertions minus the
    successful removals. *)

Lemma run_Size (ops : list operation) (fuel : nat) :
  forall s : StripedHashSet L,
    Inv hash s -> 2 <= growth_factor_ s ->
    (Size s + Z.of_nat (length ops)) * growth_factor_ s < 2 ^ 64 ->
    (Z.to_nat (Size s) + length ops <= fuel)%nat ->
    exists (rs : list answer) (s' : StripedHashSet L),
      run hash fuel s ops = Done (rs, s') /\
      Inv hash s' /\
      Size s' = Size s + net_successes ops rs /\
      Size s' = Z.of_nat (sum_list (length <$> hash_table_ s')).
Proof.
  induction ops as [|o ops IH]; intros s HInv Hg Hfit Hfuel.
  - exists [], s. split; [reflexivity |]. split; [exact HInv |].
    split; [simpl; lia | apply Size_sum_of_buckets; exact HInv].
  - pose proof HInv as ((_ & _ & Hcap & _ & Hcount) & _ & _ & Hn).
    cbn [length] in Hfit, Hfuel. unfold Size in *.
    assert (Hquot : (Z.to_nat (num_elements_ s / vector_size (hash_table_ s))
                     < fuel)%nat).
    { assert (num_elements_ s / vector_size (hash_table_ s) <= num_elements_ s)
        by (apply Z.div_le_upper_bound; [lia | nia]).
      assert (0 <= num_elements_ s / vector_size (hash_table_ s))
        by (apply Z.div_pos; lia).
      lia. }
    assert (Hstep : exists (r : answer) (s1 : StripedHashSet L),
               step hash fuel s o = Done (r, s1) /\ Inv hash s1 /\
               growth_factor_ s1 = growth_factor_ s /\
               forall rs, num_elements_ s1 + net_successes ops rs
                          = num_elements_ s + net_successes (o :: ops) (r :: rs)).
    { destruct o as [v | v | v |]; cbn [step].
      - destruct (Insert_Inv s v fuel HInv Hg) as (s1 & HI & HInv1 & Hg1 & _ & Hsz);
          [nia | exact Hquot |].
        exists (Bool (bool_decide (v ∉ members s))), s1. rewrite HI.
        split; [reflexivity |]. split; [exact HInv1 |]. split; [exact Hg1 |].
        intros rs. unfold Size in Hsz. rewrite Hsz. cbn [net_successes].
        destruct (bool_decide (v ∉ members s)); [| reflexivity].
        unfold fetch_add. rewrite wrap_small by nia. lia.
      - destruct (Remove_Inv s v HInv) as (s1 & HR & HInv1 & Hg1 & _ & Hsz).
        exists (Bool (bool_decide (v ∈ members s))), s1. rewrite HR.
        split; [reflexivity |]. split; [exact HInv1 |]. split; [exact Hg1 |].
        intros rs. unfold Size in Hsz. rewrite Hsz. cbn [net_successes].
        destruct (bool_decide_reflect (v ∈ members s)) as [Hin | _]; [| reflexivity].
        assert (0 < length (members s))%nat
          by (destruct (members s); [apply elem_of_nil in Hin; destruct Hin
                                    | simpl; lia]).
        unfold fetch_sub. rewrite wrap_small by lia. lia.
      - exists (Bool (bool_decide (v ∈ members s))), s.
        rewrite (Contains_Inv s v HInv).
        split; [reflexivity |]. split; [exact HInv |]. split; reflexivity.
      - exists (Count (num_elements_ s)), s.
        split; [reflexivity |]. split; [exact HInv |]. split; reflexivity. }
    destruct Hstep as (r & s1 & Hs & HInv1 & Hg1 & Hnet).
    assert (Hle : num_elements_ s1 <= num_elements_ s + 1).
    { specialize (Hnet []). destruct o as [v | v | v |], r as [[|] | n];
        cbn [net_successes] in Hnet; lia. }
    pose proof HInv1 as ((_ & _ & _ & _ & Hcount1) & _).
    destruct (IH s1 HInv1) as (rs & s' & Hrun & HInv' & Hsz' & Hsum');
      [lia | rewrite Hg1; nia | lia |].
    exists (r :: rs), s'. cbn [run]. rewrite Hs. cbn. rewrite Hrun. cbn.
    split; [reflexivity |]. split; [exact HInv' |]. split; [| exact Hsum'].
    unfold Size in Hsz'. rewrite Hsz'. apply Hnet.
Qed.

(** [Insert] takes the resize path when the integer quotient exceeds the
    integer maximum, which is when the count has reached
    [(max + 1) * capacity]. *)

Lemma resize_condition (n capacity m : Z) :
  0 < capacity -> (m < n / capacity <-> (m + 1) * capacity <= n).
Proof.
  intros Hc. split.
  - intros Hlt. pose proof (Z.mul_div_le n capacity Hc). nia.
  - intros Hle. assert (m + 1 <= n / capacity); [| lia].
    apply Z.div_le_lower_bound; [exact Hc | lia].
Qed.

End Facts.

(** ** StripedHashSet<int>(4), with the default growth and load factors *)

Lemma wf_eight_in_four : wf eight_in_four.
Proof. unfold wf. repeat split; try reflexivity; discriminate. Qed.

Lemma placed_eight_in_four : placed std_hash (hash_table_ eight_in_four).
Proof.
  intros i x (b & Hb & Hx). cbn in Hb.
  do 4 (destruct i as [|i];
        [ injection Hb as <-;
          repeat (apply elem_of_cons in Hx as [-> | Hx]; [reflexivity |]);
          apply elem_of_nil in Hx; destruct Hx
        | ]).
  discriminate.
Qed.

Lemma eight_in_four_reached :
  StripedHashSet_new (L := bool) 4 2 (5 # 4) = Done empty_in_four /\
  run std_hash 1 empty_in_four (OpInsert <$> [0; 1; 2; 3; 4; 5; 6; 7])
    = Done (replicate 8 (Bool true), eight_in_four).
Proof. split; vm_compute; reflexivity. Qed.


Lemma Insert_spec_witness :
  wf eight_in_four /\ placed std_hash (hash_table_ eight_in_four) /\
  GetLoadFactor eight_in_four = Done 2 /\
  (8 ∉ members eight_in_four) /\
  max_load_factor_ eight_in_four < 2 /\
  2 <= growth_factor_ eight_in_four /\
  num_elements_ eight_in_four * growth_factor_ eight_in_four < 2 ^ 64 /\
  exists fuel s' b,
    Insert std_hash fuel eight_in_four 8 = Done (true, s') /\
    hash_table_ s' !! slot std_hash (vector_size (hash_table_ s')) 8 = Some (8 :: b) /\
    members s' ≡ₚ 8 :: members eight_in_four /\
    Size s' = Size eight_in_four + 1.
Proof.
  assert (Hnot : 8 ∉ members eight_in_four).
  { cbn. intros Hin.
    repeat (apply elem_of_cons in Hin as [Hin | Hin]; [discriminate |]).
    apply elem_of_nil in Hin. exact Hin. }
  split; [exact wf_eight_in_four |]. split; [exact placed_eight_in_four |].
  split; [reflexivity |]. split; [exact Hnot |]. split; [reflexivity |].
  split; [discriminate |]. split; [reflexivity |].
  destruct (Insert_spec std_hash eight_in_four 8 2 wf_eight_in_four
              placed_eight_in_four eq_refl) as (_ & _ & Hover).
  destruct (Hover Hnot eq_refl) as [_ Hex].
  apply Hex; [discriminate | reflexivity].
Defined.

(** ** Growth factors below 2, and a capacity that overflows *)

Lemma two_in_one_reached (g : Z) :
  exists s0 : StripedHashSet bool,
    StripedHashSet_new 1 g (5 # 4) = Done s0 /\
    run std_hash 1 s0 [OpInsert 0; OpInsert 1]
      = Done ([Bool true; Bool true], StripedBounds.two_in_one g).
Proof. eexists. split; reflexivity. Qed.

Lemma eight_in_four_grown_reached (g : Z) :
  exists s0 : StripedHashSet bool,
    StripedHashSet_new 4 g (5 # 4) = Done s0 /\
    run std_hash 1 s0 (OpInsert <$> [0; 1; 2; 3; 4; 5; 6; 7])
      = Done (replicate 8 (Bool true),
              StripedBounds.with_growth_factor eight_in_four g).
Proof. eexists. split; reflexivity. Qed.

Lemma wf_two_in_one (g : Z) : wf (StripedBounds.two_in_one g).
Proof. unfold wf. repeat split; try reflexivity; discriminate. Qed.

Lemma wf_two_in_one_again : wf StripedBounds.two_in_one_again.
Proof. unfold wf. repeat split; try reflexivity; discriminate. Qed.

Lemma wf_eight_in_four_grown (g : Z) :
  wf (StripedBounds.with_growth_factor eight_in_four g).
Proof. unfold wf. repeat split; try reflexivity; discriminate. Qed.

Lemma two_not_in (b : list Z) : b = [1; 0] \/ b = [0; 1] -> 2 ∉ b.
Proof.
  intros [-> | ->] Hin;
    repeat (apply elem_of_cons in Hin as [Hin | Hin]; [discriminate |]);
    apply elem_of_nil in Hin; exact Hin.
Qed.

Lemma Rehash_growth_factor_zero :
  Rehash std_hash (StripedBounds.two_in_one 0) = Undefined.
Proof. vm_compute. reflexivity. Qed.

Lemma Insert_growth_factor_zero (fuel : nat) :
  Insert std_hash (S fuel) (StripedBounds.two_in_one 0) 2 = Undefined.
Proof.
  rewrite (Insert_retry std_hash (StripedBounds.two_in_one 0) 2 [1; 0]
             (wf_two_in_one 0) eq_refl fuel).
  - rewrite Rehash_growth_factor_zero. reflexivity.
  - apply two_not_in. left. reflexivity.
  - reflexivity.
Qed.

Lemma Rehash_growth_factor_one :
  Rehash std_hash (StripedBounds.two_in_one 1) = Done StripedBounds.two_in_one_again /\
  Rehash std_hash StripedBounds.two_in_one_again = Done (StripedBounds.two_in_one 1).
Proof. split; vm_compute; reflexivity. Qed.

Lemma Insert_growth_factor_one (fuel : nat) :
  Insert std_hash fuel (StripedBounds.two_in_one 1) 2 = Spins.
Proof.
  assert (Hboth : Insert std_hash fuel (StripedBounds.two_in_one 1) 2 = Spins /\
                  Insert std_hash fuel StripedBounds.two_in_one_again 2 = Spins);
    [| exact (proj1 Hboth)].
  destruct Rehash_growth_factor_one as [Hthere Hback].
  induction fuel as [|fuel [IHa IHb]]; [split; reflexivity |]. split.
  - rewrite (Insert_retry std_hash (StripedBounds.two_in_one 1) 2 [1; 0]
               (wf_two_in_one 1) eq_refl fuel).
    + rewrite Hthere. exact IHb.
    + apply two_not_in. left. reflexivity.
    + reflexivity.
  - rewrite (Insert_retry std_hash StripedBounds.two_in_one_again 2 [0; 1]
               wf_two_in_one_again eq_refl fuel).
    + rewrite Hback. exact IHa.
    + apply two_not_in. right. reflexivity.
    + reflexivity.
Qed.

Lemma Rehash_capacity_wraps :
  wrap (vector_size (hash_table_ eight_in_four) * 2 ^ 62) = 0 /\
  Rehash std_hash (StripedBounds.with_growth_factor eight_in_four (2 ^ 62)) = Undefined.
Proof. split; vm_compute; reflexivity. Qed.

Lemma Insert_capacity_wraps (fuel : nat) :
  Insert std_hash (S fuel) (StripedBounds.with_growth_factor eight_in_four (2 ^ 62)) 8
    = Undefined.
Proof.
  rewrite (Insert_retry std_hash (StripedBounds.with_growth_factor eight_in_four (2 ^ 62))
             8 [4; 0] (wf_eight_in_four_grown _) eq_refl fuel).
  - rewrite (proj2 Rehash_capacity_wraps). reflexivity.
  - intros Hin.
    repeat (apply elem_of_cons in Hin as [Hin | Hin]; [discriminate |]).
    apply elem_of_nil in Hin. exact Hin.
  - reflexivity.
Qed.

Lemma Insert_no_stripes (fuel : nat) :
  StripedHashSet_new (L := bool) 0 2 (5 # 4) = Done StripedBounds.no_stripes /\
  Insert std_hash (S fuel) StripedBounds.no_stripes 7 = Undefined.
Proof. split; reflexivity. Qed.

(** C4, as stated, fails where the constructor was given no stripe, and
    on the resize path for three kinds of growth factor.
    [StripedHashSet<int>(0)]: [Insert(7)] computes [hash % 0].
    [StripedHashSet<int>(1, 0)] holding 0 and 1: [Insert(2)] calls
    [Rehash], which makes a table of no bucket and computes [hash % 0].
    [StripedHashSet<int>(1, 1)] holding 0 and 1: [Rehash] makes one bucket
    again, and [Insert(2)] calls itself without end.
    [StripedHashSet<int>(4, 2^62)] holding [0..7]: the new capacity
    [4 * 2^62] wraps to 0, and [Insert(8)] computes [hash % 0]. *)
Lemma Insert_fails_to_add :
  (StripedHashSet_new (L := bool) 0 2 (5 # 4) = Done StripedBounds.no_stripes /\
   forall fuel, Insert std_hash (S fuel) StripedBounds.no_stripes 7 = Undefined) /\
  ((exists s0 : StripedHashSet bool,
      StripedHashSet_new 1 0 (5 # 4) = Done s0 /\
      run std_hash 1 s0 [OpInsert 0; OpInsert 1]
        = Done ([Bool true; Bool true], StripedBounds.two_in_one 0)) /\
   forall fuel, Insert std_hash (S fuel) (StripedBounds.two_in_one 0) 2 = Undefined) /\
  ((exists s0 : StripedHashSet bool,
      StripedHashSet_new 1 1 (5 # 4) = Done s0 /\
      run std_hash 1 s0 [OpInsert 0; OpInsert 1]
        = Done ([Bool true; Bool true], StripedBounds.two_in_one 1)) /\
   forall fuel, Insert std_hash fuel (StripedBounds.two_in_one 1) 2 = Spins) /\
  ((exists s0 : StripedHashSet bool,
      StripedHashSet_new 4 (2 ^ 62) (5 # 4) = Done s0 /\
      run std_hash 1 s0 (OpInsert <$> [0; 1; 2; 3; 4; 5; 6; 7])
        = Done (replicate 8 (Bool true),
                StripedBounds.with_growth_factor eight_in_four (2 ^ 62))) /\
   forall fuel,
     Insert std_hash (S fuel) (StripedBounds.with_growth_factor eight_in_four (2 ^ 62)) 8
       = Undefined).
Proof.
  split; [split; [reflexivity | intros fuel; exact (proj2 (Insert_no_stripes fuel))] |].
  split; [split; [exact (two_in_one_reached 0) | exact Insert_growth_factor_zero] |].
  split; [split; [exact (two_in_one_reached 1) | exact Insert_growth_factor_one] |].
  split; [exact (eight_in_four_grown_reached (2 ^ 62)) | exact Insert_capacity_wraps].
Qed.


(** ** The load factor *)

(** C2 fails on the code: [GetLoadFactor] returns [std::size_t] and the
    maximum is stored in a [std::size_t], so the default 1.25 becomes 1
    and the quotient loses its fraction.  [StripedHashSet<int>(4)] holding
    [0..5] has load factor 6/4 = 1.5 > 1.25, yet [GetLoadFactor] yields 1
    and [Insert(6)] pushes the element without resizing: the table still
    has 4 buckets. *)
Theorem no_resize_above_real_load_factor :
  StripedHashSet_new 4 2 (5 # 4) = Done empty_in_four /\
  max_load_factor_ empty_in_four = 1 /\
  run std_hash 1 empty_in_four (OpInsert <$> [0; 1; 2; 3; 4; 5])
    = Done (replicate 6 (Bool true), six_in_four) /\
  Size six_in_four = 6 /\ vector_size (hash_table_ six_in_four) = 4 /\
  (5 # 4 < 6 # 4)%Q /\
  GetLoadFactor six_in_four = Done 1 /\
  Insert std_hash 1 six_in_four 6 = Done (true, seven_in_four) /\
  vector_size (hash_table_ seven_in_four) = 4 /\
  Size seven_in_four = 7.
Proof. repeat split; vm_compute; reflexivity. Qed.

End StripedFacts.

(** * The two sets side by side *)

Section Agreement.

Context `{ET : ElementTraits} {L : Type} `{Striped.StripeLock L}
        `{!Striped.StripeLockLaws L}.

Variable hash : Z -> Z.

Lemma same_contents_length (l : Linked.OptimisticLinkedSet)
    (s : Striped.StripedHashSet L) (vs : list Z) :
  Striped.Inv hash s -> vs ≡ₚ Striped.members s ->
  Z.of_nat (length vs) = Striped.Size s /\
  Striped.Size s / Striped.vector_size (Striped.hash_table_ s) <= Striped.Size s.
Proof.
  intros ((_ & _ & Hcap & _ & Hcount) & _ & _ & Hn) Hperm.
  apply Permutation_length in Hperm. unfold Striped.Size. split; [lia |].
  apply Z.div_le_upper_bound; [lia | nia].
Qed.

Lemma same_members (vs ms vs' ms' : list Z) :
  NoDup vs' -> NoDup ms' -> vs ≡ₚ ms ->
  (forall x, x ∈ vs' <-> x ∈ ms') -> vs' ≡ₚ ms'.
Proof. intros Hv Hm _ Hiff. apply NoDup_Permutation; assumption. Qed.

Lemma step_agrees (l : Linked.OptimisticLinkedSet) (s : Striped.StripedHashSet L)
    (o : operation) (fuel : nat) :
  same_contents hash l s -> ordinary o ->
  2 <= Striped.growth_factor_ s ->
  (Striped.Size s + 1) * Striped.growth_factor_ s < 2 ^ 64 ->
  (Z.to_nat (Striped.Size s) < fuel)%nat ->
  exists (r : answer) (l' : Linked.OptimisticLinkedSet) (s' : Striped.StripedHashSet L),
    Linked.step fuel l o = Done (r, l') /\
    Striped.step hash fuel s o = Done (r, s') /\
    same_contents hash l' s' /\
    Striped.growth_factor_ s' = Striped.growth_factor_ s /\
    Striped.Size s' <= Striped.Size s + 1.
Proof.
  intros (vs & HRep & HInv & Hperm & Hsize) Hord Hg Hfit Hfuel.
  destruct (same_contents_length l s vs HInv Hperm) as [Hlen Hquot].
  pose proof HInv as ((_ & _ & _ & _ & Hcount) & _ & Hnd & _).
  assert (Hfuel_l : (length vs < fuel)%nat) by lia.
  assert (Hmem : forall x, x ∈ vs <-> x ∈ Striped.members s)
    by (intros x; rewrite Hperm; reflexivity).
  destruct o as [v | v | v |]; cbn [ordinary] in Hord.
  - (* Insert *)
    destruct (LinkedFacts.Insert_Rep l vs v fuel HRep) as
      (bl & l' & vs' & HI & HRep' & Hmem' & Hbl & _ & Hsz'); [split; lia | exact Hfuel_l |].
    destruct (StripedFacts.Insert_Inv hash s v fuel HInv Hg Hfit) as
      (s' & HIs & HInv' & Hg' & Hmems' & Hszs').
    { unfold Striped.Size in *. apply Z2Nat.inj_le in Hquot; [lia | | lia].
      apply Z.div_pos; [lia |]. destruct HInv as ((_ & _ & Hcap & _) & _). exact Hcap. }
    assert (Hb : bl = bool_decide (v ∉ Striped.members s)).
    { destruct bl.
      - symmetry. apply bool_decide_eq_true_2. intros Hin.
        destruct Hbl as [Hbl _]. destruct (Hbl eq_refl) as [Hnot _].
        apply Hnot. apply Hmem. exact Hin.
      - symmetry. apply bool_decide_eq_false_2. intros Hnot.
        destruct Hbl as [_ Hbl]. assert (false = true); [| discriminate].
        apply Hbl. split; [| lia]. intros Hin. apply Hnot. apply Hmem. exact Hin. }
    exists (Bool bl), l', s'. cbn [Linked.step Striped.step].
    rewrite HI, HIs, <- Hb. split; [reflexivity |]. split; [reflexivity |].
    split; [| split; [exact Hg' |]].
    + exists vs'. split; [exact HRep' |]. split; [exact HInv' |]. split.
      * apply NoDup_Permutation.
        -- exact (LinkedFacts.Rep_NoDup l' vs' HRep').
        -- destruct HInv' as (_ & _ & Hnd' & _). exact Hnd'.
        -- intros x. rewrite Hmem', Hmems', Hmem. split.
           ++ intros [Hx | [-> _]]; [left; exact Hx | right; reflexivity].
           ++ intros [Hx | ->]; [left; exact Hx | right; split; [reflexivity | lia]].
      * rewrite Hsz', Hszs', <- Hb, Hsize. reflexivity.
    + rewrite Hszs'. destruct (bool_decide (v ∉ Striped.members s)); [| lia].
      unfold fetch_add. rewrite wrap_small; [lia |]. unfold Striped.Size in *. nia.
  - (* Remove *)
    destruct (LinkedFacts.Remove_Rep l vs v fuel HRep) as
      (bl & l' & vs' & HR & HRep' & Hmem' & Hbl & _ & Hsz');
      [split; lia | lia | exact Hfuel_l |].
    destruct (StripedFacts.Remove_Inv hash s v HInv) as
      (s' & HRs & HInv' & Hg' & Hmems' & Hszs').
    assert (Hb : bl = bool_decide (v ∈ Striped.members s)).
    { destruct bl.
      - symmetry. apply bool_decide_eq_true_2. apply Hmem. apply Hbl. reflexivity.
      - symmetry. apply bool_decide_eq_false_2. intros Hin.
        assert (false = true); [| discriminate]. apply Hbl. apply Hmem. exact Hin. }
    exists (Bool bl), l', s'. cbn [Linked.step Striped.step].
    rewrite HR, HRs, <- Hb. split; [reflexivity |]. split; [reflexivity |].
    split; [| split; [exact Hg' |]].
    + exists vs'. split; [exact HRep' |]. split; [exact HInv' |]. split.
      * apply NoDup_Permutation.
        -- exact (LinkedFacts.Rep_NoDup l' vs' HRep').
        -- destruct HInv' as (_ & _ & Hnd' & _). exact Hnd'.
        -- intros x. rewrite Hmem', Hmems', list_elem_of_filter, Hmem. tauto.
      * rewrite Hsz', Hszs', <- Hb, Hsize. reflexivity.
    + destruct HInv' as (_ & _ & _ & Hn'). destruct HInv as (_ & _ & _ & Hn).
      unfold Striped.Size. rewrite Hn', Hn, Hmems'.
      pose proof (length_filter (fun x => x <> v) (Striped.members s)). lia.
  - (* Contains *)
    exists (Bool (bool_decide (v ∈ Striped.members s))), l, s.
    cbn [Linked.step Striped.step].
    rewrite (LinkedFacts.Contains_Rep l vs v fuel HRep) by (try split; lia).
    rewrite (StripedFacts.Contains_Inv hash s v HInv).
    split.
    { cbn. do 3 f_equal. apply bool_decide_ext. rewrite Hmem. split.
      - intros [Hx | ->]; [exact Hx | lia].
      - intros Hx. left. exact Hx. }
    split; [reflexivity |]. split; [| split; [reflexivity | lia]].
    exists vs. split; [exact HRep |]. split; [exact HInv |]. split; assumption.
  - (* Size *)
    exists (Count (Striped.Size s)), l, s. cbn [Linked.step Striped.step].
    rewrite Hsize. split; [reflexivity |]. split; [reflexivity |].
    split; [| split; [reflexivity | lia]].
    exists vs. split; [exact HRep |]. split; [exact HInv |]. split; assumption.
Qed.

Lemma run_agrees (ops : list operation) (fuel : nat) :
  forall (l : Linked.OptimisticLinkedSet) (s : Striped.StripedHashSet L),
    same_contents hash l s -> Forall ordinary ops ->
    2 <= Striped.growth_factor_ s ->
    (Striped.Size s + Z.of_nat (length ops)) * Striped.growth_factor_ s < 2 ^ 64 ->
    (Z.to_nat (Striped.Size s) + length ops <= fuel)%nat ->
    exists (rs : list answer) (l' : Linked.OptimisticLinkedSet)
           (s' : Striped.StripedHashSet L),
      Linked.run fuel l ops = Done (rs, l') /\
      Striped.run hash fuel s ops = Done (rs, s') /\
      same_contents hash l' s'.
Proof.
  induction ops as [|o ops IH]; intros l s Hsame Hord Hg Hfit Hfuel.
  - exists [], l, s. repeat split; try reflexivity. exact Hsame.
  - apply Forall_cons in Hord as [Ho Hord].
    assert (Hsize0 : 0 <= Striped.Size s).
    { destruct Hsame as (_ & _ & ((_ & _ & _ & _ & Hcount) & _) & _).
      unfold Striped.Size. lia. }
    cbn [length] in Hfit, Hfuel.
    destruct (step_agrees l s o fuel Hsame Ho Hg) as
      (r & l1 & s1 & Hl & Hs & Hsame1 & Hg1 & Hsz1); [nia | lia |].
    assert (Hsize1 : 0 <= Striped.Size s1).
    { destruct Hsame1 as (_ & _ & ((_ & _ & _ & _ & Hcount) & _) & _).
      unfold Striped.Size. lia. }
    destruct (IH l1 s1 Hsame1 Hord) as (rs & l' & s' & Hl' & Hs' & Hsame');
      [lia | rewrite Hg1; nia | lia |].
    exists (r :: rs), l', s'. cbn [Linked.run Striped.run].
    rewrite Hl, Hs. cbn. rewrite Hl', Hs'. cbn.
    repeat split; try reflexivity. exact Hsame'.
Qed.

(** C8, amended: a freshly constructed linked set and a freshly
    constructed striped set (at least one stripe, growth factor at least
    2) return the same answers to every sequence of [Insert], [Remove],
    [Contains] and [Size] calls whose arguments are values of the element
    type other than [Max], the number of calls times the growth factor
    being below [2^64]. *)
Theorem sets_agree (arena : list Linked.Node)
    (concurrency_level growth_factor : Z) (load_factor : Q)
    (l0 : Linked.OptimisticLinkedSet) (s0 : Striped.StripedHashSet L)
    (ops : list operation) :
  Linked.OptimisticLinkedSet_new arena = Done l0 ->
  Striped.StripedHashSet_new concurrency_level growth_factor load_factor = Done s0 ->
  0 < concurrency_level -> 2 <= growth_factor ->
  Z.of_nat (length ops) * growth_factor < 2 ^ 64 ->
  Forall ordinary ops ->
  exists (rs : list answer) (l' : Linked.OptimisticLinkedSet)
         (s' : Striped.StripedHashSet L),
    Linked.run (length ops) l0 ops = Done (rs, l') /\
    Striped.run hash (length ops) s0 ops = Done (rs, s').
Proof.
  intros Hl0 Hs0 Hcl Hg Hfit Hord.
  destruct (StripedFacts.Inv_new hash concurrency_level growth_factor load_factor
              s0 Hcl Hs0) as (HInv & Hg0 & Hsize0 & Hmembers0).
  assert (Hsame : same_contents hash l0 s0).
  { exists []. split; [apply (LinkedFacts.Rep_new arena); exact Hl0 |].
    split; [exact HInv |]. split; [rewrite Hmembers0; reflexivity |].
    rewrite LinkedFacts.new_arena in Hl0. injection Hl0 as <-.
    rewrite Hsize0. reflexivity. }
  destruct (run_agrees ops (length ops) l0 s0 Hsame Hord) as
    (rs & l' & s' & Hl & Hs & _).
  - rewrite Hg0. exact Hg.
  - rewrite Hg0, Hsize0. exact Hfit.
  - rewrite Hsize0. simpl. lia.
  - exists rs, l', s'. split; assumption.
Qed.

End Agreement.

Lemma sets_agree_witness :
  exists rs l' s',
    Linked.run 6 Linked.empty_int_set
      [OpInsert 5; OpInsert 3; OpInsert 5; OpContains 3; OpRemove 5; OpSize]
      = Done (rs, l') /\
    Striped.run Striped.std_hash 6 Striped.empty_in_four
      [OpInsert 5; OpInsert 3; OpInsert 5; OpContains 3; OpRemove 5; OpSize]
      = Done (rs, s').
Proof.
  apply (sets_agree (ET := int_traits) Striped.std_hash [] 4 2 (5 # 4)
           Linked.empty_int_set Striped.empty_in_four
           [OpInsert 5; OpInsert 3; OpInsert 5; OpContains 3; OpRemove 5; OpSize]).
  - reflexivity.
  - reflexivity.
  - reflexivity.
  - discriminate.
  - reflexivity.
  - repeat constructor; discriminate.
Defined.

(** On freshly constructed sets of [int], the call [Contains(INT_MAX)]
    returns false on the striped set and true on the linked set, which
    finds the value in its tail sentinel; [Insert(INT_MAX)] returns true on
    the striped set and false on the linked set. *)
Lemma Contains_Max_differs :
  Striped.StripedHashSet_new 4 2 (5 # 4) = Done Striped.empty_in_four /\
  Striped.run Striped.std_hash 1 Striped.empty_in_four [OpContains (2 ^ 31 - 1)]
    = Done ([Bool false], Striped.empty_in_four) /\
  Linked.OptimisticLinkedSet_new (H := int_traits) [] = Done Linked.empty_int_set /\
  Linked.run 1 Linked.empty_int_set [OpContains (2 ^ 31 - 1)]
    = Done ([Bool true], Linked.empty_int_set) /\
  Striped.run Striped.std_hash 1 Striped.empty_in_four [OpInsert (2 ^ 31 - 1)]
    = Done ([Bool true],
            Striped.four_buckets 1 [[]; []; []; [2 ^ 31 - 1]]) /\
  Linked.run 1 Linked.empty_int_set [OpInsert (2 ^ 31 - 1)]
    = Done ([Bool false], Linked.empty_int_set).
Proof. repeat split; vm_compute; reflexivity. Qed.

(** C8, as stated, fails on freshly constructed sets of [int], in four
    ways.  For the value [INT_MAX], [Contains] returns false on the striped
    set and true on the linked set, and [Insert] true on the striped set
    and false on the linked one.  On [StripedHashSet<int>(0)] every call is
    undefined, [Contains(5)] for one, which is false on the linked set.  On
    [StripedHashSet<int>(1, 1)] the third of [Insert(0)], [Insert(1)],
    [Insert(2)] never returns, and on [StripedHashSet<int>(4, 2^62)] the
    ninth of [Insert(0)] ... [Insert(8)] computes [hash % 0]; the linked
    set returns true every time. *)
Lemma sets_differ :
  (Striped.StripedHashSet_new 4 2 (5 # 4) = Done Striped.empty_in_four /\
   Striped.run Striped.std_hash 1 Striped.empty_in_four [OpContains (2 ^ 31 - 1)]
     = Done ([Bool false], Striped.empty_in_four) /\
   Linked.OptimisticLinkedSet_new (H := int_traits) [] = Done Linked.empty_int_set /\
   Linked.run 1 Linked.empty_int_set [OpContains (2 ^ 31 - 1)]
     = Done ([Bool true], Linked.empty_int_set) /\
   Striped.run Striped.std_hash 1 Striped.empty_in_four [OpInsert (2 ^ 31 - 1)]
     = Done ([Bool true],
             Striped.four_buckets 1 [[]; []; []; [2 ^ 31 - 1]]) /\
   Linked.run 1 Linked.empty_int_set [OpInsert (2 ^ 31 - 1)]
     = Done ([Bool false], Linked.empty_int_set)) /\
  (Striped.StripedHashSet_new (L := bool) 0 2 (5 # 4) = Done StripedBounds.no_stripes /\
   (forall fuel,
      Striped.run Striped.std_hash fuel StripedBounds.no_stripes [OpContains 5]
        = Undefined) /\
   Linked.run 1 Linked.empty_int_set [OpContains 5]
     = Done ([Bool false], Linked.empty_int_set)) /\
  ((exists s0 : Striped.StripedHashSet bool,
      Striped.StripedHashSet_new 1 1 (5 # 4) = Done s0 /\
      Striped.run Striped.std_hash 1 s0 [OpInsert 0; OpInsert 1]
        = Done ([Bool true; Bool true], StripedBounds.two_in_one 1)) /\
   (forall fuel,
      Striped.Insert Striped.std_hash fuel (StripedBounds.two_in_one 1) 2 = Spins) /\
   exists l' : Linked.OptimisticLinkedSet,
     Linked.run 3 Linked.empty_int_set [OpInsert 0; OpInsert 1; OpInsert 2]
       = Done ([Bool true; Bool true; Bool true], l')) /\
  ((exists s0 : Striped.StripedHashSet bool,
      Striped.StripedHashSet_new 4 (2 ^ 62) (5 # 4) = Done s0 /\
      Striped.run Striped.std_hash 1 s0 (OpInsert <$> [0; 1; 2; 3; 4; 5; 6; 7])
        = Done (replicate 8 (Bool true),
                StripedBounds.with_growth_factor Striped.eight_in_four (2 ^ 62))) /\
   (forall fuel,
      Striped.Insert Striped.std_hash (S fuel)
        (StripedBounds.with_growth_factor Striped.eight_in_four (2 ^ 62)) 8
        = Undefined) /\
   exists l' : Linked.OptimisticLinkedSet,
     Linked.run 9 Linked.empty_int_set (OpInsert <$> [0; 1; 2; 3; 4; 5; 6; 7; 8])
       = Done (replicate 9 (Bool true), l')).
Proof.
  split; [exact Contains_Max_differs |].
  split; [split; [reflexivity |]; split; [intros fuel; reflexivity | reflexivity] |].
  split.
  - split; [exact (StripedFacts.two_in_one_reached 1) |].
    split; [exact StripedFacts.Insert_growth_factor_one |].
    eexists. vm_compute. reflexivity.
  - split; [exact (StripedFacts.eight_in_four_grown_reached (2 ^ 62)) |].
    split; [exact StripedFacts.Insert_capacity_wraps |].
    eexists. vm_compute. reflexivity.
Qed.

Module StripedContract.

Import Striped StripedFacts StripedBounds.

Section Contract.

Context {L : Type} `{StripeLock L} `{!StripeLockLaws L}.

Variable hash : Z -> Z.

(** What [Remove] returns in a state between two calls, given the bucket
    of the element. *)

Lemma Remove_result (s : StripedHashSet L) (v : Z) (b : list Z) :
  wf s ->
  hash_table_ s !! slot hash (vector_size (hash_table_ s)) v = Some b ->
  Remove hash s v =
    if found b v
    then Done (true, {| growth_factor_ := growth_factor_ s;
                        max_load_factor_ := max_load_factor_ s;
                        num_elements_ := fetch_sub (num_elements_ s);
                        num_stripes_ := num_stripes_ s;
                        locks_ := locks_ s;
                        hash_table_ :=
                          <[slot hash (vector_size (hash_table_ s)) v :=
                              forward_list_remove b v]> (hash_table_ s) |})
    else Done (false, s).
Proof.
  intros Hwf Hb. destruct write_lock_unlock as (held & Hf & Hg).
  destruct (stripe_and_bucket hash s v WriteLock WriteUnlock held Hwf Hf Hg)
    as (si & l1 & b' & Hsi & Hlock & Hunlock & Hbi & Hat & Hb' & _).
  rewrite Hb in Hb'. injection Hb' as <-.
  unfold Remove. cbv zeta.
  rewrite Hsi, bind_Done_l, Hlock, bind_Done_l, Hbi, bind_Done_l, Hat, bind_Done_l.
  destruct (found b v); cbn [negb]; rewrite Hunlock, bind_Done_l.
  - reflexivity.
  - rewrite with_locks_id. reflexivity.
Qed.

Lemma Remove_absent (s : StripedHashSet L) (v : Z) :
  Inv hash s -> v ∉ members s -> Remove hash s v = Done (false, s).
Proof.
  intros (Hwf & Hplaced & _) Hnot.
  destruct (bucket_exists hash s v Hwf) as (b & Hb).
  rewrite (Remove_result s v b Hwf Hb). unfold found.
  rewrite bool_decide_eq_false_2; [reflexivity |].
  intros Hin. apply Hnot. apply (placed_member hash _ v b Hplaced Hb). exact Hin.
Qed.

(** X1: [Remove], in a state between two calls, returns true exactly when
    the element was present.  If it was absent the state is unchanged; if
    it was present, that element and no other is gone, [Size] has dropped
    by one, the number of buckets is the same, and the invariant holds
    again: every stripe lock is free, every element sits in its bucket, no
    element occurs twice and the counter is the number of elements. *)
Theorem Remove_contract (s : StripedHashSet L) (v : Z) :
  Inv hash s ->
  exists s' : StripedHashSet L,
    Remove hash s v = Done (bool_decide (v ∈ members s), s') /\
    Inv hash s' /\
    (v ∉ members s -> s' = s) /\
    (forall x, x ∈ members s' <-> x ∈ members s /\ x <> v) /\
    (v ∈ members s -> Size s' = Size s - 1) /\
    vector_size (hash_table_ s') = vector_size (hash_table_ s).
Proof.
  intros HInv. pose proof HInv as (Hwf & Hplaced & Hnd & Hn).
  destruct (Remove_Inv hash s v HInv) as (s' & HR & HInv' & _ & Hmem & Hsz).
  destruct (bucket_exists hash s v Hwf) as (b & Hb).
  pose proof (placed_member hash _ v b Hplaced Hb) as Hvb.
  pose proof (Remove_result s v b Hwf Hb) as Hres. rewrite HR in Hres.
  exists s'. split; [exact HR |]. split; [exact HInv' |].
  split; [| split; [| split]].
  - intros Hnot. unfold found in Hres.
    rewrite (bool_decide_eq_false_2 (v ∈ b)) in Hres
      by (intros Hin; apply Hnot; apply Hvb; exact Hin).
    injection Hres as _ ->. reflexivity.
  - intros x. rewrite Hmem, list_elem_of_filter. tauto.
  - intros Hin. rewrite Hsz, bool_decide_eq_true_2 by exact Hin.
    unfold fetch_sub, Size. rewrite Hn.
    assert (0 < length (members s))%nat
      by (destruct (members s); [apply elem_of_nil in Hin; destruct Hin
                                | simpl; lia]).
    destruct Hwf as (_ & _ & _ & _ & Hcount). rewrite Hn in Hcount.
    apply wrap_small. lia.
  - destruct (found b v); injection Hres as _ ->; [| reflexivity].
    unfold vector_size. cbn [hash_table_]. rewrite length_insert. reflexivity.
Qed.


(** X2: [Contains], between two calls, returns whether the element is in
    the one bucket [hash(element) mod capacity] and leaves the set as it
    was: the table, the counter and every lock.  When every element sits in
    the bucket its hash selects, that is membership in the set. *)
Theorem Contains_contract (s : StripedHashSet L) (v : Z) :
  wf s ->
  (exists b : list Z,
     hash_table_ s !! Z.to_nat (hash v mod vector_size (hash_table_ s)) = Some b /\
     Contains hash s v = Done (bool_decide (v ∈ b), s)) /\
  (placed hash (hash_table_ s) ->
   Contains hash s v = Done (bool_decide (v ∈ members s), s)).
Proof.
  intros Hwf. destruct (Contains_spec hash s v Hwf) as (b & Hb & HC). split.
  - exists b. split; [exact Hb | exact HC].
  - intros Hplaced. rewrite HC. do 2 f_equal. apply bool_decide_ext. symmetry.
    apply (placed_member hash); assumption.
Qed.

(** ** The constructor *)

Lemma double_to_size_t_floor (q : Q) :
  (0 <= q)%Q -> Qfloor q <= size_t_max ->
  double_to_size_t q = Done (Qfloor q).
Proof.
  destruct q as [n d]. unfold Qle, double_to_size_t, Qfloor. cbn [Qnum Qden].
  intros Hq Hmax. rewrite Z.mul_1_r in Hq. cbn in Hq.
  rewrite Z.quot_div_nonneg by lia.
  assert (0 <= n / Z.pos d) by (apply Z.div_pos; lia).
  destruct (Z.leb_spec 0 (n / Z.pos d)); [| lia].
  destruct (Z.leb_spec (n / Z.pos d) size_t_max); [reflexivity | lia].
Qed.

(** X3: the constructor, for a positive concurrency level and a load
    factor that is not negative and whose integer part fits [size_t],
    builds the empty set: as many buckets and as many locks as the
    concurrency level, the maximum load factor cut down to its integer
    part, [Size() = 0], the invariant, and [Contains] false for every
    value. *)
Theorem StripedHashSet_new_empty (concurrency_level growth_factor : Z)
    (load_factor : Q) :
  0 < concurrency_level -> (0 <= load_factor)%Q ->
  Qfloor load_factor <= size_t_max ->
  exists s : StripedHashSet L,
    StripedHashSet_new concurrency_level growth_factor load_factor = Done s /\
    Inv hash s /\
    vector_size (hash_table_ s) = concurrency_level /\
    vector_size (locks_ s) = concurrency_level /\
    max_load_factor_ s = Qfloor load_factor /\
    Size s = 0 /\
    forall v, Contains hash s v = Done (false, s).
Proof.
  intros Hcl Hlf Hmax.
  pose proof (double_to_size_t_floor load_factor Hlf Hmax) as Hm.
  eexists. split.
  { unfold StripedHashSet_new. rewrite Hm, bind_Done_l. reflexivity. }
  match goal with |- Inv hash ?s0 /\ _ => set (s := s0) end.
  destruct (Inv_new hash concurrency_level growth_factor load_factor s Hcl)
    as (HInv & _ & Hsize & Hmem).
  { unfold StripedHashSet_new. rewrite Hm, bind_Done_l. reflexivity. }
  split; [exact HInv |].
  split; [unfold vector_size, s; cbn; rewrite length_replicate; lia |].
  split; [unfold vector_size, s; cbn; rewrite length_replicate; lia |].
  split; [reflexivity |]. split; [exact Hsize |].
  intros v. rewrite (Contains_Inv hash s v HInv), Hmem.
  rewrite bool_decide_eq_false_2 by apply not_elem_of_nil. reflexivity.
Qed.

(** X4: on a set constructed with concurrency level 0, [Insert], [Remove]
    and [Contains] of any value are undefined ([GetStripeIndex] takes the
    hash modulo 0); [Size()] is 0. *)
Theorem zero_stripes_undefined (growth_factor : Z) (load_factor : Q)
    (s : StripedHashSet L) (v : Z) (fuel : nat) :
  StripedHashSet_new 0 growth_factor load_factor = Done s ->
  Insert hash (S fuel) s v = Undefined /\
  Remove hash s v = Undefined /\
  Contains hash s v = Undefined /\
  Size s = 0.
Proof.
  intros Hnew. unfold StripedHashSet_new in Hnew.
  apply bind_Done in Hnew as (m & _ & Hnew). injection Hnew as <-.
  repeat split.
Qed.

(** ** The growth factor *)

Lemma rehash_table_zero (table temp : list (list Z)) :
  concat table <> [] -> rehash_table hash 0 temp table = Undefined.
Proof.
  induction table as [|b rest IH]; intros Hne; [destruct Hne; reflexivity |].
  destruct b as [|item b]; [exact (IH Hne) | reflexivity].
Qed.

(** X5: with a growth factor of 0, [Rehash] of a set over its maximum
    load factor is undefined (the new table has no bucket, and the first
    element is placed by its hash modulo 0), and so is [Insert] of an
    absent element, which calls it. *)
Theorem growth_factor_zero_undefined (s : StripedHashSet L) (v : Z) (fuel : nat) :
  Inv hash s -> growth_factor_ s = 0 ->
  max_load_factor_ s < num_elements_ s / vector_size (hash_table_ s) ->
  Rehash hash s = Undefined /\
  (v ∉ members s -> Insert hash (S fuel) s v = Undefined).
Proof.
  intros (Hwf & Hplaced & Hnd & Hn) Hg Hgt.
  pose proof Hwf as (Hns & Hlocks & Hcap & Hmax & Hcount).
  assert (HR : Rehash hash s = Undefined).
  { destruct write_lock_unlock as (held & Hf & _).
    unfold Rehash, GetLoadFactor. rewrite Hlocks at 1.
    rewrite (on_all_locks_free WriteLock unlocked held _ Hf), bind_Done_l.
    destruct (Z.eqb_spec (vector_size (hash_table_ s)) 0) as [? | _]; [lia |].
    rewrite bind_Done_l.
    destruct (Z.leb_spec (num_elements_ s / vector_size (hash_table_ s))
                (max_load_factor_ s)) as [? | _]; [lia |].
    cbv zeta. rewrite Hg, Z.mul_0_r. change (wrap 0) with 0.
    rewrite rehash_table_zero; [reflexivity |].
    fold (members s). intros Hnil. rewrite Hnil in Hn. simpl in Hn.
    rewrite Hn, Z.div_0_l in Hgt by lia. lia. }
  split; [exact HR |]. intros Hnot.
  destruct (bucket_exists hash s v Hwf) as (b & Hb).
  rewrite (Insert_retry hash s v b Hwf Hb); [rewrite HR; reflexivity | | exact Hgt].
  intros Hin. apply Hnot. apply (placed_member hash _ v b Hplaced Hb). exact Hin.
Qed.

(** X6: with a growth factor of 1, [Insert] of an absent element into a
    set over its maximum load factor never returns: [Rehash] builds a table
    of the same size and [Insert] calls itself in the same situation. *)
Theorem growth_factor_one_never_returns (v : Z) (fuel : nat) :
  forall s : StripedHashSet L,
    Inv hash s -> growth_factor_ s = 1 -> v ∉ members s ->
    max_load_factor_ s < num_elements_ s / vector_size (hash_table_ s) ->
    Insert hash fuel s v = Spins.
Proof.
  induction fuel as [|fuel IH]; intros s HInv Hg Hnot Hgt; [reflexivity |].
  pose proof HInv as (Hwf & Hplaced & Hnd & Hn).
  pose proof Hwf as (Hns & Hlocks & Hcap & Hmax & Hcount).
  destruct (bucket_exists hash s v Hwf) as (b & Hb).
  assert (Hvb : v ∉ b)
    by (intros Hin; apply Hnot; apply (placed_member hash _ v b Hplaced Hb); exact Hin).
  assert (Hn' : vector_size (hash_table_ s) <= num_elements_ s).
  { destruct (Z_lt_le_dec (num_elements_ s) (vector_size (hash_table_ s)))
      as [Hlt | Hge]; [| exact Hge].
    rewrite Z.div_small in Hgt by lia. lia. }
  assert (Hnew : 0 < vector_size (hash_table_ s) * growth_factor_ s < 2 ^ 64)
    by (rewrite Hg; lia).
  destruct (Rehash_over hash s Hwf Hgt Hnew) as (table' & HR & Hsize & Hperm & Hmem).
  rewrite Hg, Z.mul_1_r in Hsize.
  rewrite (Insert_retry hash s v b Hwf Hb fuel Hvb Hgt), HR, bind_Done_l.
  apply IH.
  - split; [| split; [| split]].
    + unfold wf. cbn. rewrite Hsize. repeat split; try assumption; lia.
    + intros i x Hin. cbn [hash_table_] in *. rewrite Hsize.
      apply Hmem in Hin as [_ ->]. rewrite Hg, Z.mul_1_r. reflexivity.
    + unfold members. cbn [hash_table_]. rewrite Hperm. exact Hnd.
    + unfold members. cbn [hash_table_ num_elements_]. rewrite Hperm. exact Hn.
  - exact Hg.
  - unfold members. cbn [hash_table_]. rewrite Hperm. exact Hnot.
  - cbn [hash_table_ num_elements_ max_load_factor_]. rewrite Hsize. exact Hgt.
Qed.


(** ** The load of the table *)

Lemma Insert_load (v : Z) (fuel : nat) :
  forall (s s' : StripedHashSet L),
    wf s -> placed hash (hash_table_ s) ->
    2 <= growth_factor_ s ->
    num_elements_ s * growth_factor_ s < 2 ^ 64 ->
    num_elements_ s + 1 < 2 ^ 64 ->
    Insert hash fuel s v = Done (true, s') ->
    load_bounded s' /\ max_load_factor_ s' = max_load_factor_ s.
Proof.
  induction fuel as [|fuel IH]; intros s s' Hwf Hplaced Hg Hfit Hone HI;
    [discriminate |].
  pose proof Hwf as (Hns & Hlocks & Hcap & Hmax & Hcount).
  destruct (bucket_exists hash s v Hwf) as (b & Hb).
  rewrite (Insert_prefix hash s v b Hwf Hb) in HI.
  destruct (found b v); [discriminate |].
  destruct (Z.gtb_spec (num_elements_ s / vector_size (hash_table_ s))
              (max_load_factor_ s)) as [Hgt | Hle].
  - assert (Hn : vector_size (hash_table_ s) <= num_elements_ s).
    { destruct (Z_lt_le_dec (num_elements_ s) (vector_size (hash_table_ s)))
        as [Hlt | Hge]; [| exact Hge].
      rewrite Z.div_small in Hgt by lia. lia. }
    assert (Hnew : 0 < vector_size (hash_table_ s) * growth_factor_ s < 2 ^ 64) by nia.
    destruct (Rehash_over hash s Hwf Hgt Hnew) as (table' & HR & Hsize & Hperm & Hmem).
    rewrite HR, bind_Done_l in HI.
    match type of HI with
    | Insert _ _ ?s1 _ = _ =>
        apply (IH s1 s'); [| | exact Hg | exact Hfit | exact Hone | exact HI]
    end.
    + unfold wf. cbn. rewrite Hsize. repeat split; try assumption; lia.
    + intros i x Hin. cbn [hash_table_] in *. rewrite Hsize.
      apply Hmem in Hin as [_ ->]. reflexivity.
  - injection HI as <-. split; [| reflexivity]. unfold load_bounded, vector_size.
    cbn [num_elements_ max_load_factor_ hash_table_]. rewrite length_insert.
    fold (vector_size (hash_table_ s)).
    unfold fetch_add. rewrite wrap_small by lia.
    assert (num_elements_ s < (max_load_factor_ s + 1) * vector_size (hash_table_ s));
      [| lia].
    pose proof (resize_condition (num_elements_ s) _ (max_load_factor_ s) Hcap) as Hiff.
    destruct (Z_lt_le_dec (num_elements_ s)
                ((max_load_factor_ s + 1) * vector_size (hash_table_ s)))
      as [Hlt | Hge]; [exact Hlt |].
    apply Hiff in Hge. lia.
Qed.

Lemma step_load_bounded (s : StripedHashSet L) (o : operation) (fuel : nat) :
  Inv hash s -> load_bounded s -> 2 <= growth_factor_ s ->
  (num_elements_ s + 1) * growth_factor_ s < 2 ^ 64 ->
  (Z.to_nat (num_elements_ s) < fuel)%nat ->
  exists (r : answer) (s1 : StripedHashSet L),
    step hash fuel s o = Done (r, s1) /\ Inv hash s1 /\
    load_bounded s1 /\
    growth_factor_ s1 = growth_factor_ s /\
    max_load_factor_ s1 = max_load_factor_ s /\
    num_elements_ s1 <= num_elements_ s + 1.
Proof.
  intros HInv Hload Hg Hfit Hfuel.
  pose proof HInv as (Hwf & Hplaced & Hnd & Hn).
  pose proof Hwf as (Hns & Hlocks & Hcap & Hmax & Hcount).
  assert (Hquot : (Z.to_nat (num_elements_ s / vector_size (hash_table_ s))
                   < fuel)%nat).
  { assert (num_elements_ s / vector_size (hash_table_ s) <= num_elements_ s)
      by (apply Z.div_le_upper_bound; [lia | nia]).
    assert (0 <= num_elements_ s / vector_size (hash_table_ s))
      by (apply Z.div_pos; lia).
    lia. }
  destruct o as [v | v | v |]; cbn [step].
  - destruct (Insert_Inv hash s v fuel HInv Hg Hfit Hquot)
      as (s1 & HI & HInv1 & Hg1 & _ & Hsz).
    exists (Bool (bool_decide (v ∉ members s))), s1. rewrite HI.
    split; [reflexivity |]. split; [exact HInv1 |].
    unfold Size in Hsz. rewrite Hsz.
    destruct (bool_decide_reflect (v ∉ members s)) as [Hnot | Hin].
    + assert (Hadd : fetch_add (num_elements_ s) = num_elements_ s + 1)
        by (unfold fetch_add; apply wrap_small; nia).
      destruct (Insert_load v fuel s s1 Hwf Hplaced Hg) as [Hl1 Hm1];
        [nia | nia | exact HI |].
      split; [exact Hl1 |]. split; [exact Hg1 |]. split; [exact Hm1 | lia].
    + destruct (bucket_exists hash s v Hwf) as (b & Hb).
      destruct fuel as [|k]; [lia |].
      rewrite (Insert_found hash s v b Hwf Hb) in HI.
      * injection HI as <-.
        split; [exact Hload |]. split; [reflexivity |]. split; [reflexivity | lia].
      * apply (placed_member hash _ v b Hplaced Hb).
        destruct (decide (v ∈ members s)) as [Hyes | Hno]; [exact Hyes |].
        destruct (Hin Hno).
  - destruct (Remove_Inv hash s v HInv) as (s1 & HR & HInv1 & Hg1 & _ & Hsz).
    exists (Bool (bool_decide (v ∈ members s))), s1. rewrite HR.
    split; [reflexivity |]. split; [exact HInv1 |].
    destruct (bucket_exists hash s v Hwf) as (b & Hb).
    rewrite (Remove_result s v b Hwf Hb) in HR.
    assert (Hsub : found b v = true -> fetch_sub (num_elements_ s) = num_elements_ s - 1).
    { intros Hf. unfold found in Hf. apply bool_decide_eq_true in Hf.
      apply (placed_member hash _ v b Hplaced Hb) in Hf. fold (members s) in Hf.
      assert (0 < length (members s))%nat
        by (destruct (members s); [apply elem_of_nil in Hf; destruct Hf | simpl; lia]).
      unfold fetch_sub. apply wrap_small. lia. }
    destruct (found b v); injection HR as _ <-.
    + unfold load_bounded in *. unfold vector_size in *.
      cbn [num_elements_ max_load_factor_ hash_table_ growth_factor_].
      rewrite length_insert, Hsub by reflexivity.
      split; [lia |]. split; [reflexivity |]. split; [reflexivity | lia].
    + split; [exact Hload |]. split; [reflexivity |]. split; [reflexivity | lia].
  - exists (Bool (bool_decide (v ∈ members s))), s.
    rewrite (Contains_Inv hash s v HInv).
    split; [reflexivity |]. split; [exact HInv |]. split; [exact Hload |].
    split; [reflexivity |]. split; [reflexivity | lia].
  - exists (Count (num_elements_ s)), s.
    split; [reflexivity |]. split; [exact HInv |]. split; [exact Hload |].
    split; [reflexivity |]. split; [reflexivity | lia].
Qed.

(** X7: the load stays bounded.  From a state that satisfies the
    invariant and holds at most [max_load_factor_ + 1] elements per bucket
    on average, with a growth factor of at least 2, every sequence of calls
    so short that [(Size() + number of calls) * growth_factor] is below
    [2^64] returns and ends in such a state: [Size()] is at most
    [(max_load_factor_ + 1) * capacity]. *)
Theorem load_factor_bounded (ops : list operation) (fuel : nat) :
  forall s : StripedHashSet L,
    Inv hash s -> load_bounded s -> 2 <= growth_factor_ s ->
    (Size s + Z.of_nat (length ops)) * growth_factor_ s < 2 ^ 64 ->
    (Z.to_nat (Size s) + length ops <= fuel)%nat ->
    exists (rs : list answer) (s' : StripedHashSet L),
      run hash fuel s ops = Done (rs, s') /\
      Inv hash s' /\
      Size s' <= (max_load_factor_ s + 1) * vector_size (hash_table_ s').
Proof.
  induction ops as [|o ops IH]; intros s HInv Hload Hg Hfit Hfuel.
  - exists [], s. split; [reflexivity |]. split; [exact HInv | exact Hload].
  - pose proof HInv as ((Hns & Hlocks & Hcap & Hmax & Hcount) & Hplaced & Hnd & Hn).
    cbn [length] in Hfit, Hfuel. unfold Size in *.
    destruct (step_load_bounded s o fuel HInv Hload Hg)
      as (r & s1 & Hs & HInv1 & Hl1 & Hg1 & Hm1 & Hle); [nia | lia |].
    pose proof HInv1 as ((_ & _ & _ & _ & Hcount1) & _).
    destruct (IH s1 HInv1 Hl1) as (rs & s' & Hrun & HInv' & Hbound);
      [lia | rewrite Hg1; nia | lia |].
    exists (r :: rs), s'. cbn [run]. rewrite Hs. cbn. rewrite Hrun. cbn.
    split; [reflexivity |]. split; [exact HInv' |].
    rewrite <- Hm1. exact Hbound.
Qed.


(** ** Insert, Contains and Remove, one after the other *)

(** X8: in a state that satisfies the invariant, with a growth factor of
    at least 2 and [(Size() + 1) * growth_factor] below [2^64]: after
    [Insert(v)], whatever it returned, [Contains(v)] is true and a second
    [Insert(v)] returns false and changes nothing; [Remove(v)] then returns
    true, after which [Contains(v)] is false, a second [Remove(v)] returns
    false and changes nothing, and the elements are the ones from the start
    without [v]. *)
Theorem Insert_Contains_Remove (s : StripedHashSet L) (v : Z) (fuel : nat) :
  Inv hash s -> 2 <= growth_factor_ s ->
  (num_elements_ s + 1) * growth_factor_ s < 2 ^ 64 ->
  (Z.to_nat (num_elements_ s / vector_size (hash_table_ s)) < fuel)%nat ->
  exists s1 s2 : StripedHashSet L,
    Insert hash fuel s v = Done (bool_decide (v ∉ members s), s1) /\
    Contains hash s1 v = Done (true, s1) /\
    Insert hash fuel s1 v = Done (false, s1) /\
    Remove hash s1 v = Done (true, s2) /\
    Contains hash s2 v = Done (false, s2) /\
    Remove hash s2 v = Done (false, s2) /\
    (forall x, x ∈ members s2 <-> x ∈ members s /\ x <> v).
Proof.
  intros HInv Hg Hfit Hfuel.
  destruct (Insert_Inv hash s v fuel HInv Hg Hfit Hfuel)
    as (s1 & HI & HInv1 & _ & Hmem1 & _).
  assert (Hin1 : v ∈ members s1) by (apply Hmem1; right; reflexivity).
  destruct (Remove_Inv hash s1 v HInv1) as (s2 & HR & HInv2 & _ & Hfilter & _).
  assert (Hmem2 : forall x, x ∈ members s2 <-> (x ∈ members s1 /\ x <> v))
    by (intros x; rewrite Hfilter, list_elem_of_filter; tauto).
  assert (Hnot2 : v ∉ members s2) by (intros Hin; apply Hmem2 in Hin as [_ Hne];
                                      apply Hne; reflexivity).
  pose proof (Remove_absent s2 v HInv2 Hnot2) as HR2.
  exists s1, s2. split; [exact HI |].
  split; [rewrite (Contains_Inv hash s1 v HInv1), bool_decide_eq_true_2 by exact Hin1;
          reflexivity |].
  split.
  { pose proof HInv1 as (Hwf1 & Hplaced1 & _).
    destruct (bucket_exists hash s1 v Hwf1) as (b & Hb).
    destruct fuel as [|k]; [lia |].
    apply (Insert_found hash s1 v b Hwf1 Hb).
    apply (placed_member hash _ v b Hplaced1 Hb). exact Hin1. }
  split; [rewrite HR, bool_decide_eq_true_2 by exact Hin1; reflexivity |].
  split; [rewrite (Contains_Inv hash s2 v HInv2), bool_decide_eq_false_2 by exact Hnot2;
          reflexivity |].
  split; [exact HR2 |].
  intros x. rewrite Hmem2, Hmem1. split.
  - intros [[Hx | ->] Hne]; [split; assumption | destruct (Hne eq_refl)].
  - intros [Hx Hne]. split; [left; exact Hx | exact Hne].
Qed.

(** ** The counter *)

(** X9: on a newly constructed striped set with at least one stripe and
    a growth factor of at least 2, every sequence of calls so short that
    the number of calls times the growth factor is below [2^64] returns,
    and [Size()] then equals the successful insertions minus the
    successful removals, which is the number of elements, none of them
    stored twice, and the sum of the bucket lengths. *)
Theorem Size_counts_successes (concurrency_level growth_factor : Z)
    (load_factor : Q) (s0 : StripedHashSet L) (ops : list operation) :
  0 < concurrency_level -> 2 <= growth_factor ->
  StripedHashSet_new concurrency_level growth_factor load_factor = Done s0 ->
  Z.of_nat (length ops) * growth_factor < 2 ^ 64 ->
  exists (rs : list answer) (s' : StripedHashSet L),
    run hash (length ops) s0 ops = Done (rs, s') /\
    Size s' = net_successes ops rs /\
    Size s' = Z.of_nat (length (members s')) /\
    Size s' = Z.of_nat (sum_list (length <$> hash_table_ s')) /\
    NoDup (members s').
Proof.
  intros Hcl Hg Hnew Hfit.
  destruct (Inv_new hash _ _ _ s0 Hcl Hnew) as (HInv & Hg0 & Hsize & _).
  destruct (run_Size hash ops (length ops) s0 HInv) as (rs & s' & Hrun & HInv' & Hnet & Hsum).
  - rewrite Hg0. exact Hg.
  - rewrite Hsize, Hg0. exact Hfit.
  - rewrite Hsize. simpl. lia.
  - exists rs, s'. split; [exact Hrun |]. split; [rewrite Hnet, Hsize; lia |].
    destruct HInv' as (_ & _ & Hnd & Hn). split; [exact Hn |].
    split; [exact Hsum | exact Hnd].
Qed.

End Contract.

(** ** Examples *)

Ltac in_concrete_list H :=
  repeat (apply elem_of_cons in H as [H | H]; [try discriminate H | ]);
  try (apply elem_of_nil in H; destruct H).

Lemma Inv_eight_in_four : Inv std_hash eight_in_four.
Proof.
  split; [exact wf_eight_in_four |]. split; [exact placed_eight_in_four |].
  split; [| reflexivity].
  cbn. repeat (apply NoDup_cons; split;
               [intros Hin; in_concrete_list Hin |]).
  apply NoDup_nil_2.
Qed.


Lemma Inv_two_in_one (g : Z) : Inv std_hash (two_in_one g).
Proof.
  split; [| split; [| split; [| reflexivity]]].
  - unfold wf. cbn. repeat split; try reflexivity; lia.
  - intros i x (b & Hb & Hx). destruct i as [|i]; [| discriminate].
    unfold slot, vector_size. cbn. rewrite Z.mod_1_r. reflexivity.
  - cbn. repeat (apply NoDup_cons; split;
                 [intros Hin; in_concrete_list Hin |]).
    apply NoDup_nil_2.
Qed.

Lemma Inv_empty_in_four : Inv std_hash empty_in_four.
Proof.
  apply (Inv_new (L := bool) std_hash 4 2 (5 # 4)); [lia | reflexivity].
Qed.

Lemma Remove_contract_witness :
  Inv std_hash eight_in_four /\
  exists s' : StripedHashSet bool,
    Remove std_hash eight_in_four 3
      = Done (bool_decide (3 ∈ members eight_in_four), s') /\
    Inv std_hash s' /\
    (3 ∉ members eight_in_four -> s' = eight_in_four) /\
    (forall x, x ∈ members s' <-> x ∈ members eight_in_four /\ x <> 3) /\
    (3 ∈ members eight_in_four -> Size s' = Size eight_in_four - 1) /\
    vector_size (hash_table_ s') = vector_size (hash_table_ eight_in_four).
Proof.
  split; [exact Inv_eight_in_four |].
  exact (Remove_contract std_hash eight_in_four 3 Inv_eight_in_four).
Defined.

Lemma Contains_contract_witness :
  wf eight_in_four /\ placed std_hash (hash_table_ eight_in_four) /\
  Contains std_hash eight_in_four 6
    = Done (bool_decide (6 ∈ members eight_in_four), eight_in_four).
Proof.
  split; [exact wf_eight_in_four |]. split; [exact placed_eight_in_four |].
  exact (proj2 (Contains_contract std_hash eight_in_four 6 wf_eight_in_four)
           placed_eight_in_four).
Defined.

Lemma StripedHashSet_new_empty_witness :
  exists s : StripedHashSet bool,
    StripedHashSet_new 4 2 (5 # 4) = Done s /\
    Inv std_hash s /\
    vector_size (hash_table_ s) = 4 /\
    vector_size (locks_ s) = 4 /\
    max_load_factor_ s = Qfloor (5 # 4) /\
    Size s = 0 /\
    forall v, Contains std_hash s v = Done (false, s).
Proof.
  apply (StripedHashSet_new_empty (L := bool) std_hash 4 2 (5 # 4)).
  - lia.
  - discriminate.
  - discriminate.
Defined.

Lemma zero_stripes_undefined_witness :
  StripedHashSet_new 0 2 (5 # 4) = Done no_stripes /\
  Insert std_hash 1 no_stripes 7 = Undefined /\
  Remove std_hash no_stripes 7 = Undefined /\
  Contains std_hash no_stripes 7 = Undefined /\
  Size no_stripes = 0.
Proof.
  split; [reflexivity |].
  exact (zero_stripes_undefined std_hash 2 (5 # 4) no_stripes 7 0 eq_refl).
Defined.

Lemma not_in_two_in_one (g : Z) : 2 ∉ members (two_in_one g).
Proof. cbn. intros Hin. in_concrete_list Hin. Qed.

Lemma growth_factor_zero_undefined_witness :
  Inv std_hash (two_in_one 0) /\
  Rehash std_hash (two_in_one 0) = Undefined /\
  (2 ∉ members (two_in_one 0) -> Insert std_hash 1 (two_in_one 0) 2 = Undefined).
Proof.
  split; [exact (Inv_two_in_one 0) |].
  apply (growth_factor_zero_undefined std_hash (two_in_one 0) 2 0).
  - exact (Inv_two_in_one 0).
  - reflexivity.
  - reflexivity.
Defined.

Lemma growth_factor_one_never_returns_witness :
  Inv std_hash (two_in_one 1) /\ (2 ∉ members (two_in_one 1)) /\
  Insert std_hash 1000 (two_in_one 1) 2 = Spins.
Proof.
  split; [exact (Inv_two_in_one 1) |]. split; [exact (not_in_two_in_one 1) |].
  apply (growth_factor_one_never_returns std_hash 2 1000 (two_in_one 1)).
  - exact (Inv_two_in_one 1).
  - reflexivity.
  - exact (not_in_two_in_one 1).
  - reflexivity.
Defined.

Lemma load_factor_bounded_witness :
  exists (rs : list answer) (s' : StripedHashSet bool),
    run std_hash 9 empty_in_four (OpInsert <$> [0; 1; 2; 3; 4; 5; 6; 7; 8])
      = Done (rs, s') /\
    Inv std_hash s' /\
    Size s' <= (max_load_factor_ empty_in_four + 1) * vector_size (hash_table_ s').
Proof.
  apply (load_factor_bounded std_hash (OpInsert <$> [0; 1; 2; 3; 4; 5; 6; 7; 8]) 9
           empty_in_four).
  - exact Inv_empty_in_four.
  - unfold load_bounded. discriminate.
  - discriminate.
  - reflexivity.
  - vm_compute. lia.
Defined.

Lemma Insert_Contains_Remove_witness :
  exists s1 s2 : StripedHashSet bool,
    Insert std_hash 3 eight_in_four 8
      = Done (bool_decide (8 ∉ members eight_in_four), s1) /\
    Contains std_hash s1 8 = Done (true, s1) /\
    Insert std_hash 3 s1 8 = Done (false, s1) /\
    Remove std_hash s1 8 = Done (true, s2) /\
    Contains std_hash s2 8 = Done (false, s2) /\
    Remove std_hash s2 8 = Done (false, s2) /\
    (forall x, x ∈ members s2 <-> x ∈ members eight_in_four /\ x <> 8).
Proof.
  apply (Insert_Contains_Remove std_hash eight_in_four 8 3).
  - exact Inv_eight_in_four.
  - discriminate.
  - reflexivity.
  - vm_compute. lia.
Defined.

Lemma Size_counts_successes_witness :
  exists (rs : list answer) (s' : StripedHashSet bool),
    run std_hash 4 empty_in_four [OpInsert 1; OpInsert 1; OpRemove 1; OpSize]
      = Done (rs, s') /\
    Size s' = net_successes [OpInsert 1; OpInsert 1; OpRemove 1; OpSize] rs /\
    Size s' = Z.of_nat (length (members s')) /\
    Size s' = Z.of_nat (sum_list (length <$> hash_table_ s')) /\
    NoDup (members s').
Proof.
  apply (Size_counts_successes (L := bool) std_hash 4 2 (5 # 4) empty_in_four
           [OpInsert 1; OpInsert 1; OpRemove 1; OpSize]).
  - lia.
  - lia.
  - reflexivity.
  - reflexivity.
Defined.

End StripedContract.

Module LinkedContract.

Import Linked LinkedFacts LinkedArena.

(** ** What a call that returns has done to the arena *)

Lemma SpinLock_Lock_inv (a a' : Arena) (p : ptr) :
  SpinLock_Lock a p = Done a' ->
  exists i nd, p = Some i /\ a !! i = Some nd /\ lock_ nd = true /\
               a' = <[i := set_idle nd false]> a.
Proof.
  intros HL. unfold SpinLock_Lock in HL. bind_inv HL.
  apply deref_Done in Hx as (i & -> & Hi).
  destruct (lock_ x) eqn:Hidle; [| discriminate]. injection HL as <-.
  exists i, x. repeat split; assumption.
Qed.

Lemma Edge_Lock_inv (a a1 : Arena) (e : Edge) :
  Edge_Lock a e = Done a1 ->
  exists p c p0 c0,
    e = {| pred_ := Some p; curr_ := Some c |} /\
    a !! p = Some p0 /\ a !! c = Some c0 /\ p <> c /\
    lock_ p0 = true /\ lock_ c0 = true /\
    a1 = <[c := set_idle c0 false]> (<[p := set_idle p0 false]> a).
Proof.
  intros HL. unfold Edge_Lock in HL. bind_inv HL.
  apply SpinLock_Lock_inv in Hx as (p & p0 & Hpe & Hp & Hpl & ->).
  apply SpinLock_Lock_inv in HL as (c & c0 & Hce & Hc & Hcl & ->).
  assert (Hpc : p <> c).
  { intros <-. rewrite list_lookup_insert_eq in Hc by (eapply lookup_lt_Some; exact Hp).
    injection Hc as <-. discriminate. }
  rewrite list_lookup_insert_ne in Hc by exact Hpc.
  exists p, c, p0, c0. destruct e as [ep ec]. simpl in Hpe, Hce. subst ep ec.
  repeat split; assumption.
Qed.

Lemma Validate_true_inv (a : Arena) (e : Edge) :
  Validate a e = Done true ->
  exists p0 c0,
    deref a (pred_ e) = Done p0 /\ deref a (curr_ e) = Done c0 /\
    marked_ p0 = false /\ marked_ c0 = false /\ next_ p0 = curr_ e.
Proof.
  intros HV. unfold Validate in HV.
  apply bind_Done in HV as (p0 & Hp & HV).
  destruct (marked_ p0) eqn:Hpm; [discriminate |].
  apply bind_Done in HV as (c0 & Hc & HV).
  destruct (marked_ c0) eqn:Hcm; [discriminate |].
  rewrite Hp, bind_Done_l in HV. injection HV as HV.
  apply bool_decide_eq_true in HV.
  exists p0, c0. repeat split; assumption.
Qed.

(** Releasing an edge that was just locked gives the arena back. *)

Lemma Edge_Lock_Unlock_id (a a1 : Arena) (e : Edge) :
  Edge_Lock a e = Done a1 -> Edge_Unlock a1 e = Done a.
Proof.
  intros HL.
  apply Edge_Lock_inv in HL as (p & c & p0 & c0 & -> & Hp & Hc & Hpc & Hpl & Hcl & ->).
  assert (Hplt : (p < length a)%nat) by (eapply lookup_lt_Some; exact Hp).
  assert (Hclt : (c < length a)%nat) by (eapply lookup_lt_Some; exact Hc).
  unfold Edge_Unlock, SpinLock_Unlock. cbn [pred_ curr_ deref store].
  rewrite list_lookup_insert_eq by (rewrite length_insert; exact Hclt).
  rewrite bind_Done_l. cbn [store]. rewrite bind_Done_l.
  rewrite list_insert_insert_eq.
  rewrite list_lookup_insert_ne by (intros ->; apply Hpc; reflexivity).
  rewrite list_lookup_insert_eq by exact Hplt.
  rewrite bind_Done_l. cbn [store].
  rewrite (list_insert_insert_ne _ p c) by exact Hpc.
  rewrite list_insert_insert_eq.
  assert (Hp2 : set_idle (set_idle p0 false) true = p0)
    by exact (set_idle_twice p0 true Hpl).
  assert (Hc2 : set_idle (set_idle c0 false) true = c0)
    by exact (set_idle_twice c0 true Hcl).
  rewrite Hp2, Hc2.
  rewrite (list_insert_id _ p p0) by exact Hp.
  rewrite (list_insert_id _ c c0) by exact Hc. reflexivity.
Qed.

Lemma with_arena_same (s : OptimisticLinkedSet) : with_arena s (allocator_ s) = s.
Proof. destruct s. reflexivity. Qed.

(** One round of [Insert] or [Remove] that got past [Validate] ran on a
    sound edge. *)

Lemma validated_edge (a a1 : Arena) (e : Edge) :
  Edge_Lock a e = Done a1 -> Validate a1 e = Done true ->
  exists p c p0 c0,
    e = {| pred_ := Some p; curr_ := Some c |} /\
    a !! p = Some p0 /\ a !! c = Some c0 /\ p <> c /\
    lock_ p0 = true /\ lock_ c0 = true /\
    marked_ p0 = false /\ marked_ c0 = false /\ next_ p0 = Some c.
Proof.
  intros HL HV.
  apply Edge_Lock_inv in HL as (p & c & p0 & c0 & -> & Hp & Hc & Hpc & Hpl & Hcl & ->).
  apply Validate_true_inv in HV as (p1 & c1 & Hp1 & Hc1 & Hpm & Hcm & Hnext).
  cbn [pred_ curr_ deref] in Hp1, Hc1, Hnext.
  rewrite list_lookup_insert_ne in Hp1 by (intros ->; apply Hpc; reflexivity).
  rewrite list_lookup_insert_eq in Hp1 by (eapply lookup_lt_Some; exact Hp).
  rewrite list_lookup_insert_eq in Hc1
    by (rewrite length_insert; eapply lookup_lt_Some; exact Hc).
  injection Hp1 as <-. injection Hc1 as <-.
  exists p, c, p0, c0. repeat split; assumption.
Qed.

Lemma Locate_loop_stops (fuel : nat) (a : Arena) (v : Z) (e : Edge) :
  forall pred curr : ptr,
    Locate_loop fuel a v pred curr = Done e ->
    exists c0, deref a (curr_ e) = Done c0 /\ v <= element_ c0.
Proof.
  induction fuel as [|fuel IH]; intros pred curr HL; [discriminate |].
  cbn [Locate_loop] in HL. apply bind_Done in HL as (c0 & Hc & HL).
  destruct (Z.ltb_spec (element_ c0) v) as [Hlt | Hge].
  - exact (IH _ _ HL).
  - injection HL as <-. exists c0. split; [exact Hc | exact Hge].
Qed.

Lemma Locate_stops (fuel : nat) (s : OptimisticLinkedSet) (v : Z) (e : Edge) :
  Locate fuel s v = Done e ->
  exists c0, deref (allocator_ s) (curr_ e) = Done c0 /\ v <= element_ c0.
Proof.
  intros HL. unfold Locate in HL. apply bind_Done in HL as (h & _ & HL).
  exact (Locate_loop_stops _ _ _ _ _ _ HL).
Qed.

Lemma Insert_Done_inv (fuel : nat) (s s' : OptimisticLinkedSet) (v : Z) (b : bool) :
  Insert fuel s v = Done (b, s') ->
  exists p c p0 c0,
    allocator_ s !! p = Some p0 /\ allocator_ s !! c = Some c0 /\ p <> c /\
    lock_ p0 = true /\ lock_ c0 = true /\
    marked_ p0 = false /\ marked_ c0 = false /\ next_ p0 = Some c /\
    v <= element_ c0 /\
    (b, s') = (if element_ c0 =? v then (false, s)
               else (true,
                     {| allocator_ :=
                          <[p := set_next p0 (Some (length (allocator_ s)))]>
                            (allocator_ s ++ [Node_new v (Some c)]);
                        head_ := head_ s;
                        elements_ := fetch_add (elements_ s) |})).
Proof.
  induction fuel as [|fuel IH]; intros HI; [discriminate |].
  pose proof HI as HI0. rewrite Insert_unfold in HI.
  apply bind_Done in HI as (e & HL & HI).
  apply bind_Done in HI as (a1 & Hlock & HI).
  apply bind_Done in HI as (ok & HV & HI).
  destruct ok; cbn [negb] in HI.
  - destruct (validated_edge _ _ _ Hlock HV)
      as (p & c & p0 & c0 & -> & Hp & Hc & Hpc & Hpl & Hcl & Hpm & Hcm & Hnext).
    rewrite (Insert_on_edge s p c p0 c0 Hp Hc Hpc Hpl Hcl Hpm Hcm Hnext fuel v HL)
      in HI0.
    injection HI0 as Heq.
    exists p, c, p0, c0. repeat split; try assumption; [| symmetry; exact Heq].
    destruct (Locate_stops _ _ _ _ HL) as (c1 & Hc1 & Hle).
    cbn [curr_ deref] in Hc1. rewrite Hc in Hc1. injection Hc1 as <-. exact Hle.
  - apply bind_Done in HI as (a2 & Hunlock & HI).
    rewrite (Edge_Lock_Unlock_id _ _ _ Hlock) in Hunlock. injection Hunlock as <-.
    rewrite with_arena_same in HI. exact (IH HI).
Qed.


Lemma Remove_Done_inv (fuel : nat) (s s' : OptimisticLinkedSet) (v : Z) (b : bool) :
  Remove fuel s v = Done (b, s') ->
  exists p c p0 c0,
    allocator_ s !! p = Some p0 /\ allocator_ s !! c = Some c0 /\ p <> c /\
    lock_ p0 = true /\ lock_ c0 = true /\
    marked_ p0 = false /\ marked_ c0 = false /\ next_ p0 = Some c /\
    v <= element_ c0 /\
    (b, s') = (if element_ c0 =? v
               then (true,
                     {| allocator_ := <[p := set_next p0 (next_ c0)]> (allocator_ s);
                        head_ := head_ s;
                        elements_ := fetch_sub (elements_ s) |})
               else (false, s)).
Proof.
  induction fuel as [|fuel IH]; intros HR; [discriminate |].
  pose proof HR as HR0. rewrite Remove_unfold in HR.
  apply bind_Done in HR as (e & HL & HR).
  apply bind_Done in HR as (a1 & Hlock & HR).
  apply bind_Done in HR as (ok & HV & HR).
  destruct ok; cbn [negb] in HR.
  - destruct (validated_edge _ _ _ Hlock HV)
      as (p & c & p0 & c0 & -> & Hp & Hc & Hpc & Hpl & Hcl & Hpm & Hcm & Hnext).
    rewrite (Remove_on_edge s p c p0 c0 Hp Hc Hpc Hpl Hcl Hpm Hcm Hnext fuel v HL)
      in HR0.
    injection HR0 as Heq.
    exists p, c, p0, c0. repeat split; try assumption; [| symmetry; exact Heq].
    destruct (Locate_stops _ _ _ _ HL) as (c1 & Hc1 & Hle).
    cbn [curr_ deref] in Hc1. rewrite Hc in Hc1. injection Hc1 as <-. exact Hle.
  - apply bind_Done in HR as (a2 & Hunlock & HR).
    rewrite (Edge_Lock_Unlock_id _ _ _ Hlock) in Hunlock. injection Hunlock as <-.
    rewrite with_arena_same in HR. exact (IH HR).
Qed.

(** X10: what [Insert] writes, in any state.  When it returns, [head_]
    is unchanged.  False means the state is exactly as before.  True means
    the counter was incremented, one node holding the value and pointing to
    the located successor was appended to the arena, and the next pointer
    of the located predecessor now points to it; nothing else changed. *)
Theorem Insert_footprint (fuel : nat) (s s' : OptimisticLinkedSet) (v : Z) (b : bool) :
  Insert fuel s v = Done (b, s') ->
  head_ s' = head_ s /\
  (b = false -> s' = s) /\
  (b = true ->
   elements_ s' = fetch_add (elements_ s) /\
   exists (p c : nat) (p0 : Node),
     allocator_ s !! p = Some p0 /\ next_ p0 = Some c /\
     allocator_ s' =
       <[p := set_next p0 (Some (length (allocator_ s)))]>
         (allocator_ s ++ [Node_new v (Some c)])).
Proof.
  intros HI.
  destruct (Insert_Done_inv _ _ _ _ _ HI)
    as (p & c & p0 & c0 & Hp & Hc & Hpc & Hpl & Hcl & Hpm & Hcm & Hnext & _ & Heq).
  destruct (element_ c0 =? v); injection Heq as -> ->.
  - split; [reflexivity |]. split; [reflexivity | discriminate].
  - split; [reflexivity |]. split; [discriminate |]. intros _.
    split; [reflexivity |]. exists p, c, p0. repeat split; assumption.
Qed.

(** X11: what [Remove] writes, in any state.  When it returns, [head_]
    is unchanged.  False means the state is exactly as before.  True means
    the counter was decremented and the next pointer of the predecessor now
    holds the successor of the removed node; the removed node itself is
    still in the arena, as it was. *)
Theorem Remove_footprint (fuel : nat) (s s' : OptimisticLinkedSet) (v : Z) (b : bool) :
  Remove fuel s v = Done (b, s') ->
  head_ s' = head_ s /\
  (b = false -> s' = s) /\
  (b = true ->
   elements_ s' = fetch_sub (elements_ s) /\
   exists (p c : nat) (p0 c0 : Node),
     allocator_ s !! p = Some p0 /\ next_ p0 = Some c /\
     allocator_ s !! c = Some c0 /\ element_ c0 = v /\
     allocator_ s' = <[p := set_next p0 (next_ c0)]> (allocator_ s) /\
     allocator_ s' !! c = Some c0).
Proof.
  intros HR.
  destruct (Remove_Done_inv _ _ _ _ _ HR)
    as (p & c & p0 & c0 & Hp & Hc & Hpc & Hpl & Hcl & Hpm & Hcm & Hnext & _ & Heq).
  destruct (Z.eqb_spec (element_ c0) v) as [Hv | _]; injection Heq as -> ->.
  - split; [reflexivity |]. split; [discriminate |]. intros _.
    split; [reflexivity |]. exists p, c, p0, c0. cbn [allocator_].
    repeat split; try assumption.
    rewrite list_lookup_insert_ne by exact Hpc. exact Hc.
  - split; [reflexivity |]. split; [reflexivity | discriminate].
Qed.

(** ** Locks *)

(** X12: no [Insert] and no [Remove] returns holding a lock: when every
    [SpinLock] of the arena is idle before the call, every one is idle
    after it. *)
Theorem locks_released (fuel : nat) (s s' : OptimisticLinkedSet) (v : Z) (b : bool) :
  all_idle (allocator_ s) ->
  Insert fuel s v = Done (b, s') \/ Remove fuel s v = Done (b, s') ->
  all_idle (allocator_ s').
Proof.
  intros Hidle [HI | HR].
  - destruct (Insert_Done_inv _ _ _ _ _ HI)
      as (p & c & p0 & c0 & Hp & _ & _ & Hpl & _ & _ & _ & _ & _ & Heq).
    destruct (element_ c0 =? v); injection Heq as -> ->; [exact Hidle |].
    cbn [allocator_]. intros i nd Hi.
    apply list_lookup_insert_Some in Hi as [(_ & <- & _) | (_ & Hi)]; [exact Hpl |].
    apply lookup_app_Some in Hi as [Hi | [_ Hi]]; [exact (Hidle i nd Hi) |].
    apply list_lookup_singleton_Some in Hi as [_ <-]. reflexivity.
  - destruct (Remove_Done_inv _ _ _ _ _ HR)
      as (p & c & p0 & c0 & Hp & _ & _ & Hpl & _ & _ & _ & _ & _ & Heq).
    destruct (element_ c0 =? v); injection Heq as -> ->; [| exact Hidle].
    cbn [allocator_]. intros i nd Hi.
    apply list_lookup_insert_Some in Hi as [(_ & <- & _) | (_ & Hi)]; [exact Hpl |].
    exact (Hidle i nd Hi).
Qed.

(** ** The arena *)

Lemma extends_refl (a : Arena) : extends a a 0.
Proof.
  split; [lia |]. intros i nd Hi. exists nd. split; [exact Hi | reflexivity].
Qed.

Lemma extends_trans (a1 a2 a3 : Arena) (k1 k2 : nat) :
  extends a1 a2 k1 -> extends a2 a3 k2 -> extends a1 a3 (k1 + k2).
Proof.
  intros [Hl1 H1] [Hl2 H2]. split; [lia |]. intros i nd Hi.
  destruct (H1 i nd Hi) as (nd' & Hi' & He').
  destruct (H2 i nd' Hi') as (nd'' & Hi'' & He'').
  exists nd''. split; [exact Hi'' | congruence].
Qed.

Lemma extends_set_next (a : Arena) (p : nat) (p0 : Node) (q : ptr) :
  a !! p = Some p0 -> extends a (<[p := set_next p0 q]> a) 0.
Proof.
  intros Hp. split; [rewrite length_insert; lia |]. intros i nd Hi.
  destruct (decide (i = p)) as [-> | Hne].
  - rewrite Hp in Hi. injection Hi as <-. exists (set_next p0 q).
    split; [| reflexivity]. apply list_lookup_insert_eq. eapply lookup_lt_Some. exact Hp.
  - exists nd. split; [| reflexivity].
    rewrite list_lookup_insert_ne by (intros ->; apply Hne; reflexivity). exact Hi.
Qed.

Lemma extends_New (a : Arena) (nd : Node) : extends a (a ++ [nd]) 1.
Proof.
  split; [rewrite length_app; reflexivity |]. intros i nd' Hi.
  exists nd'. split; [apply lookup_app_l_Some; exact Hi | reflexivity].
Qed.

Lemma step_extends (fuel : nat) (s s' : OptimisticLinkedSet) (o : operation)
    (r : answer) :
  step fuel s o = Done (r, s') ->
  extends (allocator_ s) (allocator_ s') (successful_inserts [o] [r]).
Proof.
  intros Hs. destruct o as [v | v | v |]; cbn [step] in Hs.
  - apply bind_Done in Hs as ([b s1] & HI & Hs). injection Hs as <- <-.
    destruct (Insert_Done_inv _ _ _ _ _ HI)
      as (p & c & p0 & c0 & Hp & _ & _ & _ & _ & _ & _ & _ & _ & Heq).
    destruct (element_ c0 =? v); injection Heq as -> ->; [apply extends_refl |].
    cbn [allocator_ successful_inserts].
    apply (extends_trans _ (allocator_ s ++ [Node_new v (Some c)]) _ 1 0).
    + apply extends_New.
    + apply extends_set_next. apply lookup_app_l_Some. exact Hp.
  - apply bind_Done in Hs as ([b s1] & HR & Hs). injection Hs as <- <-.
    destruct (Remove_Done_inv _ _ _ _ _ HR)
      as (p & c & p0 & c0 & Hp & _ & _ & _ & _ & _ & _ & _ & _ & Heq).
    destruct (element_ c0 =? v); injection Heq as -> ->; [| apply extends_refl].
    cbn [allocator_ successful_inserts]. apply extends_set_next. exact Hp.
  - apply bind_Done in Hs as (b & _ & Hs). injection Hs as <- <-. apply extends_refl.
  - injection Hs as <- <-. apply extends_refl.
Qed.

Lemma successful_inserts_cons (o : operation) (r : answer) (ops : list operation)
    (rs : list answer) :
  successful_inserts (o :: ops) (r :: rs)
    = (successful_inserts [o] [r] + successful_inserts ops rs)%nat.
Proof. destruct o, r as [[|] | n]; reflexivity. Qed.

(** X13: the arena only grows.  After a sequence of calls that returns,
    from any state, every old node is at its old address with its old
    element, and the arena holds exactly one more node for each [Insert]
    that returned true. *)
Theorem arena_grows_with_inserts (fuel : nat) (ops : list operation) :
  forall (s s' : OptimisticLinkedSet) (rs : list answer),
    run fuel s ops = Done (rs, s') ->
    extends (allocator_ s) (allocator_ s') (successful_inserts ops rs).
Proof.
  induction ops as [|o ops IH]; intros s s' rs Hrun; cbn [run] in Hrun.
  - injection Hrun as <- <-. apply extends_refl.
  - apply bind_Done in Hrun as ([r s1] & Hs & Hrun).
    apply bind_Done in Hrun as ([rs1 s2] & Hrest & Hrun).
    injection Hrun as <- <-. rewrite successful_inserts_cons.
    exact (extends_trans _ _ _ _ _ (step_extends _ _ _ _ _ Hs) (IH _ _ _ Hrest)).
Qed.


(** X14: [Edge::Lock] returns only on two different nodes whose locks
    were idle, and leaves both held; locking the same edge again spins;
    [Edge::Unlock] gives back the arena from before the [Lock]. *)
Theorem Edge_Lock_then_Unlock (a a1 : Arena) (e : Edge) :
  Edge_Lock a e = Done a1 ->
  pred_ e <> curr_ e /\
  (exists p0 c0, deref a (pred_ e) = Done p0 /\ deref a (curr_ e) = Done c0 /\
                 lock_ p0 = true /\ lock_ c0 = true /\
                 deref a1 (pred_ e) = Done (set_idle p0 false) /\
                 deref a1 (curr_ e) = Done (set_idle c0 false)) /\
  Edge_Lock a1 e = Spins /\
  Edge_Unlock a1 e = Done a.
Proof.
  intros HL. pose proof (Edge_Lock_Unlock_id _ _ _ HL) as Hunlock.
  apply Edge_Lock_inv in HL as (p & c & p0 & c0 & -> & Hp & Hc & Hpc & Hpl & Hcl & ->).
  assert (Hp1 : <[c := set_idle c0 false]> (<[p := set_idle p0 false]> a) !! p
                = Some (set_idle p0 false)).
  { rewrite list_lookup_insert_ne by (intros ->; apply Hpc; reflexivity).
    apply list_lookup_insert_eq. eapply lookup_lt_Some. exact Hp. }
  assert (Hc1 : <[c := set_idle c0 false]> (<[p := set_idle p0 false]> a) !! c
                = Some (set_idle c0 false)).
  { apply list_lookup_insert_eq. rewrite length_insert. eapply lookup_lt_Some. exact Hc. }
  cbn [pred_ curr_]. split; [intros [= Heq]; exact (Hpc Heq) |].
  split; [| split; [| exact Hunlock]].
  - exists p0, c0. cbn [deref]. rewrite Hp, Hc, Hp1, Hc1. repeat split; assumption.
  - unfold Edge_Lock, SpinLock_Lock. cbn [pred_ deref]. rewrite Hp1. reflexivity.
Qed.

(** ** The set between two calls *)

Section Contract.

Context `{ET : ElementTraits}.

(** X15: the constructor, on any arena, appends the MIN and the MAX
    sentinel and leaves the older nodes alone; the set it returns is
    well-formed and empty: the chain reads [Min; Max], [Size()] is 0 and
    [Contains] is false for every value from [Min] up to [Max - 1]. *)
Theorem OptimisticLinkedSet_new_empty (a : Arena) :
  exists s : OptimisticLinkedSet,
    OptimisticLinkedSet_new a = Done s /\
    allocator_ s = a ++ [mkNode Min (Some (S (length a))) true false;
                         mkNode Max None true false] /\
    head_ s = Some (length a) /\
    Rep s [] /\
    Size s = 0 /\
    values 2 s = Done [Min; Max] /\
    forall v, Min <= v < Max -> Contains 1 s v = Done false.
Proof.
  eexists. split; [apply new_arena |]. split; [reflexivity |].
  split; [reflexivity |].
  assert (HRep : Rep {| allocator_ := a ++ [mkNode Min (Some (S (length a))) true false;
                                            mkNode Max None true false];
                        head_ := Some (length a);
                        elements_ := 0 |} [])
    by (apply (Rep_new a); apply new_arena).
  split; [exact HRep |]. split; [reflexivity |].
  split; [exact (Rep_values _ [] 2 HRep (le_n _)) |].
  intros v Hv. rewrite (Contains_Rep _ [] v 1 HRep); [| split; lia | simpl; lia].
  f_equal. apply bool_decide_eq_false_2. intros [Hin | ->]; [| lia].
  apply elem_of_nil in Hin. exact Hin.
Qed.

(** X16: [Locate(v)] on a well-formed chain, for [v <= Max], returns two
    adjacent, different nodes [pred -> curr]: [curr] is the first node
    behind the head whose element is at least [v].  [pred] is the head or
    holds a stored value below [v]; [curr] holds a stored value or is the
    MAX sentinel; every stored value is below [v] or at least the element
    of [curr]. *)
Theorem Locate_spec (s : OptimisticLinkedSet) (vs : list Z) (v : Z) (fuel : nat) :
  Rep s vs -> v <= Max -> (length vs < fuel)%nat ->
  exists (p c : nat) (p0 c0 : Node),
    Locate fuel s v = Done {| pred_ := Some p; curr_ := Some c |} /\
    allocator_ s !! p = Some p0 /\ allocator_ s !! c = Some c0 /\
    p <> c /\ next_ p0 = Some c /\
    (head_ s = Some p \/ (element_ p0 ∈ vs /\ element_ p0 < v)) /\
    v <= element_ c0 /\
    (element_ c0 ∈ vs \/ (element_ c0 = Max /\ next_ c0 = None)) /\
    (forall x, x ∈ vs -> x < v \/ element_ c0 <= x).
Proof.
  intros HRep Hv Hfuel.
  destruct (Rep_Locate s vs v fuel HRep Hv Hfuel)
    as (h & l1 & l0 & l2 & p & c & vp & vc & p0 & c0 & Hhead & Hprefix & Hnd & Hl0 &
        (Hp & Hpv & Hpl & Hpm & Hpn) & (Hc & Hcv & Hcl & Hcm) & Hl2 & Hvals &
        Hbelow & Hvc & HL).
  pose proof HRep as (_ & _ & _ & _ & _ & _ & Hsorted & _).
  rewrite <- Hvals in Hsorted.
  exists p, c, p0, c0. split; [exact HL |]. split; [exact Hp |]. split; [exact Hc |].
  split; [eapply located_ne; exact Hnd |]. split; [exact Hpn |].
  destruct (snoc_split _ _ _ _ _ Hvals) as (ys & Hys & Hvs).
  split; [| split; [rewrite Hcv; exact Hvc | split]].
  - assert (Hlast : last ((h, Min) :: l1) = Some (p, vp))
      by (rewrite Hprefix; apply last_snoc).
    rewrite last_cons in Hlast. destruct (last l1) as [x|] eqn:Hl1.
    + right. injection Hlast as ->. apply last_Some_elem_of in Hl1.
      assert (Hin : vp ∈ l1.*2).
      { apply list_elem_of_fmap. exists (p, vp). split; [reflexivity | exact Hl1]. }
      rewrite Hpv. split.
      * rewrite Hvs. apply elem_of_app. left. exact Hin.
      * rewrite Forall_forall in Hbelow. exact (Hbelow vp Hin).
    + left. injection Hlast as -> _. exact Hhead.
  - rewrite Hcv. destruct ys as [|y ys]; simpl in Hys.
    + right. injection Hys as -> Hl2nil.
      apply fmap_nil_inv in Hl2nil. subst l2. simpl in Hl2.
      split; [reflexivity | exact Hl2].
    + left. injection Hys as <- _. rewrite Hvs. apply elem_of_app. right.
      apply elem_of_cons. left. reflexivity.
  - intros x Hx.
    assert (Hx' : x ∈ l1.*2 ++ vc :: l2.*2)
      by (rewrite Hvals; apply elem_of_app; left; exact Hx).
    apply elem_of_app in Hx' as [Hx' | Hx'].
    + left. rewrite Forall_forall in Hbelow. exact (Hbelow x Hx').
    + right. rewrite Hcv. apply elem_of_cons in Hx' as [-> | Hx']; [lia |].
      apply StronglySorted_app_1_r in Hsorted.
      apply StronglySorted_cons in Hsorted as [Hall _].
      rewrite Forall_forall in Hall. specialize (Hall x Hx'). lia.
Qed.


Lemma same_elements_length (vs vs' : list Z) :
  NoDup vs -> NoDup vs' -> (forall x, x ∈ vs' <-> x ∈ vs) -> length vs' = length vs.
Proof.
  intros Hnd Hnd' Hsame. apply Permutation_length.
  apply NoDup_Permutation; assumption.
Qed.

(** X17: [Insert(v)] on a well-formed chain that holds [vs] returns true
    exactly when [v] is not among [vs] and is not [Max].  False leaves the
    state unchanged; true leaves a well-formed chain that holds [v] and
    [vs], with the counter incremented.  In both cases [Contains(v)] is
    true afterwards and a second [Insert(v)] returns false and changes
    nothing. *)
Theorem linked_Insert_contract (s : OptimisticLinkedSet) (vs : list Z) (v : Z)
    (fuel : nat) :
  Rep s vs -> representable v -> (length vs < fuel)%nat ->
  exists s' : OptimisticLinkedSet,
    Insert fuel s v = Done (bool_decide ((v ∉ vs) /\ v <> Max), s') /\
    (v ∈ vs \/ v = Max -> s' = s) /\
    (v ∉ vs -> v <> Max ->
     Size s' = fetch_add (Size s) /\
     exists vs', Rep s' vs' /\ vs' ≡ₚ v :: vs) /\
    Contains (S fuel) s' v = Done true /\
    Insert (S fuel) s' v = Done (false, s').
Proof.
  intros HRep Hv Hfuel.
  destruct (Insert_Rep s vs v fuel HRep Hv Hfuel)
    as (b & s' & vs' & HI & HRep' & Hmem & Hb & Hsame & Hsz).
  pose proof (Rep_NoDup s vs HRep) as Hnd.
  pose proof (Rep_NoDup s' vs' HRep') as Hnd'.
  assert (Hbd : b = bool_decide ((v ∉ vs) /\ v <> Max)).
  { destruct b.
    - symmetry. apply bool_decide_eq_true_2. apply Hb. reflexivity.
    - symmetry. apply bool_decide_eq_false_2. intros Hyes.
      apply Hb in Hyes. discriminate. }
  assert (Hin' : v ∈ vs' \/ v = Max).
  { destruct (decide (v = Max)) as [-> | Hne]; [right; reflexivity |].
    left. apply Hmem. right. split; [reflexivity | exact Hne]. }
  assert (Hlen : (length vs' <= S (length vs))%nat).
  { destruct b.
    - destruct (proj1 Hb eq_refl) as [Hnot Hne].
      assert (Hperm : vs' ≡ₚ v :: vs).
      { apply NoDup_Permutation; [exact Hnd' | |].
        - apply NoDup_cons. split; assumption.
        - intros x. rewrite Hmem, elem_of_cons. split.
          + intros [Hx | [-> _]]; [right; exact Hx | left; reflexivity].
          + intros [-> | Hx]; [right; split; [reflexivity | exact Hne] | left; exact Hx]. }
      apply Permutation_length in Hperm. simpl in Hperm. lia.
    - rewrite (same_elements_length vs vs' Hnd Hnd'); [lia |].
      intros x. rewrite Hmem. split; [| intros Hx; left; exact Hx].
      intros [Hx | [-> Hne]]; [exact Hx |].
      destruct (decide (v ∈ vs)) as [Hyes | Hno]; [exact Hyes |].
      assert (false = true) by (apply Hb; split; assumption). discriminate. }
  exists s'. split; [rewrite <- Hbd; exact HI |].
  split; [| split; [| split]].
  - intros Hpresent. apply Hsame. destruct b; [| reflexivity].
    destruct (proj1 Hb eq_refl) as [Hnot Hne].
    destruct Hpresent; contradiction.
  - intros Hnot Hne. assert (Hbt : b = true) by (apply Hb; split; assumption).
    rewrite Hbt in Hsz. split; [exact Hsz |]. exists vs'. split; [exact HRep' |].
    apply NoDup_Permutation; [exact Hnd' | |].
    + apply NoDup_cons. split; assumption.
    + intros x. rewrite Hmem, elem_of_cons. split.
      * intros [Hx | [-> _]]; [right; exact Hx | left; reflexivity].
      * intros [-> | Hx]; [right; split; [reflexivity | exact Hne] | left; exact Hx].
  - rewrite (Contains_Rep s' vs' v (S fuel) HRep' Hv) by lia.
    f_equal. apply bool_decide_eq_true_2. exact Hin'.
  - destruct (Insert_Rep s' vs' v (S fuel) HRep' Hv)
      as (b2 & s2 & vs2 & HI2 & _ & _ & Hb2 & Hsame2 & _); [lia |].
    destruct b2.
    + destruct (proj1 Hb2 eq_refl) as [Hnot Hne]. destruct Hin'; contradiction.
    + rewrite (Hsame2 eq_refl) in HI2. exact HI2.
Qed.

(** X18: [Remove(v)], for [v] from [Min] up to [Max - 1], on a
    well-formed chain that holds [vs] returns true exactly when [v] is
    among [vs].  False leaves the state unchanged; true leaves a
    well-formed chain that holds [vs] without [v], with the counter
    decremented.  In both cases [Contains(v)] is false afterwards and a
    second [Remove(v)] returns false and changes nothing. *)
Theorem linked_Remove_contract (s : OptimisticLinkedSet) (vs : list Z) (v : Z)
    (fuel : nat) :
  Rep s vs -> Min <= v < Max -> (length vs < fuel)%nat ->
  exists s' : OptimisticLinkedSet,
    Remove fuel s v = Done (bool_decide (v ∈ vs), s') /\
    (v ∉ vs -> s' = s) /\
    (v ∈ vs ->
     Size s' = fetch_sub (Size s) /\
     exists vs', Rep s' vs' /\ vs ≡ₚ v :: vs') /\
    Contains fuel s' v = Done false /\
    Remove fuel s' v = Done (false, s').
Proof.
  intros HRep Hv Hfuel.
  assert (Hrep : representable v) by (split; lia).
  assert (Hne : v <> Max) by lia.
  destruct (Remove_Rep s vs v fuel HRep Hrep Hne Hfuel)
    as (b & s' & vs' & HR & HRep' & Hmem & Hb & Hsame & Hsz).
  pose proof (Rep_NoDup s vs HRep) as Hnd.
  pose proof (Rep_NoDup s' vs' HRep') as Hnd'.
  assert (Hbd : b = bool_decide (v ∈ vs)).
  { destruct b.
    - symmetry. apply bool_decide_eq_true_2. apply Hb. reflexivity.
    - symmetry. apply bool_decide_eq_false_2. intros Hyes.
      apply Hb in Hyes. discriminate. }
  assert (Hnot' : v ∉ vs').
  { intros Hin. apply Hmem in Hin as [_ Hx]. apply Hx. reflexivity. }
  assert (Hlen : (length vs' <= length vs)%nat).
  { apply submseteq_length. apply NoDup_submseteq; [exact Hnd' |].
    intros x Hx. apply Hmem in Hx as [Hx _]. exact Hx. }
  exists s'. split; [rewrite <- Hbd; exact HR |].
  split; [| split; [| split]].
  - intros Hnot. apply Hsame. destruct b; [| reflexivity].
    destruct (Hnot (proj1 Hb eq_refl)).
  - intros Hin. assert (Hbt : b = true) by (apply Hb; exact Hin).
    rewrite Hbt in Hsz. split; [exact Hsz |]. exists vs'. split; [exact HRep' |].
    apply NoDup_Permutation; [exact Hnd | |].
    + apply NoDup_cons. split; assumption.
    + intros x. rewrite elem_of_cons, Hmem. split.
      * intros Hx. destruct (decide (x = v)) as [-> | Hxv];
          [left; reflexivity | right; split; assumption].
      * intros [-> | [Hx _]]; assumption.
  - rewrite (Contains_Rep s' vs' v fuel HRep' Hrep) by lia.
    f_equal. apply bool_decide_eq_false_2. intros [Hin | ->]; [contradiction | lia].
  - destruct (Remove_Rep s' vs' v fuel HRep' Hrep Hne)
      as (b2 & s2 & vs2 & HR2 & _ & _ & Hb2 & Hsame2 & _); [lia |].
    destruct b2.
    + destruct (Hnot' (proj1 Hb2 eq_refl)).
    + rewrite (Hsame2 eq_refl) in HR2. exact HR2.
Qed.

(** X19: [Contains(v)] on a well-formed chain that holds [vs] returns
    true exactly when [v] is among [vs] or is [Max], the value of the tail
    sentinel; a longer traversal allowance does not change the answer. *)
Theorem linked_Contains_contract (s : OptimisticLinkedSet) (vs : list Z) (v : Z)
    (fuel : nat) :
  Rep s vs -> representable v -> (length vs < fuel)%nat ->
  Contains fuel s v = Done (bool_decide (v ∈ vs \/ v = Max)) /\
  (forall fuel', (fuel <= fuel')%nat -> Contains fuel' s v = Contains fuel s v).
Proof.
  intros HRep Hv Hfuel. split; [apply Contains_Rep; assumption |].
  intros fuel' Hle. rewrite !(Contains_Rep s vs v) by (assumption || lia).
  reflexivity.
Qed.

(** ** The size counter of a new set *)

(** X20: on a set newly constructed on any arena, every sequence of
    calls without [Remove(Max)] returns and leaves a well-formed chain, and
    [Size()] then equals the successful insertions minus the successful
    removals, which is the number of stored values. *)
Theorem linked_Size_counts_successes (arena : Arena) (ops : list operation) :
  Forall keeps_tail ops -> Z.of_nat (length ops) < 2 ^ 64 ->
  exists (s0 s' : OptimisticLinkedSet) (rs : list answer) (vs' : list Z),
    OptimisticLinkedSet_new arena = Done s0 /\
    run (length ops) s0 ops = Done (rs, s') /\
    Rep s' vs' /\
    Size s' = net_successes ops rs /\
    Size s' = Z.of_nat (length vs').
Proof.
  intros Hops Hfit.
  pose proof (new_arena arena) as Hnew.
  pose proof (Rep_new arena _ Hnew) as HRep.
  match type of Hnew with _ = Done ?s => set (s0 := s) in * end.
  assert (Hsz : Size s0 = 0) by reflexivity.
  destruct (run_Rep ops (length ops) s0 [] HRep) as (rs & s' & vs' & Hrun & HRep' & Hlen & Hnet).
  - rewrite Hsz. reflexivity.
  - exact Hops.
  - simpl. exact Hfit.
  - simpl. lia.
  - exists s0, s', rs, vs'. split; [exact Hnew |]. split; [exact Hrun |].
    split; [exact HRep' |]. split; [rewrite Hnet, Hsz; lia | exact Hlen].
Qed.

End Contract.


(** ** Examples *)

Lemma Rep_int_set_5 : Rep (H := int_traits) int_set_5 [5].
Proof.
  exists 0%nat, [(2%nat, 5); (1%nat, 2 ^ 31 - 1)].
  split; [reflexivity |]. split; [| split; [| split; [reflexivity | split]]].
  - cbn. split; [reflexivity |]. eexists. split; [reflexivity |].
    do 3 (split; [reflexivity |]). split; [reflexivity |].
    eexists. split; [reflexivity |]. do 3 (split; [reflexivity |]).
    split; [reflexivity |]. eexists. split; [reflexivity |].
    do 3 (split; [reflexivity |]). reflexivity.
  - cbn. repeat (apply NoDup_cons; split;
                 [intros Hin; repeat (apply elem_of_cons in Hin as [Hin | Hin];
                                      [discriminate |]);
                  apply elem_of_nil in Hin; exact Hin |]).
    apply NoDup_nil_2.
  - cbn. repeat constructor.
  - repeat constructor. cbn. lia.
Qed.

Lemma all_idle_empty_int_set : all_idle (allocator_ empty_int_set).
Proof.
  intros [|[|i]] nd Hi; cbn in Hi; try discriminate; injection Hi as <-; reflexivity.
Qed.

Lemma Insert_footprint_witness :
  Insert 1 empty_int_set 5 = Done (true, int_set_5) /\
  head_ int_set_5 = head_ empty_int_set /\
  (true = false -> int_set_5 = empty_int_set) /\
  (true = true ->
   elements_ int_set_5 = fetch_add (elements_ empty_int_set) /\
   exists (p c : nat) (p0 : Node),
     allocator_ empty_int_set !! p = Some p0 /\ next_ p0 = Some c /\
     allocator_ int_set_5 =
       <[p := set_next p0 (Some (length (allocator_ empty_int_set)))]>
         (allocator_ empty_int_set ++ [Node_new 5 (Some c)])).
Proof.
  split; [reflexivity |].
  exact (Insert_footprint 1 empty_int_set int_set_5 5 true eq_refl).
Defined.

Lemma Remove_footprint_witness :
  exists s2 : OptimisticLinkedSet,
    Remove 2 int_set_5 5 = Done (true, s2) /\
    head_ s2 = head_ int_set_5 /\
    (true = true ->
     elements_ s2 = fetch_sub (elements_ int_set_5) /\
     exists (p c : nat) (p0 c0 : Node),
       allocator_ int_set_5 !! p = Some p0 /\ next_ p0 = Some c /\
       allocator_ int_set_5 !! c = Some c0 /\ element_ c0 = 5 /\
       allocator_ s2 = <[p := set_next p0 (next_ c0)]> (allocator_ int_set_5) /\
       allocator_ s2 !! c = Some c0).
Proof.
  eexists. split; [reflexivity |].
  pose proof (Remove_footprint 2 int_set_5 _ 5 true eq_refl) as (Hhead & _ & Hrest).
  split; [exact Hhead | exact Hrest].
Defined.

Lemma locks_released_witness :
  all_idle (allocator_ empty_int_set) /\
  Insert 1 empty_int_set 5 = Done (true, int_set_5) /\
  all_idle (allocator_ int_set_5).
Proof.
  split; [exact all_idle_empty_int_set |]. split; [reflexivity |].
  apply (locks_released 1 empty_int_set int_set_5 5 true all_idle_empty_int_set).
  left. reflexivity.
Defined.

Lemma arena_grows_with_inserts_witness :
  exists s2 : OptimisticLinkedSet,
    run 2 empty_int_set [OpInsert 5; OpRemove 5; OpInsert 5]
      = Done ([Bool true; Bool true; Bool true], s2) /\
    extends (allocator_ empty_int_set) (allocator_ s2) 2.
Proof.
  eexists. split; [reflexivity |].
  exact (arena_grows_with_inserts 2 [OpInsert 5; OpRemove 5; OpInsert 5]
           empty_int_set _ [Bool true; Bool true; Bool true] eq_refl).
Defined.

Lemma Edge_Lock_then_Unlock_witness :
  exists a1 : Arena,
    Edge_Lock (allocator_ empty_int_set) {| pred_ := Some 0%nat; curr_ := Some 1%nat |}
      = Done a1 /\
    Edge_Lock a1 {| pred_ := Some 0%nat; curr_ := Some 1%nat |} = Spins /\
    Edge_Unlock a1 {| pred_ := Some 0%nat; curr_ := Some 1%nat |}
      = Done (allocator_ empty_int_set).
Proof.
  eexists. split; [reflexivity |].
  pose proof (Edge_Lock_then_Unlock (allocator_ empty_int_set) _
                {| pred_ := Some 0%nat; curr_ := Some 1%nat |} eq_refl)
    as (_ & _ & Hspin & Hunlock).
  split; [exact Hspin | exact Hunlock].
Defined.

Lemma Locate_spec_witness :
  exists (p c : nat) (p0 c0 : Node),
    Locate 2 int_set_5 5 = Done {| pred_ := Some p; curr_ := Some c |} /\
    allocator_ int_set_5 !! p = Some p0 /\ allocator_ int_set_5 !! c = Some c0 /\
    p <> c /\ next_ p0 = Some c /\
    (head_ int_set_5 = Some p \/ (element_ p0 ∈ [5] /\ element_ p0 < 5)) /\
    5 <= element_ c0 /\
    (element_ c0 ∈ [5] \/ (element_ c0 = 2 ^ 31 - 1 /\ next_ c0 = None)) /\
    (forall x, x ∈ [5] -> x < 5 \/ element_ c0 <= x).
Proof.
  apply (Locate_spec (ET := int_traits) int_set_5 [5] 5 2 Rep_int_set_5).
  - cbn. lia.
  - cbn. lia.
Defined.

Lemma linked_Insert_contract_witness :
  exists s' : OptimisticLinkedSet,
    Insert 1 empty_int_set 5 = Done (bool_decide ((5 ∉ []) /\ 5 <> 2 ^ 31 - 1), s') /\
    Contains 2 s' 5 = Done true /\
    Insert 2 s' 5 = Done (false, s').
Proof.
  destruct (linked_Insert_contract (ET := int_traits) empty_int_set [] 5 1
              Rep_empty_int_set) as (s' & HI & _ & _ & HC & HI2).
  - split; cbn; lia.
  - cbn. lia.
  - exists s'. split; [exact HI |]. split; [exact HC | exact HI2].
Defined.

Lemma linked_Remove_contract_witness :
  exists s' : OptimisticLinkedSet,
    Remove 2 int_set_5 5 = Done (bool_decide (5 ∈ [5]), s') /\
    Contains 2 s' 5 = Done false /\
    Remove 2 s' 5 = Done (false, s').
Proof.
  destruct (linked_Remove_contract (ET := int_traits) int_set_5 [5] 5 2
              Rep_int_set_5) as (s' & HR & _ & _ & HC & HR2).
  - cbn. lia.
  - cbn. lia.
  - exists s'. split; [exact HR |]. split; [exact HC | exact HR2].
Defined.

Lemma linked_Contains_contract_witness :
  Contains 2 int_set_5 5 = Done (bool_decide (5 ∈ [5] \/ 5 = 2 ^ 31 - 1)) /\
  (forall fuel', (2 <= fuel')%nat -> Contains fuel' int_set_5 5 = Contains 2 int_set_5 5).
Proof.
  apply (linked_Contains_contract (ET := int_traits) int_set_5 [5] 5 2 Rep_int_set_5).
  - split; cbn; lia.
  - cbn. lia.
Defined.

Lemma linked_Size_counts_successes_witness :
  exists (s0 s' : OptimisticLinkedSet) (rs : list answer) (vs' : list Z),
    OptimisticLinkedSet_new (H := int_traits) [] = Done s0 /\
    run 4 s0 [OpInsert 5; OpInsert 5; OpRemove 5; OpSize] = Done (rs, s') /\
    Rep (H := int_traits) s' vs' /\
    Size s' = net_successes [OpInsert 5; OpInsert 5; OpRemove 5; OpSize] rs /\
    Size s' = Z.of_nat (length vs').
Proof.
  apply (linked_Size_counts_successes (ET := int_traits) []
           [OpInsert 5; OpInsert 5; OpRemove 5; OpSize]).
  - repeat constructor; cbn; lia.
  - reflexivity.
Defined.

End LinkedContract.

Module RWThreadsFacts.

Import Striped RWThreads.

Lemma WriteLock_in_two_steps (l : ReadWriteLock) :
  RW_WriteLock l = WriteLock_acquire (WriteLock_enter l).
Proof. reflexivity. Qed.

Lemma count_insert (a b b' : activity) (ts : list activity) :
  forall i : nat,
    ts !! i = Some b ->
    (count a (<[i := b']> ts) + (if same_activity b a then 1 else 0)
     = count a ts + (if same_activity b' a then 1 else 0))%nat.
Proof.
  induction ts as [|t ts IH]; intros [|i] Hi; try discriminate; simpl in Hi.
  - injection Hi as ->. simpl. lia.
  - simpl. specialize (IH i Hi). lia.
Qed.

Lemma count_replicate_Outside (n : nat) :
  count Reading (replicate n Outside) = 0%nat /\
  count Waiting (replicate n Outside) = 0%nat /\
  count Writing (replicate n Outside) = 0%nat.
Proof. induction n as [|n IH]; [repeat split | exact IH]. Qed.

Lemma count_lookup (a : activity) (ts : list activity) (i : nat) :
  ts !! i = Some a -> (1 <= count a ts)%nat.
Proof.
  revert i. induction ts as [|t ts IH]; intros [|i] Hi; try discriminate;
    simpl in Hi; simpl.
  - injection Hi as ->. destruct a; simpl; lia.
  - specialize (IH i Hi). lia.
Qed.

Lemma counts_disjoint (ts : list activity) :
  (count Outside ts + count Reading ts + count Waiting ts + count Writing ts
   = length ts)%nat.
Proof.
  induction ts as [|t ts IH]; [reflexivity |].
  simpl. destruct t; simpl; lia.
Qed.

Lemma step_counters (sys sys' : system) (im : nat * move) :
  Z.of_nat (length (threads sys)) < 2 ^ 64 ->
  counters_agree sys -> step sys im = Some sys' ->
  counters_agree sys' /\ length (threads sys') = length (threads sys).
Proof.
  intros Hfit (Hr & Hw & Hs & Hx) Hstep. unfold step in Hstep.
  destruct im as [i m]. cbn [fst snd] in Hstep.
  destruct (threads sys !! i) as [a|] eqn:Hi; [| discriminate].
  destruct (move_of (lock sys) a m) as [[l' a']|] eqn:Hm; [| discriminate].
  injection Hstep as <-. cbn [threads lock]. split; [| apply length_insert].
  pose proof (counts_disjoint (threads sys)) as Hall.
  pose proof (count_insert Reading a a' (threads sys) i Hi) as HR.
  pose proof (count_insert Waiting a a' (threads sys) i Hi) as HWa.
  pose proof (count_insert Writing a a' (threads sys) i Hi) as HWr.
  pose proof (count_lookup a (threads sys) i Hi) as Hpos.
  unfold counters_agree. cbn [threads lock].
  destruct a, m; try discriminate; unfold move_of, returned in Hm.
  - (* ReadLock *)
    unfold RW_ReadLock in Hm.
    destruct (Z.eqb_spec (writers_ (lock sys)) 0) as [Hw0 | _]; [| discriminate].
    cbn [negb] in Hm. injection Hm as <- <-. cbn [readers_ writers_ write_state].
    cbn [same_activity] in HR, HWa, HWr. unfold fetch_add. rewrite wrap_small by lia.
    destruct (write_state (lock sys)); repeat split; try lia; intros _; lia.
  - (* WriteLock, up to the wait *)
    injection Hm as <- <-. unfold WriteLock_enter. cbn [readers_ writers_ write_state].
    cbn [same_activity] in HR, HWa, HWr. unfold fetch_add. rewrite wrap_small by lia.
    repeat split; try lia. intros Hws. specialize (Hx Hws). lia.
  - (* ReadUnlock *)
    unfold RW_ReadUnlock in Hm. injection Hm as <- <-.
    cbn [readers_ writers_ write_state].
    cbn [same_activity] in HR, HWa, HWr. unfold fetch_sub. rewrite wrap_small by lia.
    repeat split; try lia. intros Hws. specialize (Hx Hws). lia.
  - (* WriteLock, from the wait on *)
    unfold WriteLock_acquire in Hm.
    destruct (Z.eqb_spec (readers_ (lock sys)) 0) as [Hr0 | _]; [| discriminate].
    destruct (write_state (lock sys)) eqn:Hws; [discriminate |].
    cbn [negb andb] in Hm. injection Hm as <- <-. cbn [readers_ writers_ write_state].
    cbn [same_activity] in HR, HWa, HWr. repeat split; try lia.
  - (* WriteUnlock *)
    unfold RW_WriteUnlock in Hm. injection Hm as <- <-.
    cbn [readers_ writers_ write_state].
    cbn [same_activity] in HR, HWa, HWr. unfold fetch_sub. rewrite wrap_small by lia.
    destruct (write_state (lock sys)); repeat split; try lia; discriminate.
Qed.


Lemma counters_agree_start (n : nat) : counters_agree (start n).
Proof.
  destruct (count_replicate_Outside n) as (Hr & Hwa & Hwr).
  unfold counters_agree, start. cbn [lock threads ReadWriteLock_new readers_ writers_
                                     write_state].
  rewrite Hr, Hwa, Hwr. repeat split.
Qed.

Lemma run_schedule_counters (schedule : list (nat * move)) :
  forall sys sys' : system,
    Z.of_nat (length (threads sys)) < 2 ^ 64 ->
    counters_agree sys -> run_schedule sys schedule = Some sys' ->
    counters_agree sys' /\ length (threads sys') = length (threads sys).
Proof.
  induction schedule as [|im rest IH]; intros sys sys' Hfit Hagree Hrun;
    cbn [run_schedule] in Hrun.
  - injection Hrun as <-. split; [exact Hagree | reflexivity].
  - destruct (step sys im) as [sys1|] eqn:Hstep; [| discriminate].
    destruct (step_counters sys sys1 im Hfit Hagree Hstep) as [Hagree1 Hlen1].
    destruct (IH sys1 sys') as [Hagree' Hlen']; [lia | assumption | assumption |].
    split; [exact Hagree' | lia].
Qed.

Lemma count_zero (a : activity) (ts : list activity) :
  count a ts = 0%nat <-> forall j, ts !! j <> Some a.
Proof.
  split.
  - intros Hz j Hj. apply count_lookup in Hj. lia.
  - induction ts as [|t ts IH]; intros Hnone; [reflexivity |].
    simpl. rewrite IH by (intros j; exact (Hnone (S j))).
    destruct t, a; try reflexivity; destruct (Hnone 0%nat eq_refl).
Qed.

(** X21: a writer is alone.  In every interleaving of fewer than [2^64]
    threads from a new lock, while one thread is between [WriteLock] and
    [WriteUnlock], every other thread is outside the lock or waiting in
    [WriteLock]: none reads and none writes. *)
Theorem writer_is_alone (n : nat) (schedule : list (nat * move)) (sys : system)
    (i j : nat) (a : activity) :
  Z.of_nat n < 2 ^ 64 ->
  run_schedule (start n) schedule = Some sys ->
  threads sys !! i = Some Writing -> j <> i -> threads sys !! j = Some a ->
  a = Outside \/ a = Waiting.
Proof.
  intros Hfit Hrun Hi Hne Hj.
  destruct (run_schedule_counters schedule (start n) sys) as [(Hr & Hw & Hs & Hx) _];
    [ cbn; rewrite length_replicate; exact Hfit
    | apply counters_agree_start | exact Hrun |].
  pose proof (count_lookup _ _ _ Hi) as Hone.
  destruct (write_state (lock sys)) eqn:Hws; [| lia].
  specialize (Hx eq_refl).
  destruct a; [left; reflexivity | | right; reflexivity |].
  - apply count_lookup in Hj. lia.
  - pose proof (count_insert Writing Writing Outside (threads sys) i Hi) as Hins.
    cbn [same_activity] in Hins.
    assert (Hj' : <[i := Outside]> (threads sys) !! j = Some Writing)
      by (rewrite list_lookup_insert_ne by (intros ->; apply Hne; reflexivity);
          exact Hj).
    apply count_lookup in Hj'. lia.
Qed.

(** X22: who is let in, in every state the threads can reach.
    [ReadLock] returns exactly when no thread writes or waits in
    [WriteLock]; a thread waiting in [WriteLock] goes on exactly when no
    thread reads or writes; the first half of [WriteLock], [ReadUnlock] and
    [WriteUnlock] can always be taken. *)
Theorem lock_admission (n : nat) (schedule : list (nat * move)) (sys : system)
    (i : nat) :
  Z.of_nat n < 2 ^ 64 ->
  run_schedule (start n) schedule = Some sys ->
  (threads sys !! i = Some Outside ->
   (is_Some (step sys (i, CallReadLock)) <->
    forall j, threads sys !! j <> Some Waiting /\ threads sys !! j <> Some Writing) /\
   is_Some (step sys (i, CallWriteLock))) /\
  (threads sys !! i = Some Waiting ->
   (is_Some (step sys (i, WakeUp)) <->
    forall j, threads sys !! j <> Some Reading /\ threads sys !! j <> Some Writing)) /\
  (threads sys !! i = Some Reading -> is_Some (step sys (i, CallReadUnlock))) /\
  (threads sys !! i = Some Writing -> is_Some (step sys (i, CallWriteUnlock))).
Proof.
  intros Hfit Hrun.
  destruct (run_schedule_counters schedule (start n) sys) as [(Hr & Hw & Hs & Hx) _];
    [ cbn; rewrite length_replicate; exact Hfit
    | apply counters_agree_start | exact Hrun |].
  unfold step. cbn [fst snd].
  split; [| split; [| split]]; intros Hi; rewrite Hi; cbn [move_of].
  - split; [| eexists; reflexivity].
    unfold RW_ReadLock.
    destruct (Z.eqb_spec (writers_ (lock sys)) 0) as [Hw0 | Hw1]; cbn [negb returned].
    + split; [intros _ | intros _; eexists; reflexivity].
      intros j. split; apply count_zero; lia.
    + split; [intros [x Hx']; discriminate |]. intros Hnone. exfalso. apply Hw1.
      rewrite Hw.
      rewrite (proj2 (count_zero Waiting _) (fun j => proj1 (Hnone j))).
      rewrite (proj2 (count_zero Writing _) (fun j => proj2 (Hnone j))). reflexivity.
  - unfold WriteLock_acquire.
    destruct (Z.eqb_spec (readers_ (lock sys)) 0) as [Hr0 | Hr1];
      [destruct (write_state (lock sys)) eqn:Hws |]; cbn [negb andb returned].
    + split; [intros [x Hx']; discriminate |]. intros Hnone. exfalso.
      rewrite (proj2 (count_zero Writing _) (fun j => proj2 (Hnone j))) in Hs.
      discriminate.
    + split; [intros _ | intros _; eexists; reflexivity].
      intros j. split; apply count_zero; lia.
    + split; [intros [x Hx']; discriminate |]. intros Hnone. exfalso. apply Hr1.
      rewrite Hr.
      rewrite (proj2 (count_zero Reading _) (fun j => proj1 (Hnone j))). reflexivity.
  - eexists. reflexivity.
  - eexists. reflexivity.
Qed.

(** ** Examples *)

Lemma writer_is_alone_witness :
  run_schedule (start 3)
    [(0%nat, CallReadLock); (1%nat, CallWriteLock); (0%nat, CallReadUnlock);
     (1%nat, WakeUp); (2%nat, CallWriteLock)]
    = Some {| lock := {| writers_ := 2; readers_ := 0; write_state := true |};
              threads := [Outside; Writing; Waiting] |} /\
  (Waiting = Outside \/ Waiting = Waiting).
Proof.
  split; [reflexivity |].
  apply (writer_is_alone 3
           [(0%nat, CallReadLock); (1%nat, CallWriteLock); (0%nat, CallReadUnlock);
            (1%nat, WakeUp); (2%nat, CallWriteLock)]
           {| lock := {| writers_ := 2; readers_ := 0; write_state := true |};
              threads := [Outside; Writing; Waiting] |} 1 2 Waiting).
  - reflexivity.
  - reflexivity.
  - reflexivity.
  - discriminate.
  - reflexivity.
Defined.

Lemma lock_admission_witness :
  run_schedule (start 3) [(0%nat, CallReadLock); (1%nat, CallWriteLock)]
    = Some {| lock := {| writers_ := 1; readers_ := 1; write_state := false |};
              threads := [Reading; Waiting; Outside] |} /\
  is_Some (step {| lock := {| writers_ := 1; readers_ := 1; write_state := false |};
                   threads := [Reading; Waiting; Outside] |} (0%nat, CallReadUnlock)).
Proof.
  split; [reflexivity |].
  apply (lock_admission 3 [(0%nat, CallReadLock); (1%nat, CallWriteLock)]
           {| lock := {| writers_ := 1; readers_ := 1; write_state := false |};
              threads := [Reading; Waiting; Outside] |} 0).
  - reflexivity.
  - reflexivity.
  - reflexivity.
Defined.

End RWThreadsFacts.

Module QueueFacts.

Import Queue.

Section Facts.

Context {T : Type}.

Lemma Get_cases (q : BlockingQueue T) :
  match box q with
  | [] => Get q = if off q then Returns (None, q) else Waits
  | result :: rest =>
      Get q = Returns (Some result,
                       {| capacity := capacity q; off := off q; box := rest |})
  end.
Proof.
  unfold Get, size. destruct (box q) as [|x rest]; cbn [length].
  - cbn. destruct (off q); reflexivity.
  - replace (Z.of_nat (S (length rest)) =? 0) with false
      by (symmetry; apply Z.eqb_neq; lia).
    cbn. rewrite andb_false_r. reflexivity.
Qed.

Lemma appends_BlockingQueue_h (throws : bool) :
  appends (@BlockingQueue_h.Put T throws).
Proof.
  intros q x q' HP. unfold BlockingQueue_h.Put in HP.
  destruct (negb (size q =? capacity q) || off q); [| discriminate].
  destruct (off q && throws); [discriminate |]. injection HP as <-. reflexivity.
Qed.

Lemma appends_ThreadPool_h : appends (@ThreadPool_h.Put T).
Proof.
  intros q x q' HP. unfold ThreadPool_h.Put in HP.
  destruct (negb (size q =? capacity q) || off q); [| discriminate].
  destruct (off q); [discriminate |]. injection HP as <-. reflexivity.
Qed.

Lemma history_order (Put : BlockingQueue T -> T -> completion (BlockingQueue T))
    (calls : list call) :
  appends Put ->
  forall (q q' : BlockingQueue T) (es : list event),
    history Put q calls = Some (es, q') ->
    box q ++ puts es = gets es ++ box q'.
Proof.
  intros Happ. induction calls as [|c rest IH]; intros q q' es Hh; cbn [history] in Hh.
  - injection Hh as <- <-. cbn. rewrite app_nil_r. reflexivity.
  - destruct (perform Put q c) as [[e q1]|] eqn:Hp; [| discriminate].
    destruct (history Put q1 rest) as [[es1 q2]|] eqn:Hrest; [| discriminate].
    injection Hh as <- <-. specialize (IH _ _ _ Hrest).
    destruct c as [x | |]; cbn [perform] in Hp.
    + destruct (Put q x) as [q1'| | |] eqn:HP; try discriminate.
      * injection Hp as <- <-. rewrite (Happ _ _ _ HP) in IH. cbn in IH.
        cbn [puts gets]. rewrite <- IH, <- app_assoc. reflexivity.
      * injection Hp as <- <-. exact IH.
    + pose proof (Get_cases q) as HG. destruct (box q) as [|y ys] eqn:Hbox.
      * rewrite HG in Hp. destruct (off q); [| discriminate].
        injection Hp as <- <-. rewrite Hbox in IH. exact IH.
      * rewrite HG in Hp. injection Hp as <- <-. cbn in IH. cbn [puts gets].
        rewrite <- !app_comm_cons. f_equal. exact IH.
    + injection Hp as <- <-. exact IH.
Qed.


(** X23: first in, first out.  In every history of a new queue, with the
    [Put] of either header (that of BlockingQueue.h under both readings of
    its shutdown statement), the elements that [Put] accepted are, in this
    order, the elements that [Get] handed out followed by those still in
    the queue: nothing is lost, duplicated or reordered. *)
Theorem first_in_first_out (capacity : Z) (calls : list call) (es : list event)
    (q : BlockingQueue T) (throws : bool) :
  history (BlockingQueue_h.Put throws) (BlockingQueue_new capacity) calls
    = Some (es, q) \/
  history ThreadPool_h.Put (BlockingQueue_new capacity) calls = Some (es, q) ->
  puts es = gets es ++ box q.
Proof.
  intros [Hh | Hh].
  - exact (history_order _ calls (appends_BlockingQueue_h throws) _ _ _ Hh).
  - exact (history_order _ calls appends_ThreadPool_h _ _ _ Hh).
Qed.

(** ** The capacity *)

Lemma Get_shrinks (q q' : BlockingQueue T) (r : option T) :
  Get q = Returns (r, q') ->
  capacity q' = capacity q /\ off q' = off q /\ size q' <= size q.
Proof.
  intros HG. pose proof (Get_cases q) as Hc. unfold size.
  destruct (box q) as [|y ys] eqn:Hbox; rewrite Hc in HG.
  - destruct (off q) eqn:Hoff; [| discriminate]. injection HG as <- <-.
    rewrite Hbox. repeat split; [exact Hoff | lia].
  - injection HG as <- <-. cbn [box capacity off]. repeat split; cbn [length]; lia.
Qed.

Lemma bounded_ThreadPool_h (calls : list call) :
  forall (q q' : BlockingQueue T) (es : list event),
    size q <= capacity q ->
    history ThreadPool_h.Put q calls = Some (es, q') ->
    size q' <= capacity q' /\ capacity q' = capacity q.
Proof.
  induction calls as [|c rest IH]; intros q q' es Hle Hh; cbn [history] in Hh.
  - injection Hh as <- <-. split; [exact Hle | reflexivity].
  - destruct (perform ThreadPool_h.Put q c) as [[e q1]|] eqn:Hp; [| discriminate].
    destruct (history ThreadPool_h.Put q1 rest) as [[es1 q2]|] eqn:Hrest;
      [| discriminate].
    injection Hh as <- <-.
    assert (H1 : size q1 <= capacity q1 /\ capacity q1 = capacity q).
    { destruct c as [x | |]; cbn [perform] in Hp.
      - unfold ThreadPool_h.Put in Hp.
        destruct (Z.eqb_spec (size q) (capacity q)) as [Heq | Hne];
          destruct (off q); cbn in Hp; try discriminate;
          injection Hp as <- <-; try (split; [exact Hle | reflexivity]).
        unfold size, push_back in *. cbn. rewrite length_app. cbn. split; lia.
      - destruct (Get q) as [[r q1']| | |] eqn:HG; try discriminate.
        injection Hp as <- <-. destruct (Get_shrinks _ _ _ HG) as (Hc & _ & Hs).
        split; lia.
      - injection Hp as <- <-. split; [exact Hle | reflexivity]. }
    destruct H1 as [Hle1 Hc1]. destruct (IH _ _ _ Hle1 Hrest) as [Hle2 Hc2].
    split; [exact Hle2 | lia].
Qed.

Lemma bounded_BlockingQueue_h (throws : bool) (calls : list call) :
  forall (q q' : BlockingQueue T) (es : list event),
    (off q = false -> size q <= capacity q) ->
    history (BlockingQueue_h.Put throws) q calls = Some (es, q') ->
    (off q' = false -> size q' <= capacity q') /\ capacity q' = capacity q.
Proof.
  induction calls as [|c rest IH]; intros q q' es Hle Hh; cbn [history] in Hh.
  - injection Hh as <- <-. split; [exact Hle | reflexivity].
  - destruct (perform (BlockingQueue_h.Put throws) q c) as [[e q1]|] eqn:Hp;
      [| discriminate].
    destruct (history (BlockingQueue_h.Put throws) q1 rest) as [[es1 q2]|] eqn:Hrest;
      [| discriminate].
    injection Hh as <- <-.
    assert (H1 : (off q1 = false -> size q1 <= capacity q1) /\ capacity q1 = capacity q).
    { destruct c as [x | |]; cbn [perform] in Hp.
      - unfold BlockingQueue_h.Put in Hp.
        destruct (Z.eqb_spec (size q) (capacity q)) as [Heq | Hne];
          destruct (off q) eqn:Hoff; destruct throws; cbn in Hp; try discriminate;
          injection Hp as <- <-; (split; [| reflexivity]); cbn [off push_back];
          rewrite ?Hoff; try discriminate.
        all: intros _; specialize (Hle eq_refl);
          unfold size, push_back in *; cbn [box capacity]; rewrite length_app;
          cbn [length]; lia.
      - destruct (Get q) as [[r q1']| | |] eqn:HG; try discriminate.
        injection Hp as <- <-. destruct (Get_shrinks _ _ _ HG) as (Hc & Ho & Hs).
        split; [| exact Hc]. rewrite Ho, Hc. intros Hoff. specialize (Hle Hoff). lia.
      - injection Hp as <- <-. split; [discriminate | reflexivity]. }
    destruct H1 as [Hle1 Hc1]. destruct (IH _ _ _ Hle1 Hrest) as [Hle2 Hc2].
    split; [exact Hle2 | lia].
Qed.

(** X24: the queue holds at most [capacity] elements: always, with the
    [Put] of ThreadPool.h; as long as it has not been shut down, with the
    [Put] of BlockingQueue.h, under both readings of its shutdown
    statement. *)
Theorem never_over_capacity (capacity : Z) (calls : list call) (es : list event)
    (q : BlockingQueue T) (throws : bool) :
  0 <= capacity ->
  (history ThreadPool_h.Put (BlockingQueue_new capacity) calls = Some (es, q) ->
   size q <= capacity) /\
  (history (BlockingQueue_h.Put throws) (BlockingQueue_new capacity) calls
     = Some (es, q) ->
   off q = false -> size q <= capacity).
Proof.
  intros Hcap. split.
  - intros Hh.
    destruct (bounded_ThreadPool_h calls (BlockingQueue_new capacity) q es) as [Hle Hc];
      [exact Hcap | exact Hh |].
    cbn in Hc. lia.
  - intros Hh Hoff.
    destruct (bounded_BlockingQueue_h throws calls (BlockingQueue_new capacity) q es)
      as [Hle Hc]; [intros _; exact Hcap | exact Hh |].
    cbn in Hc. specialize (Hle Hoff). lia.
Qed.

(** ** After Shutdown *)

Lemma shut_down_for_good (calls : list call) :
  forall (q q' : BlockingQueue T) (es : list event),
    off q = true ->
    history ThreadPool_h.Put q calls = Some (es, q') ->
    puts es = [] /\ off q' = true /\ capacity q' = capacity q.
Proof.
  induction calls as [|c rest IH]; intros q q' es Hoff Hh; cbn [history] in Hh.
  - injection Hh as <- <-. split; [reflexivity |]. split; [exact Hoff | reflexivity].
  - destruct (perform ThreadPool_h.Put q c) as [[e q1]|] eqn:Hp; [| discriminate].
    destruct (history ThreadPool_h.Put q1 rest) as [[es1 q2]|] eqn:Hrest;
      [| discriminate].
    injection Hh as <- <-.
    assert (H1 : off q1 = true /\ capacity q1 = capacity q /\ puts [e] = []).
    { destruct c as [x | |]; cbn [perform] in Hp.
      - unfold ThreadPool_h.Put in Hp. rewrite Hoff, orb_true_r in Hp.
        injection Hp as <- <-. split; [exact Hoff |]. split; reflexivity.
      - destruct (Get q) as [[r q1']| | |] eqn:HG; try discriminate.
        injection Hp as <- <-. destruct (Get_shrinks _ _ _ HG) as (Hc & Ho & _).
        split; [rewrite Ho; exact Hoff |]. split; [exact Hc |].
        destruct r; reflexivity.
      - injection Hp as <- <-. split; [reflexivity |]. split; reflexivity. }
    destruct H1 as (Hoff1 & Hc1 & He).
    destruct (IH _ _ _ Hoff1 Hrest) as (Hputs & Hoff2 & Hc2).
    split; [| split; [exact Hoff2 | lia]].
    destruct e; cbn in He |- *; try discriminate; exact Hputs.
Qed.

(** X25: a queue of ThreadPool.h that is shut down stays shut down and
    takes no element any more: in every continuation, whatever the calls,
    every [Put] throws and leaves the queue as it is, no element is
    accepted, and the elements that [Get] hands out are, in order, those
    the queue held at shutdown, the rest being still in it. *)
Theorem Put_after_Shutdown (q q' : BlockingQueue T) (calls : list call)
    (es : list event) (elements : list T) :
  off q = true ->
  history ThreadPool_h.Put q calls = Some (es, q') ->
  puts es = [] /\
  off q' = true /\
  box q = gets es ++ box q' /\
  history ThreadPool_h.Put q' (CallPut <$> elements)
    = Some (PutThrew <$> elements, q').
Proof.
  intros Hoff Hh.
  destruct (shut_down_for_good calls q q' es Hoff Hh) as (Hputs & Hoff' & _).
  pose proof (history_order _ calls appends_ThreadPool_h _ _ _ Hh) as Horder.
  rewrite Hputs, app_nil_r in Horder.
  split; [exact Hputs |]. split; [exact Hoff' |]. split; [exact Horder |].
  assert (Hthrows : forall x, ThreadPool_h.Put q' x = Throws).
  { intros x. unfold ThreadPool_h.Put. rewrite Hoff', orb_true_r. reflexivity. }
  induction elements as [|x xs IH]; [reflexivity |].
  rewrite !fmap_cons. cbn [history perform]. rewrite (Hthrows x), IH. reflexivity.
Qed.

(** X26: once the queue is shut down, [Get] never waits: it hands out
    the elements still in the queue, in order, and returns false from then
    on.  In no state does [Get] take the front of an empty queue. *)
Theorem Get_after_Shutdown
    (Put : BlockingQueue T -> T -> completion (BlockingQueue T))
    (q : BlockingQueue T) (k : nat) :
  off q = true ->
  history Put q (replicate (length (box q) + k) CallGet)
    = Some ((GetReturned ∘ Some <$> box q) ++ replicate k (GetReturned None),
            {| capacity := capacity q; off := true; box := [] |}) /\
  forall q0 : BlockingQueue T, Get q0 <> Faults.
Proof.
  intros Hoff. split.
  - destruct q as [c o b]. cbn in Hoff. subst o. cbn [box capacity].
    induction b as [|x b IH].
    + cbn [length Nat.add fmap list_fmap app]. induction k as [|k IHk]; [reflexivity |].
      cbn [replicate history perform].
      pose proof (Get_cases (mkQueue c true [])) as HG. cbn [box off] in HG.
      rewrite HG, IHk. reflexivity.
    + cbn [length Nat.add replicate history perform].
      pose proof (Get_cases (mkQueue c true (x :: b))) as HG. cbn [box] in HG.
      rewrite HG. cbn [capacity off]. rewrite IH. reflexivity.
  - intros q0. pose proof (Get_cases q0) as HG.
    destruct (box q0); rewrite HG; [destruct (off q0) |]; discriminate.
Qed.

End Facts.

(** ** Examples *)

Lemma first_in_first_out_witness :
  history ThreadPool_h.Put (BlockingQueue_new 2)
    [CallPut 1; CallPut 2; CallGet; CallPut 3; CallShutdown; CallPut 4; CallGet]
    = Some ([PutReturned 1; PutReturned 2; GetReturned (Some 1); PutReturned 3;
             ShutdownReturned; PutThrew 4; GetReturned (Some 2)],
            {| capacity := 2; off := true; box := [3] |}) /\
  [1; 2; 3] = [1; 2] ++ [3].
Proof.
  split; [reflexivity |].
  apply (first_in_first_out 2
           [CallPut 1; CallPut 2; CallGet; CallPut 3; CallShutdown; CallPut 4; CallGet]
           [PutReturned 1; PutReturned 2; GetReturned (Some 1); PutReturned 3;
            ShutdownReturned; PutThrew 4; GetReturned (Some 2)]
           {| capacity := 2; off := true; box := [3] |} true).
  right. reflexivity.
Defined.

Lemma never_over_capacity_witness :
  history ThreadPool_h.Put (BlockingQueue_new 2) [CallPut 1; CallPut 2]
    = Some ([PutReturned 1; PutReturned 2],
            {| capacity := 2; off := false; box := [1; 2] |}) /\
  perform ThreadPool_h.Put {| capacity := 2; off := false; box := [1; 2] |} (CallPut 3)
    = None /\
  size {| capacity := 2; off := false; box := [1; 2] |} <= 2.
Proof.
  split; [reflexivity |]. split; [reflexivity |].
  assert (Hcap : 0 <= 2) by lia.
  exact (proj1 (never_over_capacity 2 [CallPut 1; CallPut 2]
                  [PutReturned 1; PutReturned 2]
                  {| capacity := 2; off := false; box := [1; 2] |} false Hcap) eq_refl).
Defined.

Lemma Put_after_Shutdown_witness :
  history ThreadPool_h.Put {| capacity := 2; off := true; box := [7; 8] |}
    [CallPut 9; CallGet; CallShutdown; CallPut 10]
    = Some ([PutThrew 9; GetReturned (Some 7); ShutdownReturned; PutThrew 10],
            {| capacity := 2; off := true; box := [8] |}) /\
  [7; 8] = [7] ++ [8] /\
  history ThreadPool_h.Put {| capacity := 2; off := true; box := [8] |}
    (CallPut <$> [11; 12])
    = Some ([PutThrew 11; PutThrew 12], {| capacity := 2; off := true; box := [8] |}).
Proof.
  split; [reflexivity |].
  exact (proj2 (proj2 (Put_after_Shutdown
                         {| capacity := 2; off := true; box := [7; 8] |}
                         {| capacity := 2; off := true; box := [8] |}
                         [CallPut 9; CallGet; CallShutdown; CallPut 10]
                         [PutThrew 9; GetReturned (Some 7); ShutdownReturned; PutThrew 10]
                         [11; 12] eq_refl eq_refl))).
Defined.

Lemma Get_after_Shutdown_witness :
  history ThreadPool_h.Put {| capacity := 2; off := true; box := [7; 8] |}
    [CallGet; CallGet; CallGet]
    = Some ([GetReturned (Some 7); GetReturned (Some 8); GetReturned None],
            {| capacity := 2; off := true; box := [] |}).
Proof.
  exact (proj1 (Get_after_Shutdown ThreadPool_h.Put
                  {| capacity := 2; off := true; box := [7; 8] |} 1 eq_refl)).
Defined.

End QueueFacts.

Module PoolFacts.

Import Queue ThreadPool_h QueueFacts.

Section Facts.

Context {T : Type}.

Implicit Types (p : ThreadPool T) (es : list (pool_event T)) (ws : list (worker T)).

(** ** Events *)

Lemma submitted_app es es' : submitted (es ++ es') = submitted es ++ submitted es'.
Proof.
  induction es as [|e es IH]; [reflexivity |].
  destruct e; cbn [app submitted]; rewrite IH; reflexivity.
Qed.

Lemma took_app es es' : took (es ++ es') = took es ++ took es'.
Proof.
  induction es as [|e es IH]; [reflexivity |].
  destruct e; cbn [app took]; rewrite IH; reflexivity.
Qed.

Lemma ran_app es es' : ran (es ++ es') = ran es ++ ran es'.
Proof.
  induction es as [|e es IH]; [reflexivity |].
  destruct e; cbn [app ran]; rewrite IH; reflexivity.
Qed.

(** ** Workers *)

Lemma in_task_insert ws (i : nat) (w w' : worker T) :
  ws !! i = Some w ->
  in_task (<[i := w']> ws) ++ task_of w ≡ₚ in_task ws ++ task_of w'.
Proof.
  revert i. induction ws as [|w0 ws IH]; intros [|i] Hi; try discriminate; simpl in Hi.
  - injection Hi as ->. cbn [insert list_insert].
    assert (Hone : forall x : worker T, in_task (x :: ws) = task_of x ++ in_task ws)
      by (intros []; reflexivity).
    rewrite !Hone.
    rewrite <- !app_assoc. rewrite (Permutation_app_comm (in_task ws) (task_of w)).
    rewrite (Permutation_app_comm (in_task ws) (task_of w')).
    rewrite !app_assoc. apply Permutation_app_tail. apply Permutation_app_comm.
  - cbn [insert list_insert].
    assert (Hone : forall (x : worker T) l, in_task (x :: l) = task_of x ++ in_task l)
      by (intros [] l; reflexivity).
    rewrite !Hone, <- !app_assoc. apply Permutation_app_head. exact (IH i Hi).
Qed.

Lemma in_task_replicate (k : nat) : in_task (replicate k (@InGet T)) = [].
Proof. induction k as [|k IH]; [reflexivity | exact IH]. Qed.

Lemma joined_first_insert ws (m i : nat) (w w' : worker T) :
  joined_first ws m -> ws !! i = Some w -> w <> Joined -> w' <> Joined ->
  joined_first (<[i := w']> ws) m.
Proof.
  intros Hj Hi Hw Hw' j x Hx.
  apply list_lookup_insert_Some in Hx as [(Heq & <- & _) | (Hne & Hx)].
  - subst j. pose proof (Hj i w Hi) as Hiff. split; [intros ? | intros Hlt]; tauto.
  - exact (Hj j x Hx).
Qed.


(** ** The invariant *)

Lemma pool_inv_new (n : Z) : 0 <= n -> pool_inv n [] (ThreadPool_new (T := T) n).
Proof.
  intros Hn. split; cbn.
  - reflexivity.
  - reflexivity.
  - rewrite in_task_replicate. reflexivity.
  - intros task Hin. apply elem_of_nil in Hin. destruct Hin.
  - discriminate.
  - reflexivity.
  - apply length_replicate.
  - exact Hn.
  - intros (i & [Hi | Hi]); apply lookup_replicate in Hi as [Hi _]; discriminate.
  - exists 0%nat. split; [| discriminate].
    intros j w Hj. apply lookup_replicate in Hj as [-> _].
    split; [discriminate | lia].
Qed.

Lemma Put_Returns {A : Type} (q q' : BlockingQueue A) (x : A) :
  Put q x = Returns q' ->
  Queue.off q = false /\ size q <> Queue.capacity q /\ q' = push_back q x.
Proof.
  intros HP. pose proof (appends_ThreadPool_h _ _ _ HP) as Hq'.
  unfold Put in HP.
  destruct (Z.eqb_spec (size q) (Queue.capacity q)) as [Heq | Hne];
    destruct (Queue.off q); cbn in HP; try discriminate.
  repeat split; assumption.
Qed.

Lemma pool_inv_Submit (n : Z) es p p' (task : T) (future : nat) :
  pool_inv n es p -> Submit p task = Returns (future, p') ->
  pool_inv n (es ++ [Submitted task future]) p'.
Proof.
  intros [Hq Hf Ht Hr Hoff Hcap Hw Hsize Hleft Hjoin] HS. unfold Submit in HS.
  destruct (Put (tasks p) _) as [q'| | |] eqn:HP; try discriminate.
  injection HS as <- <-.
  apply Put_Returns in HP as (Hoff_q & Hfull & ->).
  split; cbn [tasks shared_states workers off owner_ push_back box Queue.off
              Queue.capacity];
    rewrite ?submitted_app, ?took_app, ?ran_app; cbn [submitted took ran];
    rewrite ?app_nil_r.
  - rewrite Hq, <- app_assoc. reflexivity.
  - rewrite fmap_app, Hf, length_app. cbn [length fmap list_fmap shared_state].
    rewrite Nat.add_1_r, seq_S. reflexivity.
  - exact Ht.
  - intros t Hin. apply lookup_app_l_Some. exact (Hr t Hin).
  - exact Hoff.
  - exact Hcap.
  - exact Hw.
  - unfold size, push_back in *. cbn [box]. rewrite length_app. cbn [length]. lia.
  - intros Hex. destruct (Hleft Hex) as [Htrue _]. congruence.
  - exact Hjoin.
Qed.

Lemma pool_inv_SubmitThrew (n : Z) es p (task : T) :
  pool_inv n es p -> pool_inv n (es ++ [SubmitThrew task]) p.
Proof.
  intros [Hq Hf Ht Hr Hoff Hcap Hw Hsize Hleft Hjoin].
  split; rewrite ?submitted_app, ?took_app, ?ran_app; cbn [submitted took ran];
    rewrite ?app_nil_r; assumption.
Qed.

Lemma not_joined_not_first ws (m i : nat) (w : worker T) :
  joined_first ws m -> ws !! i = Some w -> w <> Joined -> (m <= i)%nat.
Proof.
  intros Hj Hi Hw. destruct (Nat.lt_ge_cases i m) as [Hlt | Hge]; [| exact Hge].
  destruct (Hw (proj2 (Hj i w Hi) Hlt)).
Qed.

Lemma submitted_ids_NoDup (n : Z) es p :
  pool_inv n es p -> NoDup (shared_state <$> (ran es ++ in_task (workers p))).
Proof.
  intros [Hq Hf Ht Hr Hoff Hcap Hw Hsize Hleft Hjoin].
  rewrite <- Ht. assert (Hnd : NoDup (shared_state <$> submitted es))
    by (rewrite Hf; apply NoDup_seq).
  rewrite Hq, fmap_app in Hnd. apply NoDup_app in Hnd as [Hnd _]. exact Hnd.
Qed.

(** A worker that is in its loop has not been joined, and stays so. *)

Lemma worker_in_loop (n : Z) es p (i : nat) (w w' : worker T) :
  pool_inv n es p -> workers p !! i = Some w -> w <> Joined -> w' <> Joined ->
  exists m : nat,
    joined_first (<[i := w']> (workers p)) m /\
    match owner_ p with
    | Elsewhere =>
        off p = true ->
        m = length (<[i := w']> (workers p)) /\ Queue.off (tasks p) = true
    | Stopping => off p = true /\ (m = 0%nat \/ m = length (<[i := w']> (workers p)))
    | Joining k =>
        Queue.off (tasks p) = true /\ (k < length (<[i := w']> (workers p)))%nat /\
        (m = k \/ m = length (<[i := w']> (workers p)))
    end.
Proof.
  intros Hinv Hi Hw Hw'. destruct (inv_joined _ _ _ Hinv) as (m & Hm & Howner).
  exists m. rewrite length_insert. split; [| exact Howner].
  exact (joined_first_insert _ _ _ w w' Hm Hi Hw Hw').
Qed.

Lemma pool_inv_worker (n : Z) es p p' (i : nat) (e : pool_event T) :
  pool_inv n es p -> worker_step p i = Some (e, p') ->
  pool_inv n (es ++ [e]) p'.
Proof.
  intros Hinv Hstep. pose proof (submitted_ids_NoDup n es p Hinv) as Hnd.
  pose proof (fun w w' => worker_in_loop n es p i w w' Hinv) as Hloop.
  destruct Hinv as [Hq Hf Ht Hr Hoff Hcap Hw Hsize Hleft Hjoin].
  unfold worker_step in Hstep.
  destruct (workers p !! i) as [[|task| |]|] eqn:Hi; try discriminate.
  - (* out of Get *)
    pose proof (Get_cases (tasks p)) as HG.
    destruct (box (tasks p)) as [|task rest] eqn:Hbox; rewrite HG in Hstep.
    + destruct (Queue.off (tasks p)) eqn:Hqoff; [| discriminate].
      injection Hstep as <- <-.
      pose proof (in_task_insert _ i InGet Returned Hi) as Hperm.
      cbn [task_of] in Hperm. rewrite !app_nil_r in Hperm.
      split; cbn [tasks shared_states workers off owner_];
        rewrite ?submitted_app, ?took_app, ?ran_app; cbn [submitted took ran];
        rewrite ?Hbox, ?Hqoff, ?app_nil_r; try assumption.
      * rewrite app_nil_r in Hq. exact Hq.
      * rewrite Hperm. exact Ht.
      * rewrite length_insert. exact Hw.
      * intros _. split; reflexivity.
      * apply (Hloop InGet Returned eq_refl); discriminate.
    + injection Hstep as <- <-.
      pose proof (in_task_insert _ i InGet (InTask task) Hi) as Hperm.
      cbn [task_of] in Hperm. rewrite app_nil_r in Hperm.
      split; cbn [tasks shared_states workers off owner_ box Queue.off Queue.capacity];
        rewrite ?submitted_app, ?took_app, ?ran_app; cbn [submitted took ran];
        rewrite ?app_nil_r; try assumption.
      * rewrite Hq, <- app_assoc. reflexivity.
      * rewrite Hperm, Ht, !app_assoc. reflexivity.
      * rewrite length_insert. exact Hw.
      * unfold size in *. rewrite Hbox in Hsize. cbn [box length] in *. lia.
      * intros (j & Hj). exfalso.
        assert (Hold : exists i0, workers p !! i0 = Some Returned
                                  \/ workers p !! i0 = Some Joined).
        { exists j. destruct Hj as [Hj | Hj];
            apply list_lookup_insert_Some in Hj as [(_ & Hj & _) | (_ & Hj)];
            try discriminate; [left | right]; exact Hj. }
        destruct (Hleft Hold) as [_ Hnil]. discriminate.
      * apply (Hloop InGet (InTask task) eq_refl); discriminate.
  - (* to the end of the task *)
    injection Hstep as <- <-.
    pose proof (in_task_insert _ i (InTask task) InGet Hi) as Hperm.
    cbn [task_of] in Hperm. rewrite app_nil_r in Hperm.
    assert (Hin : task ∈ in_task (workers p)).
    { rewrite <- Hperm. apply elem_of_app. right. apply list_elem_of_singleton.
      reflexivity. }
    assert (Hlt : (shared_state task < length (shared_states p))%nat).
    { assert (Hid : shared_state task ∈ shared_state <$> submitted es).
      { rewrite Hq, Ht, fmap_app. apply elem_of_app. left.
        apply list_elem_of_fmap. exists task. split; [reflexivity |].
        apply elem_of_app. right. exact Hin. }
      rewrite Hf in Hid. apply elem_of_seq in Hid. lia. }
    split; cbn [tasks shared_states workers off owner_];
      rewrite ?submitted_app, ?took_app, ?ran_app; cbn [submitted took ran];
      rewrite ?app_nil_r; try assumption.
    + rewrite length_insert. exact Hf.
    + rewrite Ht, <- Hperm, <- !app_assoc. apply Permutation_app_head.
      apply Permutation_app_comm.
    + intros t Hin'. apply elem_of_app in Hin' as [Hin' | Hin'].
      * rewrite list_lookup_insert_ne; [exact (Hr t Hin') |].
        intros Heq. rewrite fmap_app in Hnd. apply NoDup_app in Hnd as (_ & Hdis & _).
        apply (Hdis (shared_state t)).
        -- apply list_elem_of_fmap. exists t. split; [reflexivity | exact Hin'].
        -- rewrite <- Heq. apply list_elem_of_fmap. exists task.
           split; [reflexivity | exact Hin].
      * apply list_elem_of_singleton in Hin'. subst t.
        apply list_lookup_insert_eq. exact Hlt.
    + rewrite length_insert. exact Hw.
    + intros (j & Hj). apply Hleft. exists j.
      destruct Hj as [Hj | Hj];
        apply list_lookup_insert_Some in Hj as [(_ & Hj & _) | (_ & Hj)];
        try discriminate; [left | right]; exact Hj.
    + apply (Hloop (InTask task) InGet eq_refl); discriminate.
Qed.

Lemma pool_inv_Shutdown_store (n : Z) es p :
  pool_inv n es p -> owner_ p = Elsewhere ->
  pool_inv n (es ++ [ShutdownCalled]) (Shutdown_store p).
Proof.
  intros [Hq Hf Ht Hr Hoff Hcap Hw Hsize Hleft Hjoin] Howner.
  split; cbn [Shutdown_store tasks shared_states workers off owner_];
    rewrite ?submitted_app, ?took_app, ?ran_app; cbn [submitted took ran];
    rewrite ?app_nil_r; try assumption; try reflexivity.
  destruct Hjoin as (m & Hm & Hwhen). rewrite Howner in Hwhen.
  destruct (workers p) as [|w ws] eqn:Hws.
  - exists 0%nat. split; [| split; [reflexivity | left; reflexivity]].
    intros j x Hj. rewrite lookup_nil in Hj. discriminate.
  - exists m. split; [exact Hm |]. split; [reflexivity |].
    destruct (off p) eqn:Hp; [right; exact (proj1 (Hwhen eq_refl)) | left].
    destruct m as [|m]; [reflexivity |]. exfalso.
    assert (Hw0 : w = Joined) by (apply (Hm 0%nat w eq_refl); lia).
    assert (Hex : exists i, (w :: ws) !! i = Some Returned
                            \/ (w :: ws) !! i = Some Joined)
      by (exists 0%nat; right; rewrite Hw0; reflexivity).
    destruct (Hleft Hex) as [Htrue _]. specialize (Hoff Htrue). discriminate.
Qed.

Lemma pool_inv_Shutdown_queue (n : Z) es p :
  pool_inv n es p -> owner_ p = Stopping ->
  pool_inv n (es ++ [QueueShutDown]) (Shutdown_queue p).
Proof.
  intros [Hq Hf Ht Hr Hoff Hcap Hw Hsize Hleft Hjoin] Howner.
  destruct Hjoin as (m & Hm & Hwhen). rewrite Howner in Hwhen.
  destruct Hwhen as [Htrue Hm0].
  split; cbn [Shutdown_queue Shutdown tasks shared_states workers off owner_ box
              Queue.off Queue.capacity];
    rewrite ?submitted_app, ?took_app, ?ran_app; cbn [submitted took ran];
    rewrite ?app_nil_r; try assumption; try reflexivity.
  - intros _. exact Htrue.
  - intros Hex. split; [reflexivity | exact (proj2 (Hleft Hex))].
  - destruct (workers p) as [|w ws] eqn:Hws.
    + exists 0%nat. split; [| intros _; split; reflexivity].
      intros j x Hj. rewrite lookup_nil in Hj. discriminate.
    + exists m. split; [exact Hm |]. split; [reflexivity |].
      split; [cbn; lia | exact Hm0].
Qed.

Lemma pool_inv_join (n : Z) es p p' (k : nat) :
  pool_inv n es p -> owner_ p = Joining k -> join p k = Returns p' ->
  pool_inv n (es ++ [WorkerJoined k]) p'.
Proof.
  intros [Hq Hf Ht Hr Hoff Hcap Hw Hsize Hleft Hjoin] Howner Hj.
  unfold join in Hj.
  destruct (workers p !! k) as [[|task| |]|] eqn:Hk; try discriminate.
  injection Hj as <-.
  pose proof (in_task_insert _ k Returned Joined Hk) as Hperm.
  cbn [task_of] in Hperm. rewrite !app_nil_r in Hperm.
  destruct Hjoin as (m & Hm & Hwhen). rewrite Howner in Hwhen.
  destruct Hwhen as (Htrue & Hlt & Hmk).
  assert (Hmk' : m = k).
  { pose proof (not_joined_not_first _ _ _ _ Hm Hk) as Hle.
    destruct Hmk as [-> | ->]; [reflexivity |].
    assert (length (workers p) <= k)%nat by (apply Hle; discriminate). lia. }
  subst m.
  split; cbn [tasks shared_states workers off owner_];
    rewrite ?submitted_app, ?took_app, ?ran_app; cbn [submitted took ran];
    rewrite ?app_nil_r; try assumption.
  - rewrite Hperm. exact Ht.
  - rewrite length_insert. exact Hw.
  - intros _. split; [exact Htrue |]. apply Hleft. exists k. left. exact Hk.
  - exists (S k). rewrite length_insert. split.
    + intros j x Hx.
      apply list_lookup_insert_Some in Hx as [(Heq & <- & _) | (Hne & Hx)].
      * subst j. split; [intros _; lia | reflexivity].
      * pose proof (Hm j x Hx) as Hiff. split; [intros HJ | intros Hj'].
        -- apply Hiff in HJ. lia.
        -- apply Hiff. lia.
    + destruct (Nat.ltb_spec (S k) (length (workers p))) as [Hlt' | Hge].
      * split; [exact Htrue |]. split; [exact Hlt' | left; reflexivity].
      * intros _. split; [lia | exact Htrue].
Qed.

Lemma pool_inv_ShutdownThrew (n : Z) es p (k : nat) :
  pool_inv n es p -> owner_ p = Joining k -> join p k = Throws ->
  pool_inv n (es ++ [ShutdownThrew]) (leave_Shutdown p).
Proof.
  intros [Hq Hf Ht Hr Hoff Hcap Hw Hsize Hleft Hjoin] Howner Hj.
  unfold join in Hj.
  destruct (workers p !! k) as [[|task| |]|] eqn:Hk; try discriminate.
  destruct Hjoin as (m & Hm & Hwhen). rewrite Howner in Hwhen.
  destruct Hwhen as (Htrue & Hlt & Hmk).
  assert (Hall : m = length (workers p)).
  { destruct Hmk as [-> | ->]; [| reflexivity].
    pose proof (proj1 (Hm k Joined Hk) eq_refl). lia. }
  split; cbn [leave_Shutdown tasks shared_states workers off owner_];
    rewrite ?submitted_app, ?took_app, ?ran_app; cbn [submitted took ran];
    rewrite ?app_nil_r; try assumption.
  exists m. split; [exact Hm | intros _; split; [exact Hall | exact Htrue]].
Qed.

Lemma pool_inv_step (n : Z) es p p' (m : move T) (e : pool_event T) :
  pool_inv n es p -> pool_step p m = Some (e, p') -> pool_inv n (es ++ [e]) p'.
Proof.
  intros Hinv Hstep. destruct m as [task | i | |]; cbn [pool_step] in Hstep.
  - destruct (Submit p task) as [[future p1]| | |] eqn:HS; try discriminate;
      injection Hstep as <- <-.
    + exact (pool_inv_Submit _ _ _ _ _ _ Hinv HS).
    + exact (pool_inv_SubmitThrew _ _ _ _ Hinv).
  - exact (pool_inv_worker _ _ _ _ _ _ Hinv Hstep).
  - destruct (owner_ p) eqn:Howner; try discriminate. injection Hstep as <- <-.
    exact (pool_inv_Shutdown_store _ _ _ Hinv Howner).
  - destruct (owner_ p) as [| |k] eqn:Howner; [discriminate | |].
    + injection Hstep as <- <-. exact (pool_inv_Shutdown_queue _ _ _ Hinv Howner).
    + destruct (join p k) as [p1| | |] eqn:Hj; try discriminate;
        injection Hstep as <- <-.
      * exact (pool_inv_join _ _ _ _ _ Hinv Howner Hj).
      * exact (pool_inv_ShutdownThrew _ _ _ _ Hinv Howner Hj).
Qed.

Lemma pool_inv_run (n : Z) (moves : list (move T)) :
  forall es0 es p p',
    pool_inv n es0 p -> pool_run p moves = Some (es, p') ->
    pool_inv n (es0 ++ es) p'.
Proof.
  induction moves as [|m rest IH]; intros es0 es p p' Hinv Hrun;
    cbn [pool_run] in Hrun.
  - injection Hrun as <- <-. rewrite app_nil_r. exact Hinv.
  - destruct (pool_step p m) as [[e p1]|] eqn:Hstep; [| discriminate].
    destruct (pool_run p1 rest) as [[es1 p2]|] eqn:Hrest; [| discriminate].
    injection Hrun as <- <-.
    pose proof (IH _ _ _ _ (pool_inv_step _ _ _ _ _ _ Hinv Hstep) Hrest) as H.
    rewrite <- app_assoc in H. exact H.
Qed.

Lemma pool_inv_reached (n : Z) (moves : list (move T)) es p :
  0 <= n -> pool_run (ThreadPool_new n) moves = Some (es, p) -> pool_inv n es p.
Proof.
  intros Hn Hrun. exact (pool_inv_run n moves [] es _ p (pool_inv_new n Hn) Hrun).
Qed.


(** ** After Shutdown *)

Lemma Submitted_submitted es (task : T) (future : nat) :
  Submitted task future ∈ es ->
  {| function := task; shared_state := future |} ∈ submitted es.
Proof.
  induction es as [|e es IH]; intros Hin; [apply elem_of_nil in Hin; destruct Hin |].
  apply elem_of_cons in Hin as [<- | Hin].
  - cbn [submitted]. apply elem_of_cons. left. reflexivity.
  - specialize (IH Hin). destruct e; cbn [submitted]; try exact IH.
    apply elem_of_cons. right. exact IH.
Qed.

Lemma in_task_all_joined ws :
  (forall j, (j < length ws)%nat -> ws !! j = Some Joined) -> in_task ws = [].
Proof.
  induction ws as [|w ws IH]; intros Hall; [reflexivity |].
  pose proof (Hall 0%nat) as H0. cbn in H0.
  assert (Hw : w = Joined) by (assert (Some w = Some Joined) by (apply H0; lia);
                               congruence).
  subst w. cbn [in_task]. apply IH. intros j Hj. apply (Hall (S j)). cbn. lia.
Qed.

Lemma Shutdown_done (n : Z) es p :
  0 <= n -> pool_inv n es p -> off p = true -> owner_ p = Elsewhere ->
  (forall j, (j < length (workers p))%nat -> workers p !! j = Some Joined) /\
  Queue.off (tasks p) = true /\
  box (tasks p) = [] /\
  submitted es ≡ₚ ran es.
Proof.
  intros Hn [Hq Hf Ht Hr Hoff Hcap Hw Hsize Hleft Hjoin] Htrue Howner.
  destruct Hjoin as (m & Hm & Hwhen). rewrite Howner in Hwhen.
  destruct (Hwhen Htrue) as [-> Hqoff].
  assert (Hall : forall j, (j < length (workers p))%nat -> workers p !! j = Some Joined).
  { intros j Hj. destruct (lookup_lt_is_Some_2 _ _ Hj) as [w Hw'].
    rewrite Hw'. f_equal. apply (Hm j w Hw'). exact Hj. }
  assert (Hbox : box (tasks p) = []).
  { destruct (workers p) as [|w ws] eqn:Hws.
    - cbn in Hw. unfold size in Hsize.
      destruct (box (tasks p)); [reflexivity | cbn in Hsize; lia].
    - apply Hleft. exists 0%nat. right. apply (Hall 0%nat). cbn. lia. }
  split; [exact Hall |]. split; [exact Hqoff |]. split; [exact Hbox |].
  rewrite Hq, Hbox, app_nil_r, Ht, (in_task_all_joined _ Hall), app_nil_r.
  reflexivity.
Qed.

(** X27: when [Shutdown] has returned, every task that [Submit] accepted
    has been run: its future holds the value of its function.  Every
    worker has left its loop and has been joined, and the queue is
    empty. *)
Theorem Shutdown_completes_every_task (n : Z) (moves : list (move T)) es p
    (task : T) (future : nat) :
  0 <= n -> pool_run (ThreadPool_new n) moves = Some (es, p) ->
  off p = true -> owner_ p = Elsewhere ->
  (Submitted task future ∈ es -> shared_states p !! future = Some (Some task)) /\
  (forall j, (j < Z.to_nat n)%nat -> workers p !! j = Some Joined) /\
  box (tasks p) = [].
Proof.
  intros Hn Hrun Htrue Howner.
  pose proof (pool_inv_reached n moves es p Hn Hrun) as Hinv.
  destruct (Shutdown_done n es p Hn Hinv Htrue Howner) as (Hall & _ & Hbox & Hperm).
  split; [| split; [| exact Hbox]].
  - intros Hin. apply Submitted_submitted in Hin. rewrite Hperm in Hin.
    exact (inv_ran _ _ _ Hinv _ Hin).
  - intros j Hj. apply Hall. rewrite (inv_workers _ _ _ Hinv). exact Hj.
Qed.

(** X28: the workers take the tasks in the order in which [Submit]
    accepted them: the accepted tasks are those taken so far, in this
    order, followed by those waiting in the queue.  Every accepted task has
    a shared state of its own, so no task is taken twice, and a task that
    was run had been taken: none runs twice.  At most [n] tasks wait. *)
Theorem tasks_taken_in_order (n : Z) (moves : list (move T)) es p :
  0 <= n -> pool_run (ThreadPool_new n) moves = Some (es, p) ->
  submitted es = took es ++ box (tasks p) /\
  NoDup (shared_state <$> submitted es) /\
  NoDup (shared_state <$> took es) /\
  ran es ⊆+ took es /\
  size (tasks p) <= n.
Proof.
  intros Hn Hrun.
  pose proof (pool_inv_reached n moves es p Hn Hrun) as Hinv.
  pose proof Hinv as [Hq Hf Ht Hr Hoff Hcap Hw Hsize Hleft Hjoin].
  assert (Hnd : NoDup (shared_state <$> submitted es))
    by (rewrite Hf; apply NoDup_seq).
  split; [exact Hq |]. split; [exact Hnd |]. split; [| split; [| exact Hsize]].
  - rewrite Hq, fmap_app in Hnd. apply NoDup_app in Hnd as [Hnd' _]. exact Hnd'.
  - rewrite Ht. apply submseteq_inserts_r. reflexivity.
Qed.

(** ** Submit that is turned down *)

Lemma no_worker_takes_nothing (moves : list (move T)) :
  forall p es p',
    workers p = [] -> pool_run p moves = Some (es, p') ->
    took es = [] /\ workers p' = [].
Proof.
  induction moves as [|m rest IH]; intros p es p' Hws Hrun; cbn [pool_run] in Hrun.
  - injection Hrun as <- <-. split; [reflexivity | exact Hws].
  - destruct (pool_step p m) as [[e p1]|] eqn:Hstep; [| discriminate].
    destruct (pool_run p1 rest) as [[es1 p2]|] eqn:Hrest; [| discriminate].
    injection Hrun as <- <-.
    assert (H1 : workers p1 = [] /\ took [e] = []).
    { destruct m as [task | i | |]; cbn [pool_step] in Hstep.
      - unfold Submit in Hstep.
        destruct (Put (tasks p) _); try discriminate; injection Hstep as <- <-;
          split; (exact Hws || reflexivity).
      - unfold worker_step in Hstep. rewrite Hws, lookup_nil in Hstep. discriminate.
      - destruct (owner_ p); try discriminate. injection Hstep as <- <-.
        split; [exact Hws | reflexivity].
      - destruct (owner_ p) as [| |k]; [discriminate | |].
        + injection Hstep as <- <-. split; [exact Hws | reflexivity].
        + unfold join in Hstep. rewrite Hws, lookup_nil in Hstep. discriminate. }
    destruct H1 as [Hws1 He]. destruct (IH _ _ _ Hws1 Hrest) as [Htook Hws2].
    split; [| exact Hws2].
    change (e :: es1) with ([e] ++ es1). rewrite took_app, He, Htook. reflexivity.
Qed.

(** X29: [Submit] throws and changes nothing once [Shutdown] has shut the
    queue down, hence on every pool whose [Shutdown] has returned.  A pool
    made with 0 threads never accepts a task: [Submit] waits as long as the
    queue is not shut down.  [ThreadPool()] never makes such a pool, and
    its first [Submit] returns at once. *)
Theorem Submit_turned_down (n : Z) (moves : list (move T)) es p (task : T)
    (cores : Z) :
  0 <= n -> pool_run (ThreadPool_new n) moves = Some (es, p) ->
  (Queue.off (tasks p) = true \/ (off p = true /\ owner_ p = Elsewhere) ->
   pool_step p (CallSubmit task) = Some (SubmitThrew task, p)) /\
  (n = 0 -> submitted es = [] /\
            (Queue.off (tasks p) = false -> pool_step p (CallSubmit task) = None)) /\
  (0 <= cores ->
   0 < default_num_workers cores /\
   exists p1, Submit (ThreadPool_default cores) task = Returns (0%nat, p1)).
Proof.
  intros Hn Hrun.
  pose proof (pool_inv_reached n moves es p Hn Hrun) as Hinv.
  pose proof Hinv as [Hq Hf Ht Hr Hoff Hcap Hw Hsize Hleft Hjoin].
  split; [| split].
  - intros Hshut.
    assert (Hqoff : Queue.off (tasks p) = true).
    { destruct Hshut as [Hqoff | [Htrue Howner]]; [exact Hqoff |].
      exact (proj1 (proj2 (Shutdown_done n es p Hn Hinv Htrue Howner))). }
    cbn [pool_step]. unfold Submit, Put. rewrite Hqoff, orb_true_r. reflexivity.
  - intros ->.
    assert (Hws : workers (ThreadPool_new (T := T) 0) = []) by reflexivity.
    destruct (no_worker_takes_nothing moves _ _ _ Hws Hrun) as [Htook _].
    assert (Hbox : box (tasks p) = []).
    { unfold size in Hsize. destruct (box (tasks p)); [reflexivity | cbn in Hsize; lia]. }
    split; [rewrite Hq, Htook, Hbox; reflexivity |].
    intros Hfalse. cbn [pool_step]. unfold Submit, Put, size.
    rewrite Hfalse, Hbox, Hcap. reflexivity.
  - intros Hcores. unfold default_num_workers.
    destruct (Z.eqb_spec cores 0) as [-> | Hne].
    + split; [lia |]. eexists. reflexivity.
    + split; [lia |]. unfold ThreadPool_default, default_num_workers.
      destruct (Z.eqb_spec cores 0) as [? | _]; [contradiction |].
      unfold Submit, Put, size. cbn [ThreadPool_new tasks BlockingQueue_new box
                                     Queue.capacity Queue.off length shared_states].
      destruct (Z.eqb_spec (Z.of_nat 0) cores) as [Hz | _]; [cbn in Hz; lia |].
      cbn. eexists. reflexivity.
Qed.

(** X30: [Shutdown] a second time throws: every worker has been joined,
    and the first [join] finds a thread that is not joinable.  The pool is
    left as it was.  The destructor does not run into this, for it calls
    [Shutdown] only while [off] is false. *)
Theorem second_Shutdown_throws (n : Z) (moves : list (move T)) es p :
  0 < n -> pool_run (ThreadPool_new n) moves = Some (es, p) ->
  off p = true -> owner_ p = Elsewhere ->
  pool_run p [CallPoolShutdown; ShutdownStep; ShutdownStep]
    = Some ([ShutdownCalled; QueueShutDown; ShutdownThrew], p) /\
  destructor_calls_Shutdown p = false.
Proof.
  intros Hn Hrun Htrue Howner.
  assert (Hn0 : 0 <= n) by lia.
  pose proof (pool_inv_reached n moves es p Hn0 Hrun) as Hinv.
  destruct (Shutdown_done n es p Hn0 Hinv Htrue Howner) as (Hall & Hqoff & _ & _).
  pose proof (inv_workers _ _ _ Hinv) as Hw.
  split; [| unfold destructor_calls_Shutdown; rewrite Htrue; reflexivity].
  assert (H0 : workers p !! 0%nat = Some Joined) by (apply Hall; lia).
  destruct p as [c o ws [qc qo qb] ss ow]. cbn in *. subst o ow qo.
  destruct ws as [|w ws]; [discriminate |]. cbn in H0. injection H0 as ->.
  reflexivity.
Qed.

End Facts.

(** ** Examples *)

Lemma two_workers_run :
  pool_run (ThreadPool_new 2) two_workers_moves
    = Some (two_workers_events, two_workers_end).
Proof. vm_compute. reflexivity. Qed.

Lemma Shutdown_completes_every_task_witness :
  pool_run (ThreadPool_new 2) two_workers_moves
    = Some (two_workers_events, two_workers_end) /\
  (Submitted 30 2 ∈ two_workers_events ->
   shared_states two_workers_end !! 2%nat = Some (Some 30)).
Proof.
  split; [exact two_workers_run |].
  assert (Hn : 0 <= 2) by lia.
  exact (proj1 (Shutdown_completes_every_task 2 two_workers_moves two_workers_events
                  two_workers_end 30 2 Hn two_workers_run eq_refl eq_refl)).
Defined.

Lemma tasks_taken_in_order_witness :
  submitted two_workers_events
    = took two_workers_events ++ box (tasks two_workers_end) /\
  NoDup (shared_state <$> submitted two_workers_events) /\
  NoDup (shared_state <$> took two_workers_events) /\
  ran two_workers_events ⊆+ took two_workers_events /\
  size (tasks two_workers_end) <= 2.
Proof.
  assert (Hn : 0 <= 2) by lia.
  exact (tasks_taken_in_order 2 two_workers_moves two_workers_events two_workers_end
           Hn two_workers_run).
Defined.

Lemma Submit_turned_down_witness :
  pool_step two_workers_end (CallSubmit 40) = Some (SubmitThrew 40, two_workers_end).
Proof.
  assert (Hn : 0 <= 2) by lia.
  apply (proj1 (Submit_turned_down 2 two_workers_moves two_workers_events
                  two_workers_end 40 8 Hn two_workers_run)).
  left. reflexivity.
Defined.

Lemma second_Shutdown_throws_witness :
  pool_run two_workers_end [CallPoolShutdown; ShutdownStep; ShutdownStep]
    = Some ([ShutdownCalled; QueueShutDown; ShutdownThrew], two_workers_end) /\
  destructor_calls_Shutdown two_workers_end = false.
Proof.
  assert (Hn : 0 < 2) by lia.
  exact (second_Shutdown_throws 2 two_workers_moves two_workers_events
           two_workers_end Hn two_workers_run eq_refl eq_refl).
Defined.

End PoolFacts.
